(** * fc2-live-dl: a shallow embedding of the live-capture engine

    The development follows [fc2_live_dl.py]:
    - [Py]        the Python values and exceptions the program works with;
    - [FC2LiveDL] playlist selection ([_get_mode], [_merge_playlists],
                  [_sort_playlists], [_get_playlist_or_best], [_get_hls_url]);
    - [FC2WebSocket] message ids, heartbeat and [get_hls_information];
    - [HLSDownloader] playlist parsing, the poller, the fetch workers and
                  the ordered consumer.

    The modules [PlaylistSpec], [WebSocketSpec], [TextSpec] and
    [DownloaderSpec] hold the predicates used in the statements; the
    modules whose names end in [Facts] hold the proofs. *)

From Stdlib Require Import ZArith List Lia String Ascii QArith Lqa.
From Stdlib Require Strings.Byte.
From stdpp Require Import base option list gmap strings sorting.
From stdpp Require Import pretty.

Local Open Scope Z_scope.

(** ** Python values shared by all components *)

Module Py.

(** Exceptions raised by the program (or by the Python built-ins it calls). *)
Inductive exn : Type :=
| StreamFinished
| EmptyPlaylistException
| ServerDisconnection (code : Z)
| PaidProgramDisconnection
| LoginRequiredError
| MultipleConnectionError
| TimeoutError
| ClientError (reason : string)
| IndexError
| KeyError (key : string)
| TypeError
| ValueError.

(** A computation either returns or raises. *)
Inductive result (A : Type) : Type :=
| Ok (a : A)
| Raise (e : exn).
Global Arguments Ok {A} a.
Global Arguments Raise {A} e.

Global Instance result_bind : MBind result := λ A B k r,
  match r with
  | Ok a => k a
  | Raise e => Raise e
  end.

(** [list.index(x)]: position of the first occurrence. *)
Fixpoint index {A} `{EqDecision A} (x : A) (l : list A) : option nat :=
  match l with
  | [] => None
  | y :: l' => if decide (y = x) then Some 0%nat else S <$> index x l'
  end.

(** [sorted(l, reverse=True, key=key)]: sorting is stable, and [reverse]
    keeps the original order of elements with equal keys. *)
Fixpoint insert_desc {A} (key : A → Z) (x : A) (l : list A) : list A :=
  match l with
  | [] => [x]
  | y :: l' => if key x <? key y then y :: insert_desc key x l' else x :: l
  end.

Definition sorted_reverse {A} (key : A → Z) (l : list A) : list A :=
  foldr (insert_desc key) [] l.

(** [a] may stand before [b] in a list sorted by decreasing key. *)
Definition before {A} (key : A → Z) (a b : A) : Prop := key b ≤ key a.

(** [str.isspace] on the code points a Rocq character can hold (0-255):
    tab, line feed, vertical tab, form feed, carriage return, the four
    separators 0x1c-0x1f, space, NEL (0x85) and no-break space (0xa0). *)
Definition isspace (c : ascii) : bool :=
  let n := N_of_ascii c in
  ((9 <=? n) && (n <=? 13) || (28 <=? n) && (n <=? 32)
   || (n =? 133) || (n =? 160))%N.

Fixpoint lstrip (s : string) : string :=
  match s with
  | EmptyString => EmptyString
  | String c s' => if isspace c then lstrip s' else s
  end.

Fixpoint rstrip (s : string) : string :=
  match s with
  | EmptyString => EmptyString
  | String c s' =>
      match rstrip s' with
      | EmptyString => if isspace c then EmptyString else String c EmptyString
      | r => String c r
      end
  end.

(** [s.strip()] *)
Definition strip (s : string) : string := rstrip (lstrip s).

Definition newline : ascii := ascii_of_N 10.
Definition hash : ascii := ascii_of_N 35.

(** [s.split('\n')]: the text before the first newline, and the pieces
    after it. *)
Fixpoint split_first (s : string) : string * list string :=
  match s with
  | EmptyString => (EmptyString, [])
  | String c s' =>
      let '(l, ls) := split_first s' in
      if decide (c = newline) then (EmptyString, l :: ls) else (String c l, ls)
  end.

Definition split_newline (s : string) : list string :=
  let '(l, ls) := split_first s in l :: ls.

(** [time.time()] readings are rationals.  The program only subtracts one
    reading from another and compares the difference with a constant;
    both are taken exactly here. *)
Abbreviation time := Q.

End Py.

Import Py.

(** ** FC2LiveDL: choosing the playlist *)

Module FC2LiveDL.

(** A playlist entry [{'url': ..., 'mode': ...}] of the HLS information. *)
Record playlist : Type := Playlist { url : string; mode : Z }.

Global Instance playlist_eq_dec : EqDecision playlist.
Proof. solve_decision. Defined.

(** The arguments of a [get_hls_information] response: a dict from names to
    lists of playlist entries. *)
Abbreviation hls_info := (gmap string (list playlist)).

(** Class constants; dicts keep insertion order, which [dict_search] uses. *)
Definition STREAM_QUALITY : list (string * Z) :=
  [("150Kbps", 10); ("400Kbps", 20); ("1.2Mbps", 30); ("2Mbps", 40);
   ("3Mbps", 50); ("sound", 90)]%string.

Definition STREAM_LATENCY : list (string * Z) :=
  [("low", 0); ("high", 1); ("mid", 2)]%string.

(** [d[k]] on a dict written as an association list. *)
Fixpoint getitem (d : list (string * Z)) (k : string) : result Z :=
  match d with
  | [] => Raise (KeyError k)
  | (k', v) :: d' => if decide (k' = k) then Ok v else getitem d' k
  end.

(** The two parameters of the session that playlist selection reads. *)
Record params : Type := Params { quality : string; latency : string }.

(** Lines written through [Logger.warn] by [_get_playlist_or_best]. *)
Inductive log_line : Type :=
| WarnNotAvailable (requested : string * string)
| WarnFallingBack (best : string * string).

Definition _get_mode (p : params) : result Z :=
  q ← getitem STREAM_QUALITY (quality p);
  l ← getitem STREAM_LATENCY (latency p);
  Ok (0 + q + l).

(** [list(haystack.keys())[list(haystack.values()).index(needle)]] *)
Definition dict_search (haystack : list (string * Z)) (needle : Z) : result string :=
  match index needle (haystack.*2) with
  | None => Raise ValueError
  | Some i =>
      match haystack.*1 !! i with
      | Some k => Ok k
      | None => Raise IndexError
      end
  end.

(** Python's [%] and [//] round towards minus infinity, as [Z.modulo] and
    [Z.div] do for a positive divisor. *)
Definition _format_mode (m : Z) : result (string * string) :=
  l ← dict_search STREAM_LATENCY (m `mod` 10);
  q ← dict_search STREAM_QUALITY (m `div` 10 * 10);
  Ok (q, l).

Definition _merge_playlists (info : hls_info) : list playlist :=
  foldl (λ playlists name,
           match info !! name with
           | Some ps => playlists ++ ps
           | None => playlists
           end)
        []
        ["playlists"; "playlists_high_latency"; "playlists_middle_latency"]%string.

Definition key_map (p : playlist) : Z :=
  if 90 <=? mode p then mode p - 90 else mode p.

Definition _sort_playlists (merged_playlists : list playlist) : list playlist :=
  sorted_reverse key_map merged_playlists.

(** The [for] loop of [_get_playlist_or_best]: every match overwrites
    [playlist], so the last match in the sorted list wins. *)
Definition find_mode (sorted_playlists : list playlist) (m : Z) : option playlist :=
  foldl (λ found p, if decide (mode p = m) then Some p else found)
        None sorted_playlists.

(** Returns the chosen entry together with the warnings written before
    returning or raising.  The arguments of [warn] are evaluated before the
    call, so a failing [_format_mode] aborts the selection. *)
Definition _get_playlist_or_best (sorted_playlists : list playlist) (m : Z)
  : result playlist * list log_line :=
  match find_mode sorted_playlists m with
  | Some p => (Ok p, [])
  | None =>
      match sorted_playlists !! 0%nat with
      | None => (Raise IndexError, [])
      | Some best =>
          match _format_mode m with
          | Raise e => (Raise e, [])
          | Ok requested =>
              match _format_mode (mode best) with
              | Raise e => (Raise e, [WarnNotAvailable requested])
              | Ok fallback =>
                  (Ok best, [WarnNotAvailable requested; WarnFallingBack fallback])
              end
          end
      end
  end.

Definition _get_hls_url (p : params) (info : hls_info)
  : result string * list log_line :=
  match _get_mode p with
  | Raise e => (Raise e, [])
  | Ok m =>
      let p_merged := _merge_playlists info in
      let p_sorted := _sort_playlists p_merged in
      let '(r, log) := _get_playlist_or_best p_sorted m in
      (pl ← r; Ok (url pl), log)
  end.

End FC2LiveDL.

(** ** FC2WebSocket: the control channel *)

Module FC2WebSocket.

Import FC2LiveDL.

Definition heartbeat_interval : time := 30%Q.

(** An outbound message [{'name': ..., 'arguments': ..., 'id': ...}]. *)
Record out_msg : Type :=
  OutMsg { name : string; arguments : gmap string string; id : Z }.

(** A [_response_] frame: its [id] and its [arguments]. *)
Record response : Type := Response { resp_id : Z; resp_arguments : hls_info }.

(** The frames [_main_loop] tells apart by [msg['name']]. *)
Inductive frame : Type :=
| connect_complete
| _response_ (r : response)
| control_disconnection (code : Z)
| comment (cs : list string)
| unrecognised (frame_name : string).

(** The fields of the object that the modelled methods read or write
    (the debug dump of the frames to [_output_file] is left out). *)
Record ws : Type := WS {
  _msg_id : Z;
  _msg_responses : gmap Z response;
  _last_heartbeat : time;
  _is_ready : bool;
  comments : list string
}.

Definition __init__ : ws := WS 0 ∅ 0%Q false [].

(** [_send_message]: the new state, the message handed to [send_json] and
    the returned id. *)
Definition _send_message (nm : string) (args : gmap string string) (st : ws)
  : ws * out_msg * Z :=
  let st' := WS (_msg_id st + 1) (_msg_responses st) (_last_heartbeat st)
                (_is_ready st) (comments st) in
  (st', OutMsg nm args (_msg_id st'), _msg_id st').

(** [_try_heartbeat]; [t_check] is the clock read by the test and [t_done]
    the clock read after the send has completed. *)
Definition _try_heartbeat (t_check t_done : time) (st : ws) : ws * list out_msg :=
  if Qlt_le_dec (t_check - _last_heartbeat st) heartbeat_interval
  then (st, [])
  else
    let '(st', m, _) := _send_message "heartbeat" ∅ st in
    (WS (_msg_id st') (_msg_responses st') t_done (_is_ready st') (comments st'),
     [m]).

(** The dispatch on [msg['name']] in [_main_loop]. *)
Definition handle_frame (f : frame) (st : ws) : result ws :=
  match f with
  | connect_complete =>
      Ok (WS (_msg_id st) (_msg_responses st) (_last_heartbeat st) true
             (comments st))
  | _response_ r =>
      Ok (WS (_msg_id st) (<[resp_id r := r]> (_msg_responses st))
             (_last_heartbeat st) (_is_ready st) (comments st))
  | control_disconnection code =>
      if decide (code = 4101) then Raise PaidProgramDisconnection
      else if decide (code = 4507) then Raise LoginRequiredError
      else if decide (code = 4512) then Raise MultipleConnectionError
      else Raise (ServerDisconnection code)
  | comment cs =>
      Ok (WS (_msg_id st) (_msg_responses st) (_last_heartbeat st)
             (_is_ready st) (comments st ++ cs))
  | unrecognised _ => Ok st
  end.

(** One round of the [while True] of [_main_loop] on a received frame. *)
Definition _main_loop_iteration (f : frame) (t_check t_done : time) (st : ws)
  : result (ws * list out_msg) :=
  st' ← handle_frame f st; Ok (_try_heartbeat t_check t_done st').

(** What happens on one connection: the receive loop gets a frame or times
    out, or another task calls [_send_message]. *)
Inductive event : Type :=
| Received (f : frame) (t_check t_done : time)
| ReceiveTimedOut
| Request (nm : string) (args : gmap string string).

Definition step (ev : event) (st : ws) : result (ws * list out_msg) :=
  match ev with
  | Received f t_check t_done => _main_loop_iteration f t_check t_done st
  | ReceiveTimedOut => Raise TimeoutError
  | Request nm args => let '(st', m, _) := _send_message nm args st in Ok (st', [m])
  end.

(** [self._task], the task that runs [_main_loop]: still running
    ([None]), or done with the exception that ended the loop. *)
Abbreviation loop_task := (option exn).

(** One event of a session.  Once the receive loop has ended nothing is
    received any more, but a call of [_send_message] by another task
    still takes the next id and hands its message to [send_json]. *)
Definition session_step (ev : event) (c : ws * loop_task)
  : ws * loop_task * list out_msg :=
  match ev with
  | Request nm args =>
      let '(st', m, _) := _send_message nm args c.1 in (st', c.2, [m])
  | _ =>
      match c.2 with
      | Some _ => (c, [])
      | None =>
          match step ev c.1 with
          | Ok (st', sent) => (st', None, sent)
          | Raise e => (c.1, Some e, [])
          end
      end
  end.

Fixpoint session (evs : list event) (c : ws * loop_task)
  : ws * loop_task * list out_msg :=
  match evs with
  | [] => (c, [])
  | ev :: evs' =>
      let '(c', sent) := session_step ev c in
      let '(c'', sent') := session evs' c' in (c'', sent ++ sent')
  end.

(** A session on a connection whose receive loop is running at the
    start.  Returns the final state and the messages sent, in order. *)
Definition run (evs : list event) (st : ws) : ws * list out_msg :=
  let '(st', _, sent) := session evs (st, None) in (st', sent).

Definition is_heartbeat (m : out_msg) : bool := String.eqb (name m) "heartbeat".

(** The completion times of the heartbeats sent during a session. *)
Fixpoint heartbeat_times (evs : list event) (st : ws) : list time :=
  match evs with
  | [] => []
  | ev :: evs' =>
      match step ev st with
      | Raise _ => []
      | Ok (st', sent) =>
          match ev with
          | Received _ _ t_done =>
              if existsb is_heartbeat sent then t_done :: heartbeat_times evs' st'
              else heartbeat_times evs' st'
          | _ => heartbeat_times evs' st'
          end
      end
  end.

(** The race in [_send_message_and_wait] (called with [timeout=5], so the
    timer always takes part): the response arrives, the timer fires, or the
    receive loop ends with an exception. *)
Inductive wait_outcome : Type :=
| Responded (r : response)
| TimedOut
| MainLoopEnded (e : exn).

(** [_send_message_and_wait]: the message is sent first; while the caller
    waits the receive loop handles the events [evs]; [o] is how the race
    ends when none of these events has ended the loop.  A loop that has
    ended, before the call or during the wait, decides the race with its
    exception.  The response that [pop] returns leaves [_msg_responses].
    Returns the connection, the messages sent and the result. *)
Definition _send_message_and_wait (nm : string) (args : gmap string string)
    (evs : list event) (o : wait_outcome) (c : ws * loop_task)
  : ws * loop_task * list out_msg * result (option response) :=
  let '(st1, m, msg_id) := _send_message nm args c.1 in
  match c.2 with
  | Some e => (st1, Some e, [m], Raise e)
  | None =>
      let '(st2, task, sent) := session evs (st1, None) in
      match task with
      | Some e => (st2, Some e, m :: sent, Raise e)
      | None =>
          match o with
          | Responded r =>
              (WS (_msg_id st2) (delete msg_id (_msg_responses st2))
                  (_last_heartbeat st2) (_is_ready st2) (comments st2),
               None, m :: sent, Ok (Some r))
          | TimedOut => (st2, None, m :: sent, Ok None)
          | MainLoopEnded e => (st2, Some e, m :: sent, Raise e)
          end
      end
  end.

Definition max_tries : Z := 5.

(** What the connection goes through during one attempt of
    [get_hls_information]: the events while [_send_message_and_wait]
    waits, how the wait ends, and the events during the sleep that
    follows a failed attempt. *)
Record attempt : Type := Attempt {
  during_wait : list event;
  outcome : wait_outcome;
  during_sleep : list event
}.

(** The local variables of [get_hls_information], with the connection and
    the task of its receive loop, the messages sent on the connection so
    far and the delays slept so far. *)
Record hls_loop : Type := HlsLoop {
  msg : option response;
  tries : Z;
  conn : ws;
  task : loop_task;
  wire : list out_msg;
  slept : list Z
}.

(** [await asyncio.sleep(backoff_delay)] after a failed attempt: the
    receive loop handles the events of the sleep. *)
Definition hls_sleep (evs : list event) (backoff_delay tries' : Z)
    (c : ws * loop_task) (wire' : list out_msg) (slept' : list Z) : hls_loop :=
  let '(st, task, sent) := session evs c in
  HlsLoop None tries' st task (wire' ++ sent) (slept' ++ [backoff_delay]).

(** The body of the [while] loop in the attempt [a]. *)
Definition hls_body (a : attempt) (s : hls_loop) : result hls_loop :=
  let '(conn', task', sent, r) :=
    _send_message_and_wait "get_hls_information" ∅ (during_wait a) (outcome a)
      (conn s, task s) in
  got ← r;
  let backoff_delay := 2 ^ tries s in
  let tries' := tries s + 1 in
  let wire' := wire s ++ sent in
  match got with
  | None =>
      Ok (hls_sleep (during_sleep a) backoff_delay tries' (conn', task')
            wire' (slept s))
  | Some rsp =>
      if decide (resp_arguments rsp !! "playlists"%string = None)
      then Ok (hls_sleep (during_sleep a) backoff_delay tries' (conn', task')
                 wire' (slept s))
      else Ok (HlsLoop (Some rsp) tries' conn' task' wire' (slept s))
  end.

(** [while msg is None and tries < max_tries]; [env k] is attempt [k]
    (counted from 0).  [None] means that [fuel] rounds did not reach the
    end of the loop. *)
Fixpoint hls_while (fuel : nat) (env : nat → attempt) (s : hls_loop)
  : option (result hls_loop) :=
  if bool_decide (msg s = None ∧ tries s < max_tries) then
    match fuel with
    | O => None
    | S fuel' =>
        match hls_body (env (Z.to_nat (tries s))) s with
        | Raise e => Some (Raise e)
        | Ok s' => hls_while fuel' env s'
        end
    end
  else Some (Ok s).

(** The statements after the loop. *)
Definition hls_finish (s : hls_loop) : result hls_info :=
  if decide (tries s = max_tries) then Raise EmptyPlaylistException
  else
    match msg s with
    | Some rsp => Ok (resp_arguments rsp)
    | None => Raise TypeError
    end.

(** The local variables when the loop is entered, on a connection whose
    receive loop is running. *)
Definition hls_start (st : ws) : hls_loop := HlsLoop None 0 st None [] [].

Definition get_hls_information (fuel : nat) (env : nat → attempt) (st : ws)
  : option (result hls_info) :=
  r ← hls_while fuel env (hls_start st);
  Some (s ← r; hls_finish s).

End FC2WebSocket.

(** ** HLSDownloader: poller, fetch workers and ordered consumer *)

Module HLSDownloader.

Abbreviation bytes := (list Byte.byte).

(** How [session.get(url)] ends: a response with a status and a body, or
    an exception of the HTTP client (a transport error). *)
Inductive http_outcome (A : Type) : Type :=
| HttpResponse (status : Z) (body : A)
| HttpFailure (reason : string).
Global Arguments HttpResponse {A} status body.
Global Arguments HttpFailure {A} reason.

(** The condition of the list comprehension:
    [len(line) > 0 and not line[0] == '#']. *)
Definition keeps_line (line : string) : bool :=
  match line with
  | EmptyString => false
  | String c _ => negb (bool_decide (c = hash))
  end.

Definition _get_fragment_urls (o : http_outcome string) : result (list string) :=
  match o with
  | HttpFailure reason => Raise (ClientError reason)
  | HttpResponse status playlist =>
      if decide (status = 403) then Raise StreamFinished
      else Ok (strip <$> filter (λ line, keeps_line line = true) (split_newline playlist))
  end.

(** *** The two priority queues *)

(** An item of [_frag_urls] is [(i, (url, tries))], an item of [_frag_data]
    is [(i, payload)]; tuples are ordered lexicographically. *)
Definition url_item : Type := Z * (string * Z).
Definition data_item : Type := Z * bytes.

Fixpoint bytes_leb (a b : bytes) : bool :=
  match a, b with
  | [], _ => true
  | _ :: _, [] => false
  | x :: a', y :: b' =>
      let nx := Byte.to_N x in
      let ny := Byte.to_N y in
      (nx <? ny)%N || ((nx =? ny)%N && bytes_leb a' b')
  end.

Definition url_item_leb (a b : url_item) : bool :=
  (a.1 <? b.1)
  || ((a.1 =? b.1)
      && (String.ltb a.2.1 b.2.1
          || (String.eqb a.2.1 b.2.1 && (a.2.2 <=? b.2.2)))).

Definition data_item_leb (a b : data_item) : bool :=
  (a.1 <? b.1) || ((a.1 =? b.1) && bytes_leb a.2 b.2).

(** A queue is kept in increasing order, so [get] takes the head. *)
Fixpoint pq_put {A} (leb : A → A → bool) (x : A) (q : list A) : list A :=
  match q with
  | [] => [x]
  | y :: q' => if leb x y then x :: q else y :: pq_put leb x q'
  end.

Definition pq_get {A} (q : list A) : option (A * list A) :=
  match q with
  | [] => None
  | x :: q' => Some (x, q')
  end.

(** [asyncio.PriorityQueue(100)]: [put] waits while the queue is full. *)
Definition maxsize : nat := 100.
Definition full {A} (q : list A) : bool := bool_decide (maxsize ≤ length q)%nat.

(** *** The poller, [_fill_queue] *)

Record poller : Type := Poller {
  last_fragment_timestamp : time;
  last_fragment : option string;
  frag_idx : Z
}.

(** [new_idx]: one past the position of [last_fragment], or 0 when
    [frags.index] raises. *)
Definition new_index (frags : list string) (last : option string) : nat :=
  match last with
  | None => 0
  | Some f =>
      match index f frags with
      | Some i => 1 + i
      | None => 0
      end
  end.

(** Where the poller task stands: about to fetch the playlist, inside the
    [for] loop with the fragments still to enqueue, or returned. *)
Inductive poller_pc : Type :=
| Polling
| Putting (rest : list string)
| Returned.

(** Where a worker task stands. *)
Inductive worker : Type :=
| Idle
| Fetching (i : Z) (url : string) (tries : Z)
| PutUrl (item : url_item)
| PutData (item : data_item)
| Cancelled.

(** Lines written by the workers and the poller. *)
Inductive log_line : Type :=
| LogErrored (wid : nat) (i : Z) (status : Z)
| LogRetrying (wid : nat) (i : Z)
| LogGaveUp (wid : nat) (i : Z) (tries : Z)
| LogException (e : exn)
| LogFetchError (e : exn)
| LogTimeout.

(** The body of [_download_worker] after the GET: what the worker does
    next and what it logs. *)
Definition on_fetched (wid : nat) (i : Z) (url : string) (tries : Z)
    (o : http_outcome bytes) : worker * list log_line :=
  match o with
  | HttpFailure reason => (Idle, [LogException (ClientError reason)])
  | HttpResponse status body =>
      if 299 <? status then
        if tries <? 5
        then (PutUrl (i, (url, tries + 1)), [LogErrored wid i status; LogRetrying wid i])
        else (PutData (i, []), [LogErrored wid i status; LogGaveUp wid i tries])
      else (PutData (i, body), [])
  end.

(** The downloader: both queues, the poller, the workers, the consumer's
    expected index, the payloads yielded by [read] so far, and the log. *)
Record hls : Type := Hls {
  _frag_urls : list url_item;
  _frag_data : list data_item;
  fill : poller;
  pc : poller_pc;
  workers : list worker;
  index : Z;
  yielded : list bytes;
  log : list log_line
}.

(** The state when [read] has started [_download] at time [t0] with
    [threads] workers. *)
Definition start (threads : nat) (t0 : time) : hls :=
  Hls [] [] (Poller t0 None 0) Polling (replicate threads Idle) 0 [] [].

(** The steps between two suspension points of the tasks. *)
Inductive action : Type :=
| PollPlaylist (o : http_outcome string) (now : time)
| PollerPut
| PollerCheck (now : time)
| WorkerGet (wid : nat)
| WorkerFetched (wid : nat) (o : http_outcome bytes)
| WorkerPut (wid : nat)
| Read.

(** When [_fill_queue] returns, [_download] cancels every worker. *)
Definition finish (s : hls) (lines : list log_line) : hls :=
  Hls (_frag_urls s) (_frag_data s) (fill s) Returned
      (const Cancelled <$> workers s) (index s) (yielded s) (log s ++ lines).

Definition set_worker (wid : nat) (w : worker) (lines : list log_line) (s : hls) : hls :=
  Hls (_frag_urls s) (_frag_data s) (fill s) (pc s)
      (<[wid := w]> (workers s)) (index s) (yielded s) (log s ++ lines).

(** One step; [None] when the task is not at that point or is waiting on a
    queue. *)
Definition step (a : action) (s : hls) : option hls :=
  match a with
  | PollPlaylist o now =>
      match pc s with
      | Polling =>
          match _get_fragment_urls o with
          | Raise e => Some (finish s [LogFetchError e])
          | Ok frags =>
              let new_idx := new_index frags (last_fragment (fill s)) in
              let n_new := (Z.of_nat (length frags) - Z.of_nat new_idx)%Z in
              let stamp := if 0 <? n_new then now
                           else last_fragment_timestamp (fill s) in
              Some (Hls (_frag_urls s) (_frag_data s)
                        (Poller stamp (last_fragment (fill s)) (frag_idx (fill s)))
                        (Putting (drop new_idx frags))
                        (workers s) (index s) (yielded s) (log s))
          end
      | _ => None
      end
  | PollerPut =>
      match pc s with
      | Putting (frag :: rest) =>
          if full (_frag_urls s) then None
          else
            Some (Hls (pq_put url_item_leb (frag_idx (fill s), (frag, 0)) (_frag_urls s))
                      (_frag_data s)
                      (Poller (last_fragment_timestamp (fill s)) (Some frag)
                              (frag_idx (fill s) + 1))
                      (Putting rest)
                      (workers s) (index s) (yielded s) (log s))
      | _ => None
      end
  | PollerCheck now =>
      match pc s with
      | Putting [] =>
          if Qlt_le_dec 30%Q (now - last_fragment_timestamp (fill s))
          then Some (finish s [LogTimeout])
          else Some (Hls (_frag_urls s) (_frag_data s) (fill s) Polling
                         (workers s) (index s) (yielded s) (log s))
      | _ => None
      end
  | WorkerGet wid =>
      match workers s !! wid, pq_get (_frag_urls s) with
      | Some Idle, Some ((i, (url, tries)), q) =>
          Some (Hls q (_frag_data s) (fill s) (pc s)
                    (<[wid := Fetching i url tries]> (workers s))
                    (index s) (yielded s) (log s))
      | _, _ => None
      end
  | WorkerFetched wid o =>
      match workers s !! wid with
      | Some (Fetching i url tries) =>
          let '(w, lines) := on_fetched wid i url tries o in
          Some (set_worker wid w lines s)
      | _ => None
      end
  | WorkerPut wid =>
      match workers s !! wid with
      | Some (PutUrl item) =>
          if full (_frag_urls s) then None
          else
            Some (Hls (pq_put url_item_leb item (_frag_urls s)) (_frag_data s)
                      (fill s) (pc s) (<[wid := Idle]> (workers s))
                      (index s) (yielded s) (log s))
      | Some (PutData item) =>
          if full (_frag_data s) then None
          else
            Some (Hls (_frag_urls s) (pq_put data_item_leb item (_frag_data s))
                      (fill s) (pc s) (<[wid := Idle]> (workers s))
                      (index s) (yielded s) (log s))
      | _ => None
      end
  | Read =>
      match pq_get (_frag_data s) with
      | None => None
      | Some ((p, frag), q) =>
          if decide (p = index s)
          then Some (Hls (_frag_urls s) q (fill s) (pc s) (workers s)
                         (index s + 1) (yielded s ++ [frag]) (log s))
          else Some (Hls (_frag_urls s) (pq_put data_item_leb (p, frag) q)
                         (fill s) (pc s) (workers s) (index s) (yielded s) (log s))
      end
  end.

(** A schedule is run step by step; a step that cannot be taken is
    skipped (the task stays where it is). *)
Definition exec (s : hls) (a : action) : hls := default s (step a s).

Definition run (acts : list action) (s : hls) : hls := foldl exec s acts.

End HLSDownloader.

(** ** AsyncMap: the rendezvous between the receive loop and a waiter *)

Module AsyncMap.

Section AsyncMap.
Context {V : Type}.

(** [_map] and the tasks suspended in [self._cond.wait()] inside [pop],
    each with the key it asked for, in the order in which they went to
    sleep. *)
Record amap : Type := AMap {
  _map : gmap Z V;
  waiting : list (nat * Z)
}.

Definition __init__ : amap := AMap ∅ [].

(** After [notify_all] the suspended tasks run one after the other: a task
    whose key is in the map returns [self._map.pop(key)], the others go
    back to [wait].  Returns the map, the tasks still waiting and the
    values returned, each with the task that got it. *)
Fixpoint wake (m : gmap Z V) (ws : list (nat * Z))
  : gmap Z V * list (nat * Z) * list (nat * V) :=
  match ws with
  | [] => (m, [], [])
  | (task, key) :: ws' =>
      match m !! key with
      | Some value =>
          let '(m', still, out) := wake (delete key m) ws' in
          (m', still, (task, value) :: out)
      | None =>
          let '(m', still, out) := wake m ws' in
          (m', (task, key) :: still, out)
      end
  end.

(** [put]: store the value and notify every waiting task. *)
Definition put (key : Z) (value : V) (st : amap) : amap * list (nat * V) :=
  let '(m, still, out) := wake (<[key := value]> (_map st)) (waiting st) in
  (AMap m still, out).

(** [pop] up to its first suspension: the task waits for a notification
    before it looks at the map. *)
Definition pop (task : nat) (key : Z) (st : amap) : amap :=
  AMap (_map st) (waiting st ++ [(task, key)]).

End AsyncMap.

Global Arguments amap V : clear implicits.

End AsyncMap.

(** ** The exceptions of FC2WebSocket *)

Module Disconnection.

(** The attribute [code] of a [ServerDisconnection]: set by [__init__], or
    the class attribute of the subclass. *)
Definition code (e : exn) : option Z :=
  match e with
  | ServerDisconnection c => Some c
  | PaidProgramDisconnection => Some 4101
  | LoginRequiredError => Some 4507
  | MultipleConnectionError => Some 4512
  | _ => None
  end.

(** [isinstance(e, ServerDisconnection)], the test of the [except] clause
    in [FC2LiveDL.download]. *)
Definition is_server_disconnection (e : exn) : bool :=
  match code e with
  | Some _ => true
  | None => false
  end.

(** [ServerDisconnection.__str__] *)
Definition __str__ (e : exn) : option string :=
  c ← code e; Some ("Server disconnected with code " +:+ pretty c).

End Disconnection.

(** ** File names *)

Module Outtmpl.

Local Open Scope string_scope.
Local Open Scope list_scope.

(** [s.replace(old, new)] for one-character [old] and [new]. *)
Fixpoint replace (old new : ascii) (s : string) : string :=
  match s with
  | EmptyString => EmptyString
  | String c s' => String (if decide (c = old) then new else c) (replace old new s')
  end.

(** The nine characters of the string that [sanitize_filename] iterates
    over, in the order of the loop; character 34 is the double quote. *)
Definition unsafe_chars : list ascii :=
  ["<"; ">"; ":"; ascii_of_N 34; "/"; "\"; "|"; "?"; "*"]%char.

Definition sanitize_filename (fname : string) : string :=
  foldl (λ fname c, replace c "_"%char fname) fname unsafe_chars.

(** [s.startswith('-')] *)
Definition starts_with_dash (s : string) : bool :=
  match s with
  | String c _ => bool_decide (c = "-"%char)
  | EmptyString => false
  end.

(** The three entries of the stream's metadata that file names use:
    [meta['channel_data']['channelid']], [meta['profile_data']['name']]
    and [meta['channel_data']['title']], as [str] gives them. *)
Record meta : Type := Meta { channelid : string; name : string; title : string }.

(** The dict given to [%]: the defaults, the sanitized names when there
    is metadata, and then the overrides.  [date] and [time] are the two
    clock readings as [strftime] formats them. *)
Definition finfo (date time : string) (m : option meta)
    (overrides : gmap string string) : gmap string string :=
  let finfo : gmap string string :=
    <["ext" := ""]> (<["title" := ""]> (<["time" := time]> (<["date" := date]>
      (<["channel_name" := ""]> (<["channel_id" := ""]> ∅))))) in
  let finfo :=
    match m with
    | Some m =>
        <["title" := sanitize_filename (title m)]>
          (<["channel_name" := sanitize_filename (name m)]>
             (<["channel_id" := sanitize_filename (channelid m)]> finfo))
    | None => finfo
    end in
  overrides ∪ finfo.

(** [n == 0] chooses [ext], otherwise ['{}.{}'.format(n, ext)]. *)
Definition extn (n : nat) (ext : string) : string :=
  match n with
  | O => ext
  | S _ => (pretty n +:+ "." +:+ ext)%string
  end.

Section Formatting.

(** [outtmpl % finfo]: the built-in formatting of a template with a dict,
    which returns a string or raises. *)
Variable percent : string → gmap string string → result string.

(** [self.params['outtmpl']] *)
Variable outtmpl : string.

Definition _format_outtmpl (date time : string) (m : option meta)
    (overrides : gmap string string) : result string :=
  formatted ← percent outtmpl (finfo date time m overrides);
  Ok (if starts_with_dash formatted then String "_"%char formatted
      else formatted).

(** [os.path.exists] *)
Variable path_exists : string → bool.

(** The clock readings of the [n]-th call of [_format_outtmpl]. *)
Variable clock : nat → string * string.

(** [get_unique_name] inside [_prepare_file]: the loop is entered with
    counter [n]; [None] when [fuel] iterations were not enough. *)
Fixpoint get_unique_name (fuel n : nat) (m : option meta) (ext : string)
  : option (result string) :=
  match fuel with
  | O => None
  | S fuel' =>
      match _format_outtmpl (clock n).1 (clock n).2 m
              {[ "ext" := extn n ext ]} with
      | Raise e => Some (Raise e)
      | Ok fname =>
          if path_exists fname then get_unique_name fuel' (S n) m ext
          else Some (Ok fname)
      end
  end.

End Formatting.

End Outtmpl.

(** ** FFMpeg: the status line *)

Module FFMpeg.

Local Open Scope string_scope.
Local Open Scope list_scope.

(** The values of the [stats] dict: the integer defaults and strings. *)
Inductive value : Type :=
| VInt (n : Z)
| VStr (s : string).

(** [s.split(sep)] for a one-character [sep]: the text before the first
    [sep], and the pieces after it. *)
Fixpoint split_first (sep : ascii) (s : string) : string * list string :=
  match s with
  | EmptyString => (EmptyString, [])
  | String c s' =>
      let '(l, ls) := split_first sep s' in
      if decide (c = sep) then (EmptyString, l :: ls) else (String c l, ls)
  end.

Definition split (sep : ascii) (s : string) : list string :=
  let '(l, ls) := split_first sep s in l :: ls.

(** [c in s] *)
Fixpoint contains (c : ascii) (s : string) : bool :=
  match s with
  | EmptyString => false
  | String c' s' => if decide (c' = c) then true else contains c s'
  end.

(** [s[-1]], which raises [IndexError] on the empty string. *)
Fixpoint last_char (s : string) : option ascii :=
  match s with
  | EmptyString => None
  | String c EmptyString => Some c
  | String _ s' => last_char s'
  end.

(** [s[:-1]] *)
Fixpoint but_last (s : string) : string :=
  match s with
  | EmptyString => EmptyString
  | String _ EmptyString => EmptyString
  | String c s' => String c (but_last s')
  end.

Definition stats0 : gmap string value :=
  <["speed" := VStr "N/A"]> (<["bitrate" := VStr "N/A"]>
    (<["time" := VStr "00:00:00.00"]> (<["size" := VStr "0kB"]>
      (<["q" := VInt 0]> (<["fps" := VInt 0]> (<["frame" := VInt 0]> ∅)))))).

(** [[x for x in stderr.split(' ') if len(x) > 0]] *)
Definition parts (stderr : string) : list string :=
  filter (λ x, x ≠ "") (split " " stderr).

(** One iteration of the loop over [parts], on [stats] and [last_item]. *)
Definition step (st : gmap string value * string) (item : string)
  : result (gmap string value * string) :=
  let '(stats, last_item) := st in
  match last_char last_item with
  | None => Raise IndexError
  | Some c =>
      if decide (c = "="%char) then
        Ok (<[but_last last_item := VStr item]> stats, item)
      else if contains "=" item then
        match split "=" item with
        | [k; v] => Ok (<[k := VStr v]> stats, item)
        | _ => Raise ValueError
        end
      else Ok (stats, item)
  end.

Fixpoint scan (st : gmap string value * string) (items : list string)
  : result (gmap string value) :=
  match items with
  | [] => Ok st.1
  | item :: items' => st' ← step st item; scan st' items'
  end.

Definition carriage_return : ascii := ascii_of_N 13.

(** The exceptions of [readuntil] and of [decode]. *)
Inductive read_error : Type :=
| IncompleteReadError
| LimitOverrunError
| UnicodeDecodeError.

(** How [(await self._ffmpeg.stderr.readuntil(b'\r')).decode('utf-8')]
    ends: with the text up to the first carriage return, which
    [readuntil] leaves at the end of what it returns, or with an
    exception of one of the two calls (the stream ends before a carriage
    return, the separator is not found within the limit of the reader,
    the bytes are not UTF-8). *)
Inductive read_outcome : Type :=
| ReadLine (line : string)
| ReadFails (e : read_error).

(** How [get_status] ends. *)
Inductive status_outcome : Type :=
| Status (stats : gmap string value)
| Raises (e : exn)
| ReadRaises (e : read_error).

Definition get_status (r : read_outcome) : status_outcome :=
  match r with
  | ReadFails e => ReadRaises e
  | ReadLine line =>
      let stderr := line +:+ String carriage_return "" in
      match scan (stats0, "-") (parts stderr) with
      | Ok stats => Status stats
      | Raise e => Raises e
      end
  end.

(** [print_status]: the two values it logs, and [True] when nothing was
    raised; the bare [except:] turns every exception into [False]. *)
Definition print_status (r : read_outcome) : bool * option (value * value) :=
  match get_status r with
  | Status stats =>
      match stats !! "time", stats !! "size" with
      | Some t, Some z => (true, Some (t, z))
      | _, _ => (false, None)
      end
  | _ => (false, None)
  end.

End FFMpeg.

(** ** FC2LiveStream: the cached metadata *)

Module FC2LiveStream.

(** The entry of the metadata that the class tests:
    [meta['channel_data']['is_publish']], and the rest of the reply. *)
Record meta : Type := Meta { is_publish : Z; payload : string }.

(** [self._meta], the number of requests sent to memberApi.php, and the
    seconds slept in [wait_for_online]. *)
Record live : Type := Live { _meta : option meta; requests : nat; slept : nat }.

Definition __init__ : live := Live None 0 0.

(** The poll interval that [FC2LiveDL.download] passes on,
    [self.params['wait_poll_interval']]: the [int] of the default
    parameters, or the [float] that the option [--poll-interval]
    produces. *)
Inductive number : Type :=
| PyInt (n : Z)
| PyFloat (q : Q).

(** A call returns, or raises [NotOnlineException], or raises the
    [TypeError] of [range] on a [float]. *)
Inductive outcome (A : Type) : Type :=
| Returned (a : A)
| NotOnlineException
| RangeTypeError.
Global Arguments Returned {A} a.
Global Arguments NotOnlineException {A}.
Global Arguments RangeTypeError {A}.

Section Server.

(** [server n] is the [data] of the reply to request number [n]; every
    request is answered. *)
Variable server : nat → meta.

Definition get_meta (refetch : bool) (s : live) : meta * live :=
  match _meta s with
  | Some m =>
      if negb refetch then (m, s)
      else (server (requests s),
            Live (Some (server (requests s))) (S (requests s)) (slept s))
  | None =>
      (server (requests s),
       Live (Some (server (requests s))) (S (requests s)) (slept s))
  end.

Definition is_online (refetch : bool) (s : live) : bool * live :=
  let '(m, s') := get_meta refetch s in (0 <? is_publish m, s').

(** [for _ in range(interval): ...; await asyncio.sleep(1)]: [range]
    raises [TypeError] on a [float]; on an [int] the body runs that many
    times, not at all for a negative one. *)
Definition sleep_rounds (interval : number) (s : live) : outcome live :=
  match interval with
  | PyFloat _ => RangeTypeError
  | PyInt n => Returned (Live (_meta s) (requests s) (slept s + Z.to_nat n))
  end.

(** [wait_for_online]: one request per round of the [while] loop;
    [None] when [fuel] rounds were not enough. *)
Fixpoint wait_for_online (interval : number) (fuel : nat) (s : live)
  : option (outcome unit * live) :=
  match fuel with
  | O => None
  | S fuel' =>
      let '(online, s') := is_online true s in
      if online then Some (Returned (), s')
      else
        match sleep_rounds interval s' with
        | Returned s'' => wait_for_online interval fuel' s''
        | NotOnlineException => Some (NotOnlineException, s')
        | RangeTypeError => Some (RangeTypeError, s')
        end
  end.

(** [get_websocket_url] up to its online test; it goes on with [meta]. *)
Definition get_websocket_url (s : live) : outcome meta * live :=
  let '(m, s1) := get_meta false s in
  let '(online, s2) := is_online false s1 in
  if online then (Returned m, s2) else (NotOnlineException, s2).

(** The use [FC2LiveDL.download] makes of the class: the first online
    test, the wait if [wait_for_live] is set, [get_meta(refetch=False)]
    for the file names, and [get_websocket_url].  Returns the two
    metadata values read. *)
Definition download (wait_for_live : bool) (wait_poll_interval : number)
    (fuel : nat) (s : live) : option (outcome (meta * meta) * live) :=
  let '(online, s1) := is_online true s in
  waited ←
    (if online then Some (Returned (), s1)
     else if negb wait_for_live then Some (NotOnlineException, s1)
     else wait_for_online wait_poll_interval fuel s1);
  match waited with
  | (NotOnlineException, s2) => Some (NotOnlineException, s2)
  | (RangeTypeError, s2) => Some (RangeTypeError, s2)
  | (Returned _, s2) =>
      let '(m, s3) := get_meta false s2 in
      match get_websocket_url s3 with
      | (Returned m', s4) => Some (Returned (m, m'), s4)
      | (NotOnlineException, s4) => Some (NotOnlineException, s4)
      | (RangeTypeError, s4) => Some (RangeTypeError, s4)
      end
  end.

End Server.

End FC2LiveStream.

(** * Vocabulary of the statements *)

Module PlaylistSpec.

Import FC2LiveDL.

(** The ranking C5 asks of a sorted list: an entry with mode at least 90
    never stands before an entry with a smaller mode. *)
Definition audio_last (l : list playlist) : Prop :=
  ∀ (i j : nat) p q, (i < j)%nat → l !! i = Some p → l !! j = Some q →
    ¬ (90 ≤ mode p ∧ mode q < 90).

(** Within the audio entries, and within the others, modes decrease. *)
Definition groups_descending (l : list playlist) : Prop :=
  ∀ (i j : nat) p q, (i < j)%nat → l !! i = Some p → l !! j = Some q →
    (90 ≤ mode p ↔ 90 ≤ mode q) → mode q ≤ mode p.

(** What makes the key of every audio entry smaller than the key of every
    other entry. *)
Definition audio_keys_below (l : list playlist) : Prop :=
  ∀ a v, a ∈ l → v ∈ l → 90 ≤ mode a → mode v < 90 → mode a - 90 < mode v.

(** The modes that the two tables can produce. *)
Definition table_mode (m : Z) : Prop :=
  ∃ q l, q ∈ STREAM_QUALITY.*2 ∧ l ∈ STREAM_LATENCY.*2 ∧ m = q + l.

End PlaylistSpec.

Module WebSocketSpec.

Import FC2LiveDL FC2WebSocket.

(** The clock does not run backwards while [_try_heartbeat] sends. *)
Definition clock_forward (ev : event) : Prop :=
  match ev with
  | Received _ t_check t_done => (t_check <= t_done)%Q
  | _ => True
  end.

(** Consecutive times are at least [heartbeat_interval] apart. *)
Definition spaced (ts : list time) : Prop :=
  ∀ (k : nat) t1 t2, ts !! k = Some t1 → ts !! S k = Some t2 →
    (t1 + heartbeat_interval <= t2)%Q.

(** An attempt that makes the loop go round again: the wait timed out, or
    the response has no [playlists] key. *)
Definition attempt_fails (o : wait_outcome) : Prop :=
  o = TimedOut
  ∨ ∃ r, o = Responded r ∧ resp_arguments r !! "playlists" = None.

(** The receive loop handles each of these events and goes on (a call of
    [_send_message] by another task among them does not concern it). *)
Definition loop_goes_on (evs : list event) : Prop :=
  Forall (λ ev, ∀ st, ∃ r, step ev st = Ok r) evs.

(** The event ends the receive loop with the exception [e]. *)
Definition ends_with (ev : event) (e : exn) : Prop :=
  ∀ st, step ev st = Raise e.

(** An attempt after which the loop of [get_hls_information] goes round
    again, the receive loop still running. *)
Definition attempt_retries (a : attempt) : Prop :=
  loop_goes_on (during_wait a) ∧ attempt_fails (outcome a)
  ∧ loop_goes_on (during_sleep a).

(** The wait of the attempt ends with the response [r]. *)
Definition attempt_brings (a : attempt) (r : response) : Prop :=
  loop_goes_on (during_wait a) ∧ outcome a = Responded r.

(** The receive loop ends with [e] during the wait of the attempt: at one
    of the events of the wait, or for a reason that is none of them. *)
Definition loop_ends_in (a : attempt) (e : exn) : Prop :=
  (∃ pre ev post, during_wait a = pre ++ ev :: post
                  ∧ loop_goes_on pre ∧ ends_with ev e)
  ∨ (loop_goes_on (during_wait a) ∧ outcome a = MainLoopEnded e).

(** The ids of the messages on the wire follow one another from the id
    after [n], and [_msg_id] is the last of them. *)
Definition ids_follow (n : Z) (s : hls_loop) : Prop :=
  id <$> wire s = seqZ (n + 1) (Z.of_nat (length (wire s)))
  ∧ _msg_id (conn s) = n + Z.of_nat (length (wire s)).

(** The events of a session that are calls of [_send_message] by other
    tasks. *)
Fixpoint requests (evs : list event) : list event :=
  match evs with
  | [] => []
  | Request nm args :: evs' => Request nm args :: requests evs'
  | _ :: evs' => requests evs'
  end.

End WebSocketSpec.

Module TextSpec.

Local Open Scope string_scope.

(** ["\\n".join(lines)] *)
Fixpoint join_newline (lines : list string) : string :=
  match lines with
  | [] => ""
  | l :: rest =>
      match rest with
      | [] => l
      | _ :: _ => l ++ String newline (join_newline rest)
      end
  end.

Fixpoint no_newline (s : string) : Prop :=
  match s with
  | EmptyString => True
  | String c s' => c ≠ newline ∧ no_newline s'
  end.

Fixpoint all_space (s : string) : Prop :=
  match s with
  | EmptyString => True
  | String c s' => isspace c = true ∧ all_space s'
  end.

(** The first and the last character of a string. *)
Definition first_char (s : string) : option ascii :=
  match s with
  | EmptyString => None
  | String c _ => Some c
  end.

Fixpoint last_char (s : string) : option ascii :=
  match s with
  | EmptyString => None
  | String c s' =>
      match last_char s' with
      | None => Some c
      | Some d => Some d
      end
  end.

(** A line that is neither empty nor a [#] line. *)
Definition fragment_line (l : string) : Prop :=
  l ≠ "" ∧ first_char l ≠ Some hash.

#[global] Instance fragment_line_dec l : Decision (fragment_line l).
Proof. unfold fragment_line. apply _. Defined.

End TextSpec.

Module DownloaderSpec.

Import HLSDownloader.

Local Open Scope string_scope.
Local Open Scope list_scope.
Local Open Scope Z_scope.

(** One turn of a worker's loop for each response: take the head of the
    URL queue, receive the response, enqueue. *)
Definition worker_rounds (wid : nat) (rs : list (Z * bytes)) : list action :=
  rs ≫= λ r, [WorkerGet wid; WorkerFetched wid (HttpResponse r.1 r.2);
              WorkerPut wid].

(** C3 as stated: once the GET of a fragment has returned an error status
    [n] times, the empty payload for its sequence number is in the data
    queue. *)
Definition substituted_after (n : nat) : Prop :=
  ∀ s wid i url rs,
    workers s !! wid = Some Idle → _frag_urls s = [(i, (url, 0))] →
    _frag_data s = [] →
    Forall (λ r : Z * bytes, 299 < r.1) rs → length rs = n →
    _frag_data (run (worker_rounds wid rs) s) = [(i, [])].

Definition worker_above (k : Z) (w : worker) : Prop :=
  match w with
  | Fetching i _ _ => k < i
  | PutUrl item => k < item.1
  | PutData item => k < item.1
  | Idle | Cancelled => True
  end.

(** Sequence number [k] has been given out and is the one the consumer
    waits for, but no queue and no worker holds it. *)
Definition lost (k : Z) (s : hls) : Prop :=
  index s = k
  ∧ k < frag_idx (fill s)
  ∧ Forall (λ item, k < item.1) (_frag_urls s)
  ∧ Forall (λ item, k < item.1) (_frag_data s)
  ∧ Forall (worker_above k) (workers s).

(** The schedule of the failing session: the playlist advertises [a.ts]
    and [b.ts]; the poller enqueues them as sequences 0 and 1; the only
    worker gets an exception on [a.ts] and a 200 on [b.ts]. *)
Definition transport_error_session : list action :=
  [PollPlaylist (HttpResponse 200 ("a.ts" ++ String newline "b.ts")%string) 1%Q;
   PollerPut; PollerPut;
   WorkerGet 0; WorkerFetched 0 (HttpFailure "reset");
   WorkerGet 0; WorkerFetched 0 (HttpResponse 200 [Byte.x42]); WorkerPut 0].

End DownloaderSpec.

Module PipelineSpec.

Import HLSDownloader.

Local Open Scope Z_scope.

(** The sequence number a worker task holds between its [get] and its
    [put]. *)
Definition worker_key (w : worker) : option Z :=
  match w with
  | Fetching i _ _ => Some i
  | PutUrl item => Some item.1
  | PutData item => Some item.1
  | Idle | Cancelled => None
  end.

(** How many items of a queue carry the sequence number [k], and how many
    workers hold it. *)
Definition count_key {A} (k : Z) (q : list (Z * A)) : nat :=
  length (filter (λ item, item.1 = k) q).

Definition count_worker (k : Z) (ws : list worker) : nat :=
  length (filter (λ w, worker_key w = Some k) ws).

(** In how many places of the downloader the sequence number [k] is. *)
Definition held (k : Z) (s : hls) : nat :=
  (count_key k (_frag_urls s) + count_key k (_frag_data s)
   + count_worker k (workers s))%nat.

(** A queue in strictly increasing order of sequence numbers. *)
Definition key_sorted {A} (q : list (Z * A)) : Prop :=
  StronglySorted (λ a b, a.1 < b.1) q.

(** What every state of a download satisfies. *)
Definition pipeline_inv (s : hls) : Prop :=
  index s ≤ frag_idx (fill s)
  ∧ (∀ k, (held k s ≤ 1)%nat)
  ∧ (∀ k, (0 < held k s)%nat → index s ≤ k < frag_idx (fill s))
  ∧ key_sorted (_frag_urls s) ∧ key_sorted (_frag_data s)
  ∧ (length (_frag_urls s) ≤ maxsize)%nat
  ∧ (length (_frag_data s) ≤ maxsize)%nat
  ∧ (pc s = Returned → Forall (λ w, w = Cancelled) (workers s)).

(** The items the poller enqueues for the fragments [frags], numbered
    from [n]. *)
Definition numbered (n : Z) (frags : list string) : list url_item :=
  imap (λ j frag, (n + Z.of_nat j, (frag, 0))) frags.

(** The schedule in which one worker fetches the fragments one after the
    other and the consumer reads each payload as soon as it is there. *)
Definition sequential (wid : nat) (bodies : list (Z * bytes)) : list action :=
  bodies ≫= λ r, [PollerPut; WorkerGet wid;
                  WorkerFetched wid (HttpResponse r.1 r.2); WorkerPut wid; Read].

End PipelineSpec.

Module ChannelSpec.

Import FC2LiveDL FC2WebSocket.

(** The comments a frame carries. *)
Definition frame_comments (ev : event) : list string :=
  match ev with
  | Received (comment cs) _ _ => cs
  | _ => []
  end.

(** The events at which the receive loop ends. *)
Definition stops (ev : event) : bool :=
  match ev with
  | Received (control_disconnection _) _ _ => true
  | ReceiveTimedOut => true
  | _ => false
  end.

(** The events of a session up to the one that ends the receive loop. *)
Fixpoint until_stop (evs : list event) : list event :=
  match evs with
  | [] => []
  | ev :: evs' => if stops ev then [] else ev :: until_stop evs'
  end.

(** The messages that [get_hls_information] sends. *)
Definition is_hls_request (m : out_msg) : Prop :=
  name m = "get_hls_information"%string.

Global Instance is_hls_request_dec m : Decision (is_hls_request m).
Proof. unfold is_hls_request. apply _. Defined.

End ChannelSpec.

Module SessionSpec.

Import FC2LiveDL FC2WebSocket WebSocketSpec.


End SessionSpec.

Module AsyncMapSpec.

(** [task] is the task that has waited longest for [key]. *)
Definition first_waiter (task : nat) (key : Z) (ws : list (nat * Z)) : Prop :=
  ∃ pre post, ws = pre ++ (task, key) :: post ∧ Forall (λ w, w.2 ≠ key) pre.

(** The number of tasks waiting for [key]. *)
Definition waiters (key : Z) (ws : list (nat * Z)) : nat :=
  length (filter (λ w, w.2 = key) ws).

End AsyncMapSpec.

Module OuttmplSpec.

Import Outtmpl.

(** A string with every character replaced through [f]. *)
Fixpoint map_chars (f : ascii → ascii) (s : string) : string :=
  match s with
  | EmptyString => EmptyString
  | String c s' => String (f c) (map_chars f s')
  end.

(** The name [get_unique_name] tries in its iteration number [n]. *)
Definition candidate (percent : string → gmap string string → result string)
    (outtmpl : string) (clock : nat → string * string) (m : option meta)
    (ext : string) (n : nat) : result string :=
  _format_outtmpl percent outtmpl (clock n).1 (clock n).2 m
    {[ "ext" := extn n ext ]}.

(** A template whose expansion does not depend on [ext]. *)
Definition ignores_ext (percent : string → gmap string string → result string)
    (outtmpl : string) : Prop :=
  ∀ (d : gmap string string) e, percent outtmpl (<["ext" := e]> d)
                                = percent outtmpl d.

(** What [sanitize_filename] makes of one character. *)
Definition safe_char (c : ascii) : ascii :=
  if decide (c ∈ unsafe_chars) then "_"%char else c.

(** Two ways [%] can expand a template, used as examples: the template
    followed by the value of [ext], and a template without fields. *)
Definition append_ext (tmpl : string) (d : gmap string string) : result string :=
  Ok (tmpl +:+ default "" (d !! "ext"))%string.

Definition literal (tmpl : string) (d : gmap string string) : result string :=
  Ok tmpl.

End OuttmplSpec.

(** * Properties *)

(** ** [sorted(..., reverse=True, key=...)] *)

Module SortFacts.

Section Sorting.
Context {A : Type} (key : A → Z).

Lemma insert_desc_perm x l : insert_desc key x l ≡ₚ x :: l.
Proof.
  induction l as [|y l IH]; simpl; [done|].
  destruct (key x <? key y); [|done].
  rewrite IH. apply Permutation_swap.
Qed.

Lemma sorted_reverse_perm l : sorted_reverse key l ≡ₚ l.
Proof.
  induction l as [|x l IH]; simpl; [done|].
  rewrite insert_desc_perm. by f_equiv.
Qed.

Lemma insert_desc_sorted x l :
  StronglySorted (before key) l → StronglySorted (before key) (insert_desc key x l).
Proof.
  induction 1 as [|y l Hl IH Hy]; simpl.
  - repeat constructor.
  - destruct (Z.ltb_spec (key x) (key y)) as [Hlt|Hge].
    + constructor; [done|].
      rewrite insert_desc_perm. constructor; [unfold before; lia | done].
    + constructor; [by constructor|].
      constructor; [done|].
      eapply Forall_impl; [exact Hy|]. unfold before. intros; lia.
Qed.

Lemma sorted_reverse_sorted l : StronglySorted (before key) (sorted_reverse key l).
Proof.
  induction l; simpl; [constructor | by apply insert_desc_sorted].
Qed.

Lemma sorted_lookup (l : list A) (i j : nat) a b :
  StronglySorted (before key) l → (i < j)%nat →
  l !! i = Some a → l !! j = Some b → key b ≤ key a.
Proof.
  intros Hs. revert i j. induction Hs as [|x l Hl IH Hx]; intros i j Hij Hi Hj.
  - done.
  - destruct i as [|i], j as [|j]; simpl in *; try lia.
    + injection Hi as ->. eapply Forall_lookup_1 in Hx; [exact Hx | exact Hj].
    + eapply IH; [|exact Hi|exact Hj]. lia.
Qed.

(** Stability: entries with the same key keep their original order. *)
Lemma insert_desc_filter k x l :
  StronglySorted (before key) l →
  filter (λ y, key y = k) (insert_desc key x l)
  = filter (λ y, key y = k) (x :: l).
Proof.
  induction 1 as [|y l Hl IH Hy]; simpl; [done|].
  destruct (Z.ltb_spec (key x) (key y)) as [Hlt|Hge]; [|done].
  rewrite (filter_cons _ y), IH, !filter_cons.
  repeat case_decide; try done; lia.
Qed.

Lemma sorted_reverse_stable k l :
  filter (λ y, key y = k) (sorted_reverse key l) = filter (λ y, key y = k) l.
Proof.
  induction l as [|x l IH]; simpl; [done|].
  rewrite insert_desc_filter by apply sorted_reverse_sorted.
  by rewrite !filter_cons, IH.
Qed.

End Sorting.

End SortFacts.

(** ** Playlist selection *)

Module PlaylistFacts.

Import FC2LiveDL PlaylistSpec SortFacts.

Local Open Scope string_scope.
Local Open Scope list_scope.
Local Open Scope Z_scope.

Lemma find_mode_snoc l p m :
  find_mode (l ++ [p]) m = if decide (mode p = m) then Some p else find_mode l m.
Proof. unfold find_mode. by rewrite foldl_snoc. Qed.

Lemma find_mode_Some l m p : find_mode l m = Some p → p ∈ l ∧ mode p = m.
Proof.
  induction l as [|q l IH] using rev_ind; [done|].
  rewrite find_mode_snoc. case_decide as Hq.
  - intros [= ->]. split; [|done]. apply elem_of_app. right. constructor.
  - intros Hf. destruct (IH Hf). split; [|done]. apply elem_of_app. by left.
Qed.

Lemma find_mode_None l m : find_mode l m = None ↔ Forall (λ p, mode p ≠ m) l.
Proof.
  induction l as [|q l IH] using rev_ind; [by split; [constructor|]|].
  rewrite find_mode_snoc, Forall_app, Forall_singleton.
  case_decide; [|tauto]. split; [done | tauto].
Qed.

Lemma find_mode_is_Some l m p : p ∈ l → mode p = m → is_Some (find_mode l m).
Proof.
  intros Hp Hm. destruct (find_mode l m) eqn:Hf; [by eexists|].
  apply find_mode_None in Hf. rewrite Forall_forall in Hf. by destruct (Hf p Hp).
Qed.

Lemma merge_playlists_app (info : hls_info) :
  _merge_playlists info
  = default [] (info !! "playlists")
    ++ default [] (info !! "playlists_high_latency")
    ++ default [] (info !! "playlists_middle_latency").
Proof.
  unfold _merge_playlists. simpl.
  destruct (info !! "playlists"), (info !! "playlists_high_latency"),
    (info !! "playlists_middle_latency"); simpl;
    by rewrite ?app_nil_r, <- ?app_assoc.
Qed.

Lemma sort_playlists_perm l : _sort_playlists l ≡ₚ l.
Proof. apply sorted_reverse_perm. Qed.

Lemma sort_playlists_sorted l : StronglySorted (before key_map) (_sort_playlists l).
Proof. apply sorted_reverse_sorted. Qed.

(** A mode computed from the two tables is one that [_format_mode] names. *)
Lemma get_mode_formats cfg m :
  _get_mode cfg = Ok m → _format_mode m = Ok (quality cfg, latency cfg).
Proof.
  destruct cfg as [q l]. unfold _get_mode. simpl.
  repeat match goal with
         | |- context [decide (?k = q)] => destruct (decide (k = q)) as [<-|?]
         end;
    repeat match goal with
           | |- context [decide (?k = l)] => destruct (decide (k = l)) as [<-|?]
           end;
    intros H; vm_compute in H; try discriminate;
    injection H as <-; reflexivity.
Qed.

(** An exact match is returned, without a warning. *)
Lemma get_hls_url_exact cfg info m p :
  _get_mode cfg = Ok m → p ∈ _merge_playlists info → mode p = m →
  ∃ p', p' ∈ _merge_playlists info ∧ mode p' = m
        ∧ _get_hls_url cfg info = (Ok (url p'), []).
Proof.
  intros Hm Hp Hpm. unfold _get_hls_url, _get_playlist_or_best. rewrite Hm.
  destruct (find_mode_is_Some (_sort_playlists (_merge_playlists info)) m p)
    as [p' Hp']; [by rewrite sort_playlists_perm | done |].
  rewrite Hp'. apply find_mode_Some in Hp' as [Hin Hmode].
  rewrite sort_playlists_perm in Hin. by exists p'.
Qed.

(** Without a match the head of the sorted list is returned with two
    warnings, provided [_format_mode] can name its mode. *)
Lemma get_hls_url_fallback cfg info m best names :
  _get_mode cfg = Ok m →
  Forall (λ p, mode p ≠ m) (_merge_playlists info) →
  _sort_playlists (_merge_playlists info) !! 0%nat = Some best →
  _format_mode (mode best) = Ok names →
  _get_hls_url cfg info
  = (Ok (url best),
     [WarnNotAvailable (quality cfg, latency cfg); WarnFallingBack names]).
Proof.
  intros Hm Hno Hbest Hfmt. unfold _get_hls_url, _get_playlist_or_best.
  rewrite Hm.
  assert (find_mode (_sort_playlists (_merge_playlists info)) m = None) as ->.
  { apply find_mode_None. by rewrite sort_playlists_perm. }
  by rewrite Hbest, (get_mode_formats _ _ Hm), Hfmt.
Qed.

(** C4 at the input quality [3Mbps], latency [mid] and
    [{'playlists': [{'url': 'A', 'mode': 60}]}]: no entry has mode 52, the
    top-ranked entry is the one with url [A], and yet no url is chosen:
    building the second warning calls [_format_mode 60], which raises
    [ValueError] because 60 is not a value of [STREAM_QUALITY]. *)
Theorem get_hls_url_fallback_raises :
  let info : hls_info := {[ "playlists" := [Playlist "A" 60] ]} in
  let cfg := Params "3Mbps" "mid" in
  _get_mode cfg = Ok 52
  ∧ Forall (λ p, mode p ≠ 52) (_merge_playlists info)
  ∧ _sort_playlists (_merge_playlists info) !! 0%nat = Some (Playlist "A" 60)
  ∧ _get_hls_url cfg info
    = (Raise ValueError, [WarnNotAvailable ("3Mbps", "mid")]).
Proof.
  repeat split.
  vm_compute. repeat constructor; discriminate.
Qed.

Lemma table_mode_bounds m : table_mode m → 10 ≤ m ≤ 52 ∨ 90 ≤ m ≤ 92.
Proof.
  intros (q & l & Hq & Hl & ->). simpl in Hq, Hl.
  repeat (apply elem_of_cons in Hq as [->|Hq]);
    try (by apply elem_of_nil in Hq);
    repeat (apply elem_of_cons in Hl as [->|Hl]);
    try (by apply elem_of_nil in Hl); lia.
Qed.

Lemma table_modes_audio_keys_below l :
  Forall (λ p, table_mode (mode p)) l → audio_keys_below l.
Proof.
  rewrite Forall_forall. intros Hl a v Ha Hv Ha90 Hv90.
  apply Hl, table_mode_bounds in Ha. apply Hl, table_mode_bounds in Hv. lia.
Qed.

(** C5 as stated fails: an entry of mode 150 has key 60 and is ranked
    above a video entry of mode 50. *)
Lemma audio_last_counterexample :
  _sort_playlists [Playlist "A" 50; Playlist "B" 150]
  = [Playlist "B" 150; Playlist "A" 50]
  ∧ ¬ audio_last (_sort_playlists [Playlist "A" 50; Playlist "B" 150]).
Proof.
  split; [reflexivity|].
  intros H.
  apply (H 0%nat 1%nat (Playlist "B" 150) (Playlist "A" 50));
    [lia | reflexivity | reflexivity | simpl; lia].
Qed.

(** C5, amended: for every list, [_sort_playlists] permutes its argument
    and orders by descending mode within the audio entries and within the
    others; and when every audio entry's mode minus 90 is below every
    other entry's mode, as it is for the modes built from the two tables,
    every audio entry is ranked below every other entry. *)
Theorem sort_playlists_ranking (l : list playlist) :
  _sort_playlists l ≡ₚ l
  ∧ groups_descending (_sort_playlists l)
  ∧ (audio_keys_below l → audio_last (_sort_playlists l))
  ∧ (Forall (λ p, table_mode (mode p)) l → audio_keys_below l).
Proof.
  split; [apply sort_playlists_perm|].
  pose proof (sort_playlists_sorted l) as Hs.
  split; [|split].
  - intros i j p q Hij Hp Hq Hgroup.
    pose proof (sorted_lookup key_map _ i j p q Hs Hij Hp Hq) as Hle.
    unfold key_map in Hle.
    destruct (Z.leb_spec 90 (mode p)), (Z.leb_spec 90 (mode q)); lia.
  - intros Hkeys i j p q Hij Hp Hq [Hp90 Hq90].
    pose proof (sorted_lookup key_map _ i j p q Hs Hij Hp Hq) as Hle.
    unfold key_map in Hle.
    assert (p ∈ l) as Hpl.
    { rewrite <- (sort_playlists_perm l). by eapply list_elem_of_lookup_2. }
    assert (q ∈ l) as Hql.
    { rewrite <- (sort_playlists_perm l). by eapply list_elem_of_lookup_2. }
    specialize (Hkeys p q Hpl Hql Hp90 Hq90).
    destruct (Z.leb_spec 90 (mode p)), (Z.leb_spec 90 (mode q)); lia.
  - apply table_modes_audio_keys_below.
Qed.

Lemma sort_playlists_ranking_witness :
  let l := [Playlist "C" 90; Playlist "A" 52; Playlist "E" 92; Playlist "B" 10] in
  Forall (λ p, table_mode (mode p)) l
  ∧ audio_keys_below l
  ∧ _sort_playlists l ≡ₚ l
  ∧ groups_descending (_sort_playlists l)
  ∧ audio_last (_sort_playlists l).
Proof.
  intros l.
  assert (Forall (λ p, table_mode (mode p)) l) as H.
  { unfold l. repeat constructor; simpl.
    - exists 90, 0. set_solver.
    - exists 50, 2. set_solver.
    - exists 90, 2. set_solver.
    - exists 10, 0. set_solver. }
  split; [exact H|].
  split; [exact (proj2 (proj2 (proj2 (sort_playlists_ranking l))) H)|].
  split; [exact (proj1 (sort_playlists_ranking l))|].
  split; [exact (proj1 (proj2 (sort_playlists_ranking l)))|].
  exact (proj1 (proj2 (proj2 (sort_playlists_ranking l)))
           (proj2 (proj2 (proj2 (sort_playlists_ranking l))) H)).
Defined.

End PlaylistFacts.

(** ** The control channel *)

Module WebSocketFacts.

Import FC2LiveDL FC2WebSocket WebSocketSpec.

Local Open Scope string_scope.
Local Open Scope list_scope.
Local Open Scope Z_scope.

(** *** Message ids *)

Lemma try_heartbeat_ids tc td st st' sent :
  _try_heartbeat tc td st = (st', sent) →
  id <$> sent = seqZ (_msg_id st + 1) (Z.of_nat (length sent))
  ∧ _msg_id st' = _msg_id st + Z.of_nat (length sent).
Proof.
  unfold _try_heartbeat.
  destruct (Qlt_le_dec _ _); intros [= <- <-]; simpl; split; try lia; try done.
Qed.

Lemma handle_frame_msg_id f st st' :
  handle_frame f st = Ok st' →
  _msg_id st' = _msg_id st ∧ _last_heartbeat st' = _last_heartbeat st.
Proof.
  destruct f; simpl; try (by intros [= <-]).
  repeat case_decide; discriminate.
Qed.

Lemma step_ids ev st st' sent :
  step ev st = Ok (st', sent) →
  id <$> sent = seqZ (_msg_id st + 1) (Z.of_nat (length sent))
  ∧ _msg_id st' = _msg_id st + Z.of_nat (length sent).
Proof.
  destruct ev as [f tc td| |nm args]; simpl.
  - unfold _main_loop_iteration.
    destruct (handle_frame f st) as [st1|] eqn:Hf; simpl; [|done].
    apply handle_frame_msg_id in Hf as [<- _].
    destruct (_try_heartbeat tc td st1) as [st2 sent2] eqn:Hh.
    intros [= <- <-]. by apply try_heartbeat_ids in Hh.
  - done.
  - intros [= <- <-]. simpl. split; [done | lia].
Qed.

Lemma session_cons ev evs c :
  session (ev :: evs) c
  = ((session evs (session_step ev c).1).1,
     (session_step ev c).2 ++ (session evs (session_step ev c).1).2).
Proof.
  simpl. destruct (session_step ev c) as [c' sent]. cbn [fst snd].
  by destruct (session evs c') as [c'' sent'].
Qed.

Lemma session_step_alive ev st :
  session_step ev (st, None)
  = match step ev st with
    | Ok (st', sent) => (st', None, sent)
    | Raise e => (st, Some e, [])
    end.
Proof. by destruct ev. Qed.

Lemma session_step_ids ev c :
  id <$> (session_step ev c).2
  = seqZ (_msg_id c.1 + 1) (Z.of_nat (length (session_step ev c).2))
  ∧ _msg_id (session_step ev c).1.1
    = _msg_id c.1 + Z.of_nat (length (session_step ev c).2).
Proof.
  destruct c as [st [e|]].
  - destruct ev as [f tc td| |nm args]; simpl; (split; [done | lia]).
  - rewrite session_step_alive.
    destruct (step ev st) as [[st' sent]|e] eqn:Hstep; simpl.
    + by apply step_ids in Hstep.
    + split; [done | lia].
Qed.

Lemma session_ids evs c :
  id <$> (session evs c).2
  = seqZ (_msg_id c.1 + 1) (Z.of_nat (length (session evs c).2))
  ∧ _msg_id (session evs c).1.1
    = _msg_id c.1 + Z.of_nat (length (session evs c).2).
Proof.
  revert c. induction evs as [|ev evs IH]; intros c.
  - simpl. split; [done | lia].
  - rewrite session_cons. cbn [fst snd].
    destruct (session_step_ids ev c) as [Hsent Hid].
    destruct (IH (session_step ev c).1) as [IH1 IH2].
    rewrite fmap_app, length_app, Nat2Z.inj_add.
    rewrite seqZ_app by lia.
    rewrite Hsent, IH1, IH2, Hid. split; [|lia].
    do 2 f_equal. lia.
Qed.

Lemma run_session evs st :
  run evs st = ((session evs (st, None)).1.1, (session evs (st, None)).2).
Proof. unfold run. by destruct (session evs (st, None)) as [[??]?]. Qed.

Lemma run_ids evs st :
  id <$> (run evs st).2
  = seqZ (_msg_id st + 1) (Z.of_nat (length (run evs st).2))
  ∧ _msg_id (run evs st).1 = _msg_id st + Z.of_nat (length (run evs st).2).
Proof. rewrite run_session. apply (session_ids evs (st, None)). Qed.

(** When the receive loop has ended, the calls of [_send_message] are all
    that still changes the connection, and only its [_msg_id]. *)
Lemma session_ended evs st e :
  ∃ n, (session evs (st, Some e)).1
       = (WS n (_msg_responses st) (_last_heartbeat st) (_is_ready st)
             (comments st), Some e).
Proof.
  revert st. induction evs as [|ev evs IH]; intros st.
  - exists (_msg_id st). by destruct st.
  - rewrite session_cons. cbn [fst snd].
    destruct ev as [f tc td| |nm args]; simpl; try apply IH.
    destruct (IH (WS (_msg_id st + 1) (_msg_responses st) (_last_heartbeat st)
                     (_is_ready st) (comments st))) as [n ->].
    by exists n.
Qed.

Lemma session_goes_on evs st :
  loop_goes_on evs → (session evs (st, None)).1.2 = None.
Proof.
  intros Hevs. revert st. induction Hevs as [|ev evs Hev _ IH]; intros st.
  - done.
  - rewrite session_cons, session_step_alive. cbn [fst snd].
    destruct (Hev st) as [[st' sent] ->]. apply IH.
Qed.

Lemma session_app evs1 evs2 c :
  session (evs1 ++ evs2) c
  = ((session evs2 (session evs1 c).1).1,
     (session evs1 c).2 ++ (session evs2 (session evs1 c).1).2).
Proof.
  revert c. induction evs1 as [|ev evs1 IH]; intros c.
  - simpl. by destruct (session evs2 c).
  - rewrite <- app_comm_cons, !session_cons, IH. cbn [fst snd].
    by rewrite app_assoc.
Qed.

Lemma session_ends pre ev post st e :
  loop_goes_on pre → ends_with ev e →
  (session (pre ++ ev :: post) (st, None)).1.2 = Some e.
Proof.
  intros Hpre Hev. rewrite session_app. cbn [fst snd].
  pose proof (session_goes_on pre st Hpre) as Halive.
  destruct (session pre (st, None)) as [[st1 t1] sent1]. simpl in Halive.
  subst t1. cbn [fst]. rewrite session_cons. cbn [fst snd].
  rewrite session_step_alive, (Hev st1). cbn [fst].
  by destruct (session_ended post st1 e) as [n ->].
Qed.

(** C9: on one connection, whatever frames arrive and whatever requests
    are made, before and after the end of the receive loop, the ids of the
    messages sent are 1, 2, 3, ... in the order of sending. *)
Theorem message_ids_count_from_one (evs : list event) :
  id <$> (run evs __init__).2
  = seqZ 1 (Z.of_nat (length (run evs __init__).2)).
Proof. by destruct (run_ids evs __init__) as [-> _]. Qed.

Lemma message_ids_increase (evs : list event) (i j : nat) mi mj :
  (i < j)%nat →
  (run evs __init__).2 !! i = Some mi → (run evs __init__).2 !! j = Some mj →
  id mi < id mj.
Proof.
  intros Hij Hi Hj.
  assert (∀ k m, (run evs __init__).2 !! k = Some m → id m = 1 + Z.of_nat k) as Hid.
  { intros k m Hk.
    assert ((id <$> (run evs __init__).2) !! k = Some (id m)) as Hk'
      by by rewrite list_lookup_fmap, Hk.
    destruct (run_ids evs __init__) as [Hids _]. rewrite Hids in Hk'.
    apply lookup_seqZ in Hk' as [-> _]. simpl. lia. }
  rewrite (Hid _ _ Hi), (Hid _ _ Hj). lia.
Qed.

(** *** Heartbeats *)

Lemma try_heartbeat_cases tc td st :
  ((tc - _last_heartbeat st < heartbeat_interval)%Q
   ∧ _try_heartbeat tc td st = (st, []))
  ∨ ((heartbeat_interval <= tc - _last_heartbeat st)%Q
     ∧ ∃ st', _try_heartbeat tc td st
              = (st', [OutMsg "heartbeat" ∅ (_msg_id st + 1)])
              ∧ _last_heartbeat st' = td).
Proof.
  unfold _try_heartbeat. destruct (Qlt_le_dec _ _); [by left|].
  right. split; [done|]. by eexists.
Qed.

Lemma iteration_heartbeat f tc td st st' sent :
  _main_loop_iteration f tc td st = Ok (st', sent) →
  (existsb is_heartbeat sent = true
   ↔ (heartbeat_interval <= tc - _last_heartbeat st)%Q)
  ∧ _last_heartbeat st'
    = (if existsb is_heartbeat sent then td else _last_heartbeat st).
Proof.
  unfold _main_loop_iteration.
  destruct (handle_frame f st) as [st1|] eqn:Hf; simpl; [|done].
  apply handle_frame_msg_id in Hf as [_ <-].
  destruct (try_heartbeat_cases tc td st1) as [[Hlt ->]|[Hle (st2 & -> & Hlast)]];
    intros [= <- <-]; simpl.
  - split; [|done]. split; [done|]. intros Hle.
    exfalso. eapply Qlt_not_le; eauto.
  - by split.
Qed.

Lemma heartbeat_times_cons ev evs st :
  heartbeat_times (ev :: evs) st
  = match step ev st with
    | Raise _ => []
    | Ok (st', sent) =>
        match ev with
        | Received _ _ t_done =>
            if existsb is_heartbeat sent then t_done :: heartbeat_times evs st'
            else heartbeat_times evs st'
        | _ => heartbeat_times evs st'
        end
    end.
Proof. done. Qed.

Lemma step_other_last_heartbeat ev st st' sent :
  step ev st = Ok (st', sent) →
  match ev with
  | Received _ _ _ => True
  | _ => _last_heartbeat st' = _last_heartbeat st
  end.
Proof. destruct ev; simpl; [done | done | by intros [= <- _]]. Qed.

(** Every heartbeat of a session completes at least one interval after the
    time stored in [_last_heartbeat] at its start, and the heartbeats are
    spaced. *)
Lemma heartbeat_times_spaced evs st :
  Forall clock_forward evs →
  Forall (λ t, (_last_heartbeat st + heartbeat_interval <= t)%Q)
         (heartbeat_times evs st)
  ∧ spaced (heartbeat_times evs st).
Proof.
  intros Hclock. revert st.
  induction Hclock as [|ev evs Hev Hevs IH]; intros st.
  { split; [constructor | by intros k t1 t2 ?]. }
  rewrite heartbeat_times_cons.
  destruct (step ev st) as [[st1 sent1]|] eqn:Hstep;
    [|split; [constructor | by intros k t1 t2 ?]].
  destruct (IH st1) as [IH1 IH2].
  destruct ev as [f tc td| |nm args].
  - simpl in Hstep, Hev.
    apply iteration_heartbeat in Hstep as [Hiff Hlast].
    destruct (existsb is_heartbeat sent1).
    + assert (heartbeat_interval <= tc - _last_heartbeat st)%Q as Hle
        by by apply Hiff.
      rewrite Hlast in IH1. split.
      * constructor; [lra|].
        eapply Forall_impl; [exact IH1|]. unfold heartbeat_interval in *.
        simpl. intros t Ht. lra.
      * intros [|k] t1 t2; simpl.
        -- intros [= <-] Ht2.
           eapply Forall_lookup_1 in IH1; [|exact Ht2]. done.
        -- apply IH2.
    + rewrite Hlast in IH1. by split.
  - done.
  - apply step_other_last_heartbeat in Hstep. rewrite Hstep in IH1. by split.
Qed.

(** [_last_heartbeat] holds the completion time of the latest heartbeat of
    the session, if there was one. *)
Lemma last_heartbeat_is_latest evs st :
  _last_heartbeat (run evs st).1
  = default (_last_heartbeat st) (last (heartbeat_times evs st)).
Proof.
  rewrite run_session. cbn [fst].
  revert st. induction evs as [|ev evs IH]; intros st; [done|].
  rewrite heartbeat_times_cons, session_cons, session_step_alive.
  destruct (step ev st) as [[st1 sent1]|e] eqn:Hstep; cbn [fst snd].
  - rewrite IH. destruct ev as [f tc td| |nm args].
    + simpl in Hstep. apply iteration_heartbeat in Hstep as [_ Hlast].
      rewrite Hlast. destruct (existsb is_heartbeat sent1); [|done].
      rewrite last_cons. by destruct (last (heartbeat_times evs st1)).
    + done.
    + apply step_other_last_heartbeat in Hstep. by rewrite Hstep.
  - by destruct (session_ended evs st e) as [n ->].
Qed.

(** C8: an iteration of the receive loop that handles its frame sends a
    heartbeat exactly when at least [heartbeat_interval] has passed since
    the time in [_last_heartbeat], which it then sets to the completion
    time; in a session that time is the completion time of the previous
    heartbeat (0 before the first), and consecutive heartbeats are at
    least [heartbeat_interval] apart. *)
Theorem heartbeat_cadence (st st' : ws) (f : frame) (tc td : time)
    (sent : list out_msg) (evs : list event) :
  _main_loop_iteration f tc td st = Ok (st', sent) →
  Forall clock_forward evs →
  (existsb is_heartbeat sent = true
   ↔ (heartbeat_interval <= tc - _last_heartbeat st)%Q)
  ∧ _last_heartbeat st'
    = (if existsb is_heartbeat sent then td else _last_heartbeat st)
  ∧ _last_heartbeat (run evs __init__).1
    = default 0%Q (last (heartbeat_times evs __init__))
  ∧ spaced (heartbeat_times evs __init__).
Proof.
  intros Hiter Hclock.
  destruct (iteration_heartbeat _ _ _ _ _ _ Hiter) as [Hiff Hlast].
  repeat split; try apply Hiff; try done.
  - apply (last_heartbeat_is_latest evs __init__).
  - by apply heartbeat_times_spaced.
Qed.

Lemma heartbeat_cadence_witness :
  let evs := [Received connect_complete 100 101;
              Request "get_hls_information" ∅;
              Received (comment ["hi"]) 120 121;
              Received (comment []) 131 132]%Q in
  let st' := WS 1 ∅ 101%Q true [] in
  let sent := [OutMsg "heartbeat" ∅ 1] in
  _main_loop_iteration connect_complete 100 101 __init__ = Ok (st', sent)
  ∧ Forall clock_forward evs
  ∧ (existsb is_heartbeat sent = true
     ↔ (heartbeat_interval <= 100 - _last_heartbeat __init__)%Q)
  ∧ _last_heartbeat st'
    = (if existsb is_heartbeat sent then 101%Q else _last_heartbeat __init__)
  ∧ _last_heartbeat (run evs __init__).1
    = default 0%Q (last (heartbeat_times evs __init__))
  ∧ spaced (heartbeat_times evs __init__).
Proof.
  intros evs st' sent.
  assert (_main_loop_iteration connect_complete 100 101 __init__ = Ok (st', sent))
    as H1 by reflexivity.
  assert (Forall clock_forward evs) as H2
    by (repeat constructor; simpl; discriminate).
  split; [exact H1|]. split; [exact H2|].
  exact (heartbeat_cadence __init__ st' connect_complete 100 101 sent evs H1 H2).
Defined.

(** *** [get_hls_information] *)

Lemma send_and_wait_unfold nm args evs o c :
  _send_message_and_wait nm args evs o c
  = let st1 := (_send_message nm args c.1).1.1 in
    let m := (_send_message nm args c.1).1.2 in
    match c.2 with
    | Some e => (st1, Some e, [m], Raise e)
    | None =>
        let st2 := (session evs (st1, None)).1.1 in
        let sent := (session evs (st1, None)).2 in
        match (session evs (st1, None)).1.2 with
        | Some e => (st2, Some e, m :: sent, Raise e)
        | None =>
            match o with
            | Responded r =>
                (WS (_msg_id st2) (delete (_msg_id st1) (_msg_responses st2))
                    (_last_heartbeat st2) (_is_ready st2) (comments st2),
                 None, m :: sent, Ok (Some r))
            | TimedOut => (st2, None, m :: sent, Ok None)
            | MainLoopEnded e => (st2, Some e, m :: sent, Raise e)
            end
        end
    end.
Proof.
  unfold _send_message_and_wait, _send_message. cbn [fst snd _msg_id].
  destruct (c.2); [done|].
  by destruct (session evs _) as [[st2 t2] sent].
Qed.

Lemma send_and_wait_ids nm args evs o c :
  id <$> (_send_message_and_wait nm args evs o c).1.2
  = seqZ (_msg_id c.1 + 1)
         (Z.of_nat (length (_send_message_and_wait nm args evs o c).1.2))
  ∧ _msg_id (_send_message_and_wait nm args evs o c).1.1.1
    = _msg_id c.1
      + Z.of_nat (length (_send_message_and_wait nm args evs o c).1.2).
Proof.
  rewrite send_and_wait_unfold. cbv zeta.
  destruct (c.2) as [e|]; [simpl; split; [done | lia]|].
  set (st1 := (_send_message nm args c.1).1.1).
  destruct (session_ids evs (st1, None)) as [Hs Hi].
  assert (_msg_id st1 = _msg_id c.1 + 1) as H1 by done.
  cbn [fst] in Hs, Hi. rewrite H1 in Hs, Hi.
  assert (id (_send_message nm args c.1).1.2 = _msg_id c.1 + 1) as Hm by done.
  destruct ((session evs (st1, None)).1.2) as [e|]; [|destruct o];
    cbn [fst snd length fmap list_fmap _msg_id];
    rewrite Nat2Z.inj_succ, seqZ_cons by lia;
    (split; [|lia]);
    rewrite Hm; f_equal;
    change (id <$> (session evs (st1, None)).2)
      with (id <$> (session evs (st1, None)).2);
    rewrite Hs; f_equal; lia.
Qed.

Lemma ids_follow_app n s (c : ws) (sent : list out_msg) :
  ids_follow n s →
  id <$> sent = seqZ (_msg_id (conn s) + 1) (Z.of_nat (length sent)) →
  _msg_id c = _msg_id (conn s) + Z.of_nat (length sent) →
  id <$> (wire s ++ sent)
  = seqZ (n + 1) (Z.of_nat (length (wire s ++ sent)))
  ∧ _msg_id c = n + Z.of_nat (length (wire s ++ sent)).
Proof.
  intros [Hw Hc] Hsent Hid.
  rewrite fmap_app, length_app, Nat2Z.inj_add, seqZ_app by lia.
  rewrite Hw, Hsent, Hid, Hc. split; [|lia]. do 2 f_equal. lia.
Qed.

Lemma hls_sleep_unfold evs d t c w sl :
  hls_sleep evs d t c w sl
  = HlsLoop None t (session evs c).1.1 (session evs c).1.2
            (w ++ (session evs c).2) (sl ++ [d]).
Proof. unfold hls_sleep. by destruct (session evs c) as [[??]?]. Qed.

Lemma hls_body_unfold a s :
  hls_body a s
  = let w := _send_message_and_wait "get_hls_information" ∅ (during_wait a)
               (outcome a) (conn s, task s) in
    got ← w.2;
    let asleep :=
      hls_sleep (during_sleep a) (2 ^ tries s) (tries s + 1) w.1.1
        (wire s ++ w.1.2) (slept s) in
    match got with
    | None => Ok asleep
    | Some rsp =>
        if decide (resp_arguments rsp !! "playlists" = None) then Ok asleep
        else Ok (HlsLoop (Some rsp) (tries s + 1) w.1.1.1 w.1.1.2
                   (wire s ++ w.1.2) (slept s))
    end.
Proof.
  unfold hls_body.
  by destruct (_send_message_and_wait _ _ _ _ _) as [[[c t] sent] r].
Qed.

Lemma hls_body_tries a s s' :
  hls_body a s = Ok s' → tries s' = tries s + 1.
Proof.
  rewrite hls_body_unfold. cbv zeta.
  destruct (_send_message_and_wait _ _ _ _ _) as [[[c t] sent] [[r|]|e]];
    cbn [fst snd mbind result_bind]; [case_decide| |done];
    rewrite ?hls_sleep_unfold; by intros [= <-].
Qed.

(** Whatever happens in an attempt, the ids on the wire keep following
    one another. *)
Lemma hls_body_ids n a s s' :
  ids_follow n s → hls_body a s = Ok s' → ids_follow n s'.
Proof.
  intros Hs. rewrite hls_body_unfold. cbv zeta.
  destruct (send_and_wait_ids "get_hls_information" ∅ (during_wait a)
              (outcome a) (conn s, task s)) as [Hsent Hid].
  destruct (_send_message_and_wait _ _ _ _ _) as [[[c t] sent] r].
  cbn [fst snd] in *.
  destruct (ids_follow_app n s c sent Hs Hsent Hid) as [Hw1 Hc1].
  assert (ids_follow n (hls_sleep (during_sleep a) (2 ^ tries s) (tries s + 1)
                          (c, t) (wire s ++ sent) (slept s))) as Hsleep.
  { rewrite hls_sleep_unfold.
    destruct (session_ids (during_sleep a) (c, t)) as [Hs2 Hi2].
    cbn [fst] in Hs2, Hi2.
    apply (ids_follow_app n (HlsLoop None 0 c t (wire s ++ sent) [])).
    - by split.
    - exact Hs2.
    - exact Hi2. }
  destruct r as [[r|]|e]; cbn [mbind result_bind]; [case_decide| |done];
    intros [= <-]; try exact Hsleep.
  by split.
Qed.

Lemma hls_while_unfold fuel env s :
  hls_while fuel env s
  = if bool_decide (msg s = None ∧ tries s < max_tries) then
      match fuel with
      | O => None
      | S fuel' =>
          match hls_body (env (Z.to_nat (tries s))) s with
          | Raise e => Some (Raise e)
          | Ok s' => hls_while fuel' env s'
          end
      end
    else Some (Ok s).
Proof. by destruct fuel. Qed.

Lemma hls_while_ids n fuel env : ∀ s s',
  ids_follow n s → hls_while fuel env s = Some (Ok s') → ids_follow n s'.
Proof.
  induction fuel as [|fuel IH]; intros s s' Hs; rewrite hls_while_unfold;
    case_bool_decide; try done; try by intros [= <-].
  destruct (hls_body _ s) as [s1|] eqn:Hb; [|done].
  apply IH. by eapply hls_body_ids.
Qed.

(** The loop ends within [max_tries] rounds. *)
Lemma hls_while_terminates fuel env s :
  0 ≤ tries s → max_tries - tries s ≤ Z.of_nat fuel →
  is_Some (hls_while fuel env s).
Proof.
  revert s. induction fuel as [|fuel IH]; intros s H0 Hfuel;
    rewrite hls_while_unfold; case_bool_decide as Hc; try by eexists.
  - lia.
  - destruct (hls_body _ s) as [s'|] eqn:Hb; [|by eexists].
    apply hls_body_tries in Hb. apply IH; lia.
Qed.

Lemma get_hls_information_terminates env st :
  is_Some (get_hls_information 5 env st).
Proof.
  unfold get_hls_information.
  destruct (hls_while_terminates 5 env (hls_start st)) as [r ->];
    [simpl; lia | simpl; unfold max_tries; lia | by eexists].
Qed.

Lemma send_and_wait_goes_on nm args evs o st :
  loop_goes_on evs →
  (_send_message_and_wait nm args evs o (st, None)).2
  = match o with
    | Responded r => Ok (Some r)
    | TimedOut => Ok None
    | MainLoopEnded e => Raise e
    end
  ∧ (_send_message_and_wait nm args evs o (st, None)).1.1.2
    = match o with
      | MainLoopEnded e => Some e
      | _ => None
      end.
Proof.
  intros Hevs. rewrite send_and_wait_unfold. cbv zeta. cbn [snd].
  rewrite (session_goes_on evs _ Hevs). by destruct o.
Qed.

Lemma hls_body_fails a s :
  task s = None → attempt_retries a →
  ∃ conn' sent,
    hls_body a s
    = Ok (HlsLoop None (tries s + 1) conn' None (wire s ++ sent)
                  (slept s ++ [2 ^ tries s])).
Proof.
  intros Ht (Hwait & Hfail & Hsleep). rewrite hls_body_unfold, Ht. cbv zeta.
  destruct (send_and_wait_goes_on "get_hls_information" ∅ (during_wait a)
              (outcome a) (conn s) Hwait) as [Hr Htask].
  destruct (_send_message_and_wait _ _ _ _ _) as [[[c t] sent] r].
  cbn [fst snd] in *. subst r.
  assert (t = None) as ->.
  { destruct Hfail as [Ho|(r & Ho & _)]; by rewrite Ho in Htask. }
  assert (∃ conn' sent',
            hls_sleep (during_sleep a) (2 ^ tries s) (tries s + 1) (c, None)
              (wire s ++ sent) (slept s)
            = HlsLoop None (tries s + 1) conn' None (wire s ++ sent')
                      (slept s ++ [2 ^ tries s])) as (conn' & sent' & Hsl).
  { rewrite hls_sleep_unfold, (session_goes_on _ c Hsleep), <- app_assoc.
    by do 2 eexists. }
  exists conn', sent'.
  destruct Hfail as [->|(r & -> & Hkey)]; cbn [mbind result_bind].
  - by rewrite Hsl.
  - rewrite decide_True by done. by rewrite Hsl.
Qed.

Lemma hls_body_accepts a r s :
  task s = None → attempt_brings a r →
  is_Some (resp_arguments r !! "playlists") →
  ∃ conn' sent,
    hls_body a s
    = Ok (HlsLoop (Some r) (tries s + 1) conn' None (wire s ++ sent) (slept s)).
Proof.
  intros Ht [Hwait Ho] [ps Hr]. rewrite hls_body_unfold, Ht. cbv zeta.
  destruct (send_and_wait_goes_on "get_hls_information" ∅ (during_wait a)
              (outcome a) (conn s) Hwait) as [Hres Htask].
  destruct (_send_message_and_wait _ _ _ _ _) as [[[c t] sent] res].
  cbn [fst snd] in *. subst res. rewrite Ho in Htask |- *. subst t.
  cbn [mbind result_bind]. rewrite decide_False by congruence.
  by do 2 eexists.
Qed.

Lemma hls_body_ends a e s :
  task s = None → loop_ends_in a e → hls_body a s = Raise e.
Proof.
  intros Ht Hend. rewrite hls_body_unfold, Ht. cbv zeta.
  assert ((_send_message_and_wait "get_hls_information" ∅ (during_wait a)
             (outcome a) (conn s, None)).2 = Raise e) as ->; [|done].
  destruct Hend as [(pre & ev & post & Hevs & Hpre & Hev)|[Hwait Ho]].
  - rewrite send_and_wait_unfold. cbv zeta. cbn [snd].
    by rewrite Hevs, (session_ends pre ev post _ e Hpre Hev).
  - destruct (send_and_wait_goes_on "get_hls_information" ∅ (during_wait a)
                (outcome a) (conn s) Hwait) as [-> _].
    by rewrite Ho.
Qed.

(** After [n] attempts that fail with the receive loop still running, the
    loop stands at [tries + n] with no message, having slept after each
    of them. *)
Lemma hls_while_failures n fuel env s :
  msg s = None → task s = None → 0 ≤ tries s →
  tries s + Z.of_nat n ≤ max_tries →
  (∀ j, (j < n)%nat → attempt_retries (env (Z.to_nat (tries s) + j)%nat)) →
  ∃ s', hls_while (n + fuel) env s = hls_while fuel env s'
        ∧ msg s' = None ∧ task s' = None
        ∧ tries s' = tries s + Z.of_nat n
        ∧ slept s' = slept s
                     ++ ((λ j, 2 ^ (tries s + Z.of_nat j)) <$> seq 0 n).
Proof.
  revert s. induction n as [|n IH]; intros s Hmsg Htask H0 Hmax Hfail.
  - exists s. simpl. rewrite app_nil_r. split_and!; try done; lia.
  - rewrite (hls_while_unfold (S n + fuel)). simpl.
    rewrite bool_decide_eq_true_2 by (split; [done | lia]).
    destruct (hls_body_fails (env (Z.to_nat (tries s))) s Htask)
      as (c & sent & ->).
    { specialize (Hfail 0%nat). rewrite Nat.add_0_r in Hfail. apply Hfail. lia. }
    destruct (IH (HlsLoop None (tries s + 1) c None (wire s ++ sent)
                          (slept s ++ [2 ^ tries s])))
      as (s' & Hs' & Hm' & Hk' & Ht' & Hsl'); simpl; try done; try lia.
    { intros j Hj. replace (Z.to_nat (tries s + 1) + j)%nat
        with (Z.to_nat (tries s) + S j)%nat by lia. apply Hfail. lia. }
    exists s'. simpl in *. split_and!; try done; try lia.
    rewrite Hsl', <- app_assoc. f_equal. simpl. rewrite Z.add_0_r. f_equal.
    rewrite <- fmap_S_seq, <- list_fmap_compose. apply list_fmap_ext.
    intros _ j _. simpl. f_equal. lia.
Qed.

(** The loop at the first attempt that brings a response with a
    [playlists] key. *)
Lemma hls_while_first_success env st (k : nat) r :
  (k < 5)%nat →
  (∀ j, (j < k)%nat → attempt_retries (env j)) →
  attempt_brings (env k) r →
  is_Some (resp_arguments r !! "playlists") →
  ∃ s, hls_while 5 env (hls_start st) = Some (Ok s)
       ∧ msg s = Some r ∧ tries s = Z.of_nat k + 1
       ∧ slept s = (λ j, 2 ^ Z.of_nat j) <$> seq 0 k.
Proof.
  intros Hk Hfail Hr Hkey.
  destruct (hls_while_failures k (5 - k) env (hls_start st))
    as (s & Hs & Hmsg & Htask & Htries & Hslept);
    [done | done | simpl; lia | simpl; unfold max_tries; lia
    | simpl; intros; apply Hfail; lia |].
  replace (k + (5 - k))%nat with 5%nat in Hs by lia. rewrite Hs.
  simpl in Htries, Hslept. rewrite Z.add_0_l in Htries.
  destruct (5 - k)%nat as [|fuel] eqn:Hfuel; [lia|].
  rewrite hls_while_unfold.
  rewrite bool_decide_eq_true_2 by (split; [done | unfold max_tries; lia]).
  rewrite Htries, Nat2Z.id.
  destruct (hls_body_accepts (env k) r s Htask Hr Hkey) as (c & sent & ->).
  rewrite hls_while_unfold.
  rewrite bool_decide_eq_false_2 by (simpl; intros [? _]; done).
  eexists. split; [done|]. simpl. split_and!; [done | lia |].
  rewrite Hslept. apply list_fmap_ext. intros _ j _. done.
Qed.

(** The first response with a [playlists] key ends the loop.  Its
    arguments are returned when it comes in one of the first four attempts;
    when it comes in the fifth, [tries] has reached [max_tries] and
    [EmptyPlaylistException] is raised although a playlist was received. *)
Lemma get_hls_information_first_success env st (k : nat) r :
  (k < 5)%nat →
  (∀ j, (j < k)%nat → attempt_retries (env j)) →
  attempt_brings (env k) r →
  is_Some (resp_arguments r !! "playlists") →
  get_hls_information 5 env st
  = Some (if decide (k = 4%nat) then Raise EmptyPlaylistException
          else Ok (resp_arguments r)).
Proof.
  intros Hk Hfail Hr Hkey. unfold get_hls_information.
  destruct (hls_while_first_success env st k r Hk Hfail Hr Hkey)
    as (s & -> & Hmsg & Htries & _).
  simpl. unfold hls_finish. rewrite Htries, Hmsg.
  unfold max_tries. repeat case_decide; try done; lia.
Qed.

Lemma hls_while_gives_up env st :
  (∀ j, (j < 5)%nat → attempt_retries (env j)) →
  ∃ s, hls_while 5 env (hls_start st) = Some (Ok s)
       ∧ msg s = None ∧ tries s = 5
       ∧ slept s = [1; 2; 4; 8; 16].
Proof.
  intros Hfail.
  destruct (hls_while_failures 5 0 env (hls_start st))
    as (s & Hs & Hmsg & Htask & Htries & Hslept);
    [done | done | simpl; lia | simpl; unfold max_tries; lia
    | simpl; intros; apply Hfail; lia |].
  exists s. change (5 + 0)%nat with 5%nat in Hs. rewrite Hs, hls_while_unfold.
  rewrite bool_decide_eq_false_2 by (unfold max_tries; simpl in Htries; lia).
  done.
Qed.

(** Five failing attempts: the exception is raised. *)
Lemma get_hls_information_gives_up env st :
  (∀ j, (j < 5)%nat → attempt_retries (env j)) →
  get_hls_information 5 env st = Some (Raise EmptyPlaylistException).
Proof.
  intros Hfail. unfold get_hls_information.
  destruct (hls_while_gives_up env st Hfail) as (s & -> & _ & Htries & _).
  simpl. unfold hls_finish. by rewrite Htries.
Qed.

(** The delays slept after five failing attempts are 1, 2, 4, 8, 16. *)
Lemma get_hls_information_backoff env st :
  (∀ j, (j < 5)%nat → attempt_retries (env j)) →
  ∃ s, hls_while 5 env (hls_start st) = Some (Ok s)
       ∧ slept s = [1; 2; 4; 8; 16].
Proof.
  intros Hfail.
  destruct (hls_while_gives_up env st Hfail) as (s & Hs & _ & _ & Hslept).
  by exists s.
Qed.


End WebSocketFacts.

(** ** Playlist text *)

Module TextFacts.

Import TextSpec.

Local Open Scope string_scope.

Lemma split_first_join s :
  join_newline ((split_first s).1 :: (split_first s).2) = s.
Proof.
  induction s as [|c s IH]; [done|].
  simpl. destruct (split_first s) as [l ls].
  case_decide as Hc; subst; by destruct ls.
Qed.

Lemma split_newline_join s : join_newline (split_newline s) = s.
Proof.
  unfold split_newline. pose proof (split_first_join s) as H.
  by destruct (split_first s).
Qed.

Lemma split_first_no_newline s :
  no_newline (split_first s).1 ∧ Forall no_newline (split_first s).2.
Proof.
  induction s as [|c s [IH1 IH2]]; [by split; [|constructor]|].
  simpl. destruct (split_first s) as [l ls]. simpl in *.
  case_decide; simpl; [split; [done | by constructor] | done].
Qed.

Lemma split_newline_no_newline s : Forall no_newline (split_newline s).
Proof.
  unfold split_newline. pose proof (split_first_no_newline s) as [H1 H2].
  destruct (split_first s). by constructor.
Qed.

Lemma split_first_line l :
  no_newline l → split_first l = (l, []).
Proof.
  induction l as [|c l IH]; [done|]. intros [Hc Hl]. simpl.
  rewrite (IH Hl). by case_decide.
Qed.

Lemma split_first_app l rest :
  no_newline l →
  split_first (l ++ String newline rest) = (l, split_newline rest).
Proof.
  induction l as [|c l IH].
  - intros _. change (split_first (String newline rest) = ("", split_newline rest)).
    simpl. unfold split_newline. by destruct (split_first rest).
  - intros [Hc Hl].
    change (split_first (String c (l ++ String newline rest))
            = (String c l, split_newline rest)).
    simpl. rewrite (IH Hl). by case_decide.
Qed.

(** The pieces are the only way to cut the text at its newlines. *)
Lemma split_newline_unique lines :
  lines ≠ [] → Forall no_newline lines →
  split_newline (join_newline lines) = lines.
Proof.
  induction lines as [|l rest IH]; [done|]. intros _ Hall.
  apply Forall_cons in Hall as [Hl Hrest].
  destruct rest as [|l' rest'].
  - simpl. unfold split_newline. by rewrite split_first_line.
  - change (join_newline (l :: l' :: rest'))
      with (l ++ String newline (join_newline (l' :: rest'))).
    unfold split_newline at 1. rewrite split_first_app by done.
    by rewrite IH.
Qed.

Lemma append_cons c (a b : string) : String c a ++ b = String c (a ++ b).
Proof. reflexivity. Qed.

Lemma append_nil (b : string) : "" ++ b = b.
Proof. reflexivity. Qed.

(** [lstrip] removes a run of whitespace from the front. *)
Lemma lstrip_spec s :
  ∃ pre, s = pre ++ lstrip s ∧ all_space pre
         ∧ ∀ c, first_char (lstrip s) = Some c → isspace c = false.
Proof.
  induction s as [|c s (pre & Hs & Hpre & Hfirst)].
  - by exists "".
  - simpl. destruct (isspace c) eqn:Hc.
    + exists (String c pre). rewrite append_cons, <- Hs. by repeat split.
    + exists "". rewrite append_nil. repeat split. by intros ? [= <-].
Qed.

Lemma rstrip_spec s :
  ∃ post, s = rstrip s ++ post ∧ all_space post
          ∧ ∀ c, last_char (rstrip s) = Some c → isspace c = false.
Proof.
  induction s as [|c s (post & Hs & Hpost & Hlast)].
  - by exists "".
  - simpl. destruct (rstrip s) as [|d r] eqn:Hr.
    + rewrite append_nil in Hs. subst post. destruct (isspace c) eqn:Hc.
      * exists (String c s). rewrite append_nil. by repeat split.
      * exists s. rewrite append_cons, append_nil.
        repeat split; [done|]. by intros ? [= <-].
    + exists post. rewrite append_cons, <- Hs. repeat split; [done|].
      intros c'. simpl. simpl in Hlast.
      destruct (last_char r); intros [= <-]; by apply Hlast.
Qed.

Lemma rstrip_first s c :
  first_char s = Some c → isspace c = false → first_char (rstrip s) = Some c.
Proof.
  destruct s as [|d s]; [done|]. intros [= ->] Hc. simpl.
  destruct (rstrip s); [by rewrite Hc | done].
Qed.

Lemma rstrip_first_inv s c :
  first_char (rstrip s) = Some c → first_char s = Some c.
Proof.
  destruct s as [|d s]; [done|]. simpl.
  destruct (rstrip s); [destruct (isspace d)|]; simpl; congruence.
Qed.

(** [strip] removes whitespace, and only whitespace, from both ends. *)
Lemma strip_spec s :
  ∃ pre post, s = pre ++ strip s ++ post ∧ all_space pre ∧ all_space post
    ∧ (∀ c, first_char (strip s) = Some c → isspace c = false)
    ∧ (∀ c, last_char (strip s) = Some c → isspace c = false).
Proof.
  destruct (lstrip_spec s) as (pre & Hs & Hpre & Hfirst).
  destruct (rstrip_spec (lstrip s)) as (post & Hl & Hpost & Hlast).
  exists pre, post. unfold strip. repeat split; try done.
  - by rewrite <- Hl.
  - intros c Hc. apply Hfirst. by apply rstrip_first_inv.
Qed.

End TextFacts.

(** ** The downloader *)

Module DownloaderFacts.

Import HLSDownloader TextSpec TextFacts DownloaderSpec.

Local Open Scope string_scope.
Local Open Scope list_scope.
Local Open Scope Z_scope.

(** *** [_get_fragment_urls] *)

Lemma keeps_line_spec l : keeps_line l = true ↔ fragment_line l.
Proof.
  unfold fragment_line. destruct l as [|c l]; simpl.
  - split; [done | by intros [? _]].
  - rewrite negb_true_iff, bool_decide_eq_false.
    split; [intros Hc; split; [done | congruence] | intros [_ Hc]; congruence].
Qed.

(** C6: [StreamFinished] is raised exactly for status 403; for any other
    status the result is, for the lines of the body (the newline-free
    pieces that joined by newlines give the body), the lines that are
    neither empty nor start with [#], each stripped, in their order. *)
Theorem get_fragment_urls_spec (o : http_outcome string) (status : Z)
    (body : string) (lines : list string) :
  lines ≠ [] → Forall no_newline lines → join_newline lines = body →
  (_get_fragment_urls o = Raise StreamFinished
   ↔ ∃ text, o = HttpResponse 403 text)
  ∧ (status ≠ 403 →
     _get_fragment_urls (HttpResponse status body)
     = Ok (strip <$> filter fragment_line lines)).
Proof.
  intros Hne Hlines <-. split.
  - destruct o as [st text|reason]; simpl.
    + case_decide as Hst; [subst st|].
      * split; [by eexists | done].
      * split; [discriminate | by intros [? [= ? _]]].
    + split; [discriminate | by intros [? ?]].
  - intros Hstatus. simpl. case_decide; [done|].
    rewrite split_newline_unique by done.
    do 2 f_equal. apply list_filter_iff. intros l. apply keeps_line_spec.
Qed.

Lemma get_fragment_urls_spec_witness :
  let lines := ["#EXTM3U"; "a.ts"; ""; " b.ts "; "  "; ""] in
  let body := join_newline lines in
  lines ≠ [] ∧ Forall no_newline lines ∧ join_newline lines = body
  ∧ (_get_fragment_urls (HttpResponse 403 body) = Raise StreamFinished
     ↔ ∃ text, HttpResponse 403 body = HttpResponse 403 text)
  ∧ (200 ≠ 403 →
     _get_fragment_urls (HttpResponse 200 body)
     = Ok (strip <$> filter fragment_line lines))
  ∧ strip <$> filter fragment_line lines = ["a.ts"; "b.ts"; ""].
Proof.
  intros lines body.
  assert (lines ≠ []) as H1 by done.
  assert (Forall no_newline lines) as H2
    by (repeat constructor; by vm_compute).
  assert (join_newline lines = body) as H3 by reflexivity.
  destruct (get_fragment_urls_spec (HttpResponse 403 body) 200 body lines
              H1 H2 H3) as [H4 H5].
  repeat split; try done; apply H4.
Defined.

(** *** Running schedules *)

Lemma run_app acts1 acts2 s : run (acts1 ++ acts2) s = run acts2 (run acts1 s).
Proof. apply foldl_app. Qed.

Lemma run_cons a acts s : run (a :: acts) s = run acts (exec s a).
Proof. done. Qed.

Lemma pq_put_perm {A} (leb : A → A → bool) x q : pq_put leb x q ≡ₚ x :: q.
Proof.
  induction q as [|y q IH]; simpl; [done|].
  destruct (leb x y); [done|]. rewrite IH. apply Permutation_swap.
Qed.

(** *** Transport errors *)

(** C7: when the GET of a worker ends with an exception, the exception is
    logged, both queues are left as they were, and the worker is back at
    the top of its loop with nothing to enqueue. *)
Theorem transport_error_drops_fragment (s : hls) (wid : nat) (i : Z)
    (url : string) (tries : Z) (reason : string) :
  workers s !! wid = Some (Fetching i url tries) →
  ∃ s', step (WorkerFetched wid (HttpFailure reason)) s = Some s'
        ∧ _frag_urls s' = _frag_urls s
        ∧ _frag_data s' = _frag_data s
        ∧ workers s' = <[wid := Idle]> (workers s)
        ∧ log s' = log s ++ [LogException (ClientError reason)]
        ∧ step (WorkerPut wid) s' = None.
Proof.
  intros Hw. eexists. simpl. rewrite Hw. simpl. repeat split.
  simpl. rewrite list_lookup_insert_eq; [done|]. by eapply lookup_lt_Some.
Qed.

Lemma transport_error_drops_fragment_witness :
  let s := Hls [] [] (Poller 0 (Some "a.ts") 1) Polling
               [Fetching 0 "a.ts" 0] 0 [] [] in
  workers s !! 0%nat = Some (Fetching 0 "a.ts" 0)
  ∧ ∃ s', step (WorkerFetched 0 (HttpFailure "reset")) s = Some s'
          ∧ _frag_urls s' = _frag_urls s
          ∧ _frag_data s' = _frag_data s
          ∧ workers s' = <[0%nat := Idle]> (workers s)
          ∧ log s' = log s ++ [LogException (ClientError "reset")]
          ∧ step (WorkerPut 0) s' = None.
Proof.
  intros s. split; [reflexivity|].
  exact (transport_error_drops_fragment s 0 0 "a.ts" 0 "reset" eq_refl).
Defined.

(** *** The steps of a worker *)

Lemma exec_get s wid i url tries q :
  workers s !! wid = Some Idle → _frag_urls s = (i, (url, tries)) :: q →
  exec s (WorkerGet wid)
  = Hls q (_frag_data s) (fill s) (pc s)
        (<[wid := Fetching i url tries]> (workers s))
        (index s) (yielded s) (log s).
Proof. intros Hw Hq. unfold exec. simpl. by rewrite Hw, Hq. Qed.

Lemma exec_fetched s wid i url tries o :
  workers s !! wid = Some (Fetching i url tries) →
  exec s (WorkerFetched wid o)
  = set_worker wid (on_fetched wid i url tries o).1
               (on_fetched wid i url tries o).2 s.
Proof.
  intros Hw. unfold exec. simpl. rewrite Hw.
  by destruct (on_fetched wid i url tries o).
Qed.

Lemma exec_put_url s wid item :
  workers s !! wid = Some (PutUrl item) → full (_frag_urls s) = false →
  exec s (WorkerPut wid)
  = Hls (pq_put url_item_leb item (_frag_urls s)) (_frag_data s) (fill s)
        (pc s) (<[wid := Idle]> (workers s)) (index s) (yielded s) (log s).
Proof. intros Hw Hfull. unfold exec. simpl. by rewrite Hw, Hfull. Qed.

Lemma exec_put_data s wid item :
  workers s !! wid = Some (PutData item) → full (_frag_data s) = false →
  exec s (WorkerPut wid)
  = Hls (_frag_urls s) (pq_put data_item_leb item (_frag_data s)) (fill s)
        (pc s) (<[wid := Idle]> (workers s)) (index s) (yielded s) (log s).
Proof. intros Hw Hfull. unfold exec. simpl. by rewrite Hw, Hfull. Qed.

(** *** HTTP error statuses *)

Lemma worker_rounds_cons wid r rs :
  worker_rounds wid (r :: rs)
  = [WorkerGet wid; WorkerFetched wid (HttpResponse r.1 r.2); WorkerPut wid]
    ++ worker_rounds wid rs.
Proof. done. Qed.

(** The decision taken on an error status. *)
Lemma on_fetched_error wid i url tries status body :
  299 < status →
  on_fetched wid i url tries (HttpResponse status body)
  = if tries <? 5
    then (PutUrl (i, (url, tries + 1)),
          [LogErrored wid i status; LogRetrying wid i])
    else (PutData (i, []), [LogErrored wid i status; LogGaveUp wid i tries]).
Proof.
  intros Hs. unfold on_fetched.
  by rewrite (proj2 (Z.ltb_lt 299 status) Hs).
Qed.

(** A round that ends with an error status below the budget, for a
    fragment that is alone in the URL queue: it is back in the queue with
    one more try. *)
Lemma error_round_retry s wid i url tries r :
  workers s !! wid = Some Idle →
  _frag_urls s = [(i, (url, tries))] →
  299 < r.1 → tries < 5 →
  let s' := run (worker_rounds wid [r]) s in
  workers s' !! wid = Some Idle
  ∧ _frag_urls s' = [(i, (url, tries + 1))]
  ∧ _frag_data s' = _frag_data s.
Proof.
  intros Hw Hq Hs Ht.
  assert (wid < length (workers s))%nat as Hlt by by eapply lookup_lt_Some.
  cbv zeta.
  change (run (worker_rounds wid [r]) s)
    with (exec (exec (exec s (WorkerGet wid))
                     (WorkerFetched wid (HttpResponse r.1 r.2)))
               (WorkerPut wid)).
  rewrite (exec_get s wid i url tries []) by done.
  erewrite exec_fetched by (simpl; by apply list_lookup_insert_eq).
  rewrite on_fetched_error by done.
  rewrite (proj2 (Z.ltb_lt tries 5) Ht). simpl.
  erewrite exec_put_url;
    [| simpl; apply list_lookup_insert_eq; by rewrite length_insert | done].
  simpl. split; [|done].
  apply list_lookup_insert_eq. by rewrite !length_insert.
Qed.

(** The round after the budget is used up: the empty payload goes to the
    data queue. *)
Lemma error_round_give_up s wid i url tries r :
  workers s !! wid = Some Idle →
  _frag_urls s = [(i, (url, tries))] →
  full (_frag_data s) = false →
  299 < r.1 → 5 ≤ tries →
  let s' := run (worker_rounds wid [r]) s in
  workers s' !! wid = Some Idle
  ∧ _frag_urls s' = []
  ∧ _frag_data s' = pq_put data_item_leb (i, []) (_frag_data s).
Proof.
  intros Hw Hq Hfull Hs Ht.
  assert (wid < length (workers s))%nat as Hlt by by eapply lookup_lt_Some.
  cbv zeta.
  change (run (worker_rounds wid [r]) s)
    with (exec (exec (exec s (WorkerGet wid))
                     (WorkerFetched wid (HttpResponse r.1 r.2)))
               (WorkerPut wid)).
  rewrite (exec_get s wid i url tries []) by done.
  erewrite exec_fetched by (simpl; by apply list_lookup_insert_eq).
  rewrite on_fetched_error by done.
  rewrite (proj2 (Z.ltb_ge tries 5) Ht). simpl.
  erewrite exec_put_data;
    [| simpl; apply list_lookup_insert_eq; by rewrite length_insert | done].
  simpl. split; [|done].
  apply list_lookup_insert_eq. by rewrite !length_insert.
Qed.

(** [n] error rounds within the budget leave the fragment in the URL
    queue with [n] more tries, and the data queue as it was. *)
Lemma error_rounds_retry rs s wid i url tries :
  workers s !! wid = Some Idle →
  _frag_urls s = [(i, (url, tries))] →
  Forall (λ r, 299 < r.1) rs →
  tries + Z.of_nat (length rs) ≤ 5 →
  let s' := run (worker_rounds wid rs) s in
  workers s' !! wid = Some Idle
  ∧ _frag_urls s' = [(i, (url, tries + Z.of_nat (length rs)))]
  ∧ _frag_data s' = _frag_data s.
Proof.
  revert s tries. induction rs as [|r rs IH]; intros s tries Hw Hq Hrs Ht.
  - simpl. rewrite Z.add_0_r. done.
  - apply Forall_cons in Hrs as [Hr Hrs].
    rewrite worker_rounds_cons, run_app.
    destruct (error_round_retry s wid i url tries r) as (Hw1 & Hq1 & Hd1);
      [done | done | done | simpl in Ht; lia |].
    change [WorkerGet wid; WorkerFetched wid (HttpResponse r.1 r.2); WorkerPut wid]
      with (worker_rounds wid [r]).
    destruct (IH (run (worker_rounds wid [r]) s) (tries + 1))
      as (Hw2 & Hq2 & Hd2); [done | done | done | simpl in Ht; lia |].
    cbv zeta in Hw2, Hq2, Hd2 |- *.
    rewrite Hw2, Hq2, Hd2, Hd1. repeat split.
    do 3 f_equal. simpl length. lia.
Qed.

(** Only [Read] moves the consumer. *)
Lemma exec_consumer a s :
  a ≠ Read →
  index (exec s a) = index s ∧ yielded (exec s a) = yielded s.
Proof.
  intros Ha. unfold exec.
  destruct (step a s) as [s'|] eqn:Hstep; [|done].
  destruct a; try done; simpl in Hstep;
    repeat match type of Hstep with
           | match ?x with _ => _ end = _ => destruct x eqn:?; try discriminate
           | (let '(_, _) := ?x in _) = _ => destruct x eqn:?
           end;
    by injection Hstep as <-.
Qed.

Lemma worker_rounds_consumer wid rs s :
  index (run (worker_rounds wid rs) s) = index s
  ∧ yielded (run (worker_rounds wid rs) s) = yielded s.
Proof.
  revert s. induction rs as [|r rs IH]; intros s; [done|].
  rewrite worker_rounds_cons, run_app.
  destruct (IH (run [WorkerGet wid; WorkerFetched wid (HttpResponse r.1 r.2);
                     WorkerPut wid] s)) as [-> ->].
  rewrite !run_cons. simpl.
  destruct (exec_consumer (WorkerPut wid)
              (exec (exec s (WorkerGet wid))
                    (WorkerFetched wid (HttpResponse r.1 r.2)))) as [-> ->];
    [done|].
  destruct (exec_consumer (WorkerFetched wid (HttpResponse r.1 r.2))
              (exec s (WorkerGet wid))) as [-> ->]; [done|].
  by apply exec_consumer.
Qed.

Lemma worker_rounds_app wid rs1 rs2 :
  worker_rounds wid (rs1 ++ rs2) = worker_rounds wid rs1 ++ worker_rounds wid rs2.
Proof. apply bind_app. Qed.

(** After five error statuses nothing has been enqueued into the data
    queue: the fragment is in the URL queue for one more GET. *)
Lemma five_errors_not_substituted :
  let s := Hls [(0, ("a.ts", 0))] [] (Poller 0 (Some "a.ts") 1) (Putting [])
               [Idle] 0 [] [] in
  let s' := run (worker_rounds 0 (replicate 5 (500, []))) s in
  _frag_urls s' = [(0, ("a.ts", 5))] ∧ _frag_data s' = []
  ∧ ¬ substituted_after 5.
Proof.
  split; [reflexivity|]. split; [reflexivity|].
  intros H.
  specialize (H (Hls [(0, ("a.ts", 0))] [] (Poller 0 (Some "a.ts") 1)
                     (Putting []) [Idle] 0 [] [])
                0%nat 0 "a.ts" (replicate 5 (500, []))
                eq_refl eq_refl eq_refl).
  assert (Forall (λ r : Z * bytes, 299 < r.1) (replicate 5 (500, []))) as Hrs
    by (repeat constructor; simpl; lia).
  specialize (H Hrs eq_refl). vm_compute in H. discriminate.
Qed.

(** A sixth GET that succeeds delivers the body of the fragment. *)
Lemma five_errors_then_success :
  let s := Hls [(0, ("a.ts", 0))] [] (Poller 0 (Some "a.ts") 1) (Putting [])
               [Idle] 0 [] [] in
  _frag_data (run (worker_rounds 0 (replicate 5 (500, []) ++ [(200, [Byte.x42])])) s)
  = [(0, [Byte.x42])].
Proof. reflexivity. Qed.

(** The rounds of a worker on a fragment that is alone in the URL queue
    and whose GET keeps returning an error status. *)
Lemma error_rounds_alone (s : hls) (wid : nat) (i : Z)
    (url : string) (rs : list (Z * bytes)) :
  workers s !! wid = Some Idle → _frag_urls s = [(i, (url, 0))] →
  _frag_data s = [] →
  Forall (λ r, 299 < r.1) rs →
  let s' := run (worker_rounds wid rs) s in
  ((length rs ≤ 5)%nat →
   _frag_urls s' = [(i, (url, Z.of_nat (length rs)))] ∧ _frag_data s' = [])
  ∧ (length rs = 6%nat →
     _frag_urls s' = [] ∧ _frag_data s' = [(i, [])]
     ∧ (index s = i →
        yielded (exec s' Read) = yielded s ++ [[]]
        ∧ index (exec s' Read) = i + 1
        ∧ _frag_data (exec s' Read) = [])).
Proof.
  intros Hw Hq Hd Hrs. cbv zeta.
  assert (length rs = 6%nat →
          _frag_urls (run (worker_rounds wid rs) s) = []
          ∧ _frag_data (run (worker_rounds wid rs) s) = [(i, [])]) as Hsix.
  { intros Hlen.
    assert (rs = take 5 rs ++ drop 5 rs) as Hsplit by by rewrite take_drop.
    assert (length (take 5 rs) = 5%nat) as Hlen5 by (rewrite length_take; lia).
    destruct (drop 5 rs) as [|r [|]] eqn:Hdrop;
      try (apply (f_equal length) in Hdrop; rewrite length_drop in Hdrop;
           simpl in Hdrop; lia).
    rewrite Hsplit in Hrs |- *. apply Forall_app in Hrs as [Hrs5 Hr].
    apply Forall_cons in Hr as [Hr _].
    rewrite worker_rounds_app, run_app.
    destruct (error_rounds_retry (take 5 rs) s wid i url 0) as (Hw' & Hq' & Hd');
      [done | done | done | lia |].
    cbv zeta in Hw', Hq', Hd'. rewrite Hlen5 in Hq'. rewrite Hd in Hd'.
    destruct (error_round_give_up (run (worker_rounds wid (take 5 rs)) s)
                wid i url (0 + Z.of_nat 5) r) as (_ & Hq'' & Hd'');
      [done | done | by rewrite Hd' | done | lia |].
    cbv zeta in Hq'', Hd''. by rewrite Hq'', Hd'', Hd'. }
  split.
  - intros Hlen.
    destruct (error_rounds_retry rs s wid i url 0) as (_ & Hq' & Hd');
      [done | done | done | lia |].
    cbv zeta in Hq', Hd'. by rewrite Hq', Hd', Hd.
  - intros Hlen. destruct (Hsix Hlen) as [Hurls Hdata].
    split; [done|]. split; [done|]. intros Hidx.
    destruct (worker_rounds_consumer wid rs s) as [Hi Hy].
    unfold exec. simpl. rewrite Hdata. simpl.
    rewrite Hi, Hidx. case_decide; [|done]. simpl. by rewrite Hy.
Qed.

(** C3, amended.  In every state, a worker whose GET for the fragment
    [(i, (url, tries))] returns an error status goes on to put
    [(i, (url, tries + 1))] into the URL queue when [tries < 5], and
    [(i, b'')] into the data queue when [tries >= 5]; handling the
    response changes neither queue.  In every state in which the worker
    stands at such a put, the put waits while the queue concerned is full
    and otherwise leaves the item in that queue, the other queue as it
    was and the worker idle.  For a fragment that is alone in the URL
    queue with no tries, an empty data queue and a worker that takes it
    again after each put: up to five error statuses leave the fragment in
    the URL queue with as many tries and the data queue empty; the sixth
    puts [(i, b'')] into the data queue, and a consumer that expects [i]
    then yields the empty payload and goes on to [i + 1]. *)
Theorem http_error_retry_then_give_up (s : hls) (wid : nat) (i : Z)
    (url : string) (tries status : Z) (body : bytes) :
  workers s !! wid = Some (Fetching i url tries) → 299 < status →
  let s1 := exec s (WorkerFetched wid (HttpResponse status body)) in
  _frag_urls s1 = _frag_urls s ∧ _frag_data s1 = _frag_data s
  ∧ workers s1 !! wid
    = Some (if tries <? 5 then PutUrl (i, (url, tries + 1))
            else PutData (i, []))
  ∧ (∀ s' : hls,
       workers s' !! wid = Some (PutUrl (i, (url, tries + 1))) →
       if full (_frag_urls s') then step (WorkerPut wid) s' = None
       else ∃ s2, step (WorkerPut wid) s' = Some s2
                  ∧ _frag_urls s2
                    = pq_put url_item_leb (i, (url, tries + 1)) (_frag_urls s')
                  ∧ _frag_data s2 = _frag_data s'
                  ∧ workers s2 !! wid = Some Idle)
  ∧ (∀ s' : hls,
       workers s' !! wid = Some (PutData (i, [])) →
       if full (_frag_data s') then step (WorkerPut wid) s' = None
       else ∃ s2, step (WorkerPut wid) s' = Some s2
                  ∧ _frag_data s2 = pq_put data_item_leb (i, []) (_frag_data s')
                  ∧ _frag_urls s2 = _frag_urls s'
                  ∧ workers s2 !! wid = Some Idle)
  ∧ (∀ (s0 : hls) (rs : list (Z * bytes)),
       workers s0 !! wid = Some Idle → _frag_urls s0 = [(i, (url, 0))] →
       _frag_data s0 = [] → Forall (λ r, 299 < r.1) rs →
       let s' := run (worker_rounds wid rs) s0 in
       ((length rs ≤ 5)%nat →
        _frag_urls s' = [(i, (url, Z.of_nat (length rs)))]
        ∧ _frag_data s' = [])
       ∧ (length rs = 6%nat →
          _frag_urls s' = [] ∧ _frag_data s' = [(i, [])]
          ∧ (index s0 = i →
             yielded (exec s' Read) = yielded s0 ++ [[]]
             ∧ index (exec s' Read) = i + 1
             ∧ _frag_data (exec s' Read) = []))).
Proof.
  intros Hw Hstatus. cbv zeta.
  assert (wid < length (workers s))%nat as Hlt by by eapply lookup_lt_Some.
  rewrite (exec_fetched s wid i url tries) by done.
  rewrite on_fetched_error by done.
  split_and!.
  - by destruct (tries <? 5).
  - by destruct (tries <? 5).
  - destruct (tries <? 5); unfold set_worker; simpl;
      by apply list_lookup_insert_eq.
  - intros s' Hw'. cbn [step]. rewrite Hw'.
    destruct (full (_frag_urls s')); [done|].
    eexists. split; [done|]. cbn [_frag_urls _frag_data workers].
    split_and!; [done | done |].
    apply list_lookup_insert_eq. by eapply lookup_lt_Some.
  - intros s' Hw'. cbn [step]. rewrite Hw'.
    destruct (full (_frag_data s')); [done|].
    eexists. split; [done|]. cbn [_frag_urls _frag_data workers].
    split_and!; [done | done |].
    apply list_lookup_insert_eq. by eapply lookup_lt_Some.
  - intros s0 rs H1 H2 H3 H4. by apply error_rounds_alone.
Qed.

Lemma http_error_retry_then_give_up_witness :
  let s := Hls ((λ k : nat, (Z.of_nat (S k), ("b.ts", 0))) <$> seq 0 100) []
               (Poller 0 (Some "b.ts") 101) (Putting [])
               [Fetching 0 "a.ts" 0] 0 [] [] in
  let s1 := exec s (WorkerFetched 0 (HttpResponse 500 [])) in
  (workers s !! 0%nat = Some (Fetching 0 "a.ts" 0) ∧ 299 < 500)
  ∧ (workers s1 !! 0%nat = Some (PutUrl (0, ("a.ts", 0 + 1)))
     ∧ full (_frag_urls s1) = true
     ∧ step (WorkerPut 0) s1 = None)
  ∧ _frag_urls s1 = _frag_urls s ∧ _frag_data s1 = _frag_data s
  ∧ workers s1 !! 0%nat
    = Some (if 0 <? 5 then PutUrl (0, ("a.ts", 0 + 1)) else PutData (0, []))
  ∧ (∀ s' : hls,
       workers s' !! 0%nat = Some (PutUrl (0, ("a.ts", 0 + 1))) →
       if full (_frag_urls s') then step (WorkerPut 0) s' = None
       else ∃ s2, step (WorkerPut 0) s' = Some s2
                  ∧ _frag_urls s2
                    = pq_put url_item_leb (0, ("a.ts", 0 + 1)) (_frag_urls s')
                  ∧ _frag_data s2 = _frag_data s'
                  ∧ workers s2 !! 0%nat = Some Idle)
  ∧ (∀ s' : hls,
       workers s' !! 0%nat = Some (PutData (0, [])) →
       if full (_frag_data s') then step (WorkerPut 0) s' = None
       else ∃ s2, step (WorkerPut 0) s' = Some s2
                  ∧ _frag_data s2 = pq_put data_item_leb (0, []) (_frag_data s')
                  ∧ _frag_urls s2 = _frag_urls s'
                  ∧ workers s2 !! 0%nat = Some Idle)
  ∧ (∀ (s0 : hls) (rs : list (Z * bytes)),
       workers s0 !! 0%nat = Some Idle → _frag_urls s0 = [(0, ("a.ts", 0))] →
       _frag_data s0 = [] → Forall (λ r, 299 < r.1) rs →
       let s' := run (worker_rounds 0 rs) s0 in
       ((length rs ≤ 5)%nat →
        _frag_urls s' = [(0, ("a.ts", Z.of_nat (length rs)))]
        ∧ _frag_data s' = [])
       ∧ (length rs = 6%nat →
          _frag_urls s' = [] ∧ _frag_data s' = [(0, [])]
          ∧ (index s0 = 0 →
             yielded (exec s' Read) = yielded s0 ++ [[]]
             ∧ index (exec s' Read) = 0 + 1
             ∧ _frag_data (exec s' Read) = []))).
Proof.
  intros s s1.
  assert (workers s !! 0%nat = Some (Fetching 0 "a.ts" 0)) as H1 by reflexivity.
  assert (299 < 500) as H2 by lia.
  pose proof (http_error_retry_then_give_up s 0 0 "a.ts" 0 500 [] H1 H2)
    as Hthm.
  cbv zeta in Hthm. fold s1 in Hthm.
  split; [by split|]. split; [|exact Hthm].
  destruct Hthm as (_ & _ & Hw1 & Hput & _).
  assert (full (_frag_urls s1) = true) as Hfull by reflexivity.
  split; [exact Hw1|]. split; [exact Hfull|].
  specialize (Hput s1 Hw1). by rewrite Hfull in Hput.
Defined.

(** *** The consumer *)

(** The consumer counts what it yields. *)
Lemma step_index a s s' :
  step a s = Some s' →
  index s' - Z.of_nat (length (yielded s'))
  = index s - Z.of_nat (length (yielded s)).
Proof.
  destruct a; simpl; intros Hstep;
    repeat match type of Hstep with
           | match ?x with _ => _ end = _ => destruct x eqn:?; try discriminate
           | (let '(_, _) := ?x in _) = _ => destruct x eqn:?
           end;
    try (injection Hstep as <-; simpl; try done).
  rewrite length_app. simpl. lia.
Qed.

Lemma run_index acts s :
  index (run acts s) - Z.of_nat (length (yielded (run acts s)))
  = index s - Z.of_nat (length (yielded s)).
Proof.
  revert s. induction acts as [|a acts IH]; intros s; [done|].
  rewrite run_cons, IH. unfold exec.
  destruct (step a s) eqn:Hstep; [by eapply step_index | done].
Qed.

(** In every run the payload yielded in position [k] is the one read for
    index [k]: the expected index is the number of payloads yielded. *)
Lemma read_in_order threads t0 acts :
  index (run acts (start threads t0))
  = Z.of_nat (length (yielded (run acts (start threads t0)))).
Proof. pose proof (run_index acts (start threads t0)) as H. simpl in H. lia. Qed.

(** The poller numbers what it enqueues with [frag_idx] and counts on. *)
Lemma poller_put_numbers s s' :
  step PollerPut s = Some s' →
  ∃ frag, _frag_urls s' ≡ₚ (frag_idx (fill s), (frag, 0)) :: _frag_urls s
          ∧ frag_idx (fill s') = frag_idx (fill s) + 1.
Proof.
  simpl. destruct (pc s) as [|[|frag rest]|]; try done.
  destruct (full (_frag_urls s)); [done|]. intros [= <-]. simpl.
  exists frag. split; [apply pq_put_perm | done].
Qed.

Lemma lost_step k a s s' :
  lost k s → step a s = Some s' → lost k s' ∧ yielded s' = yielded s.
Proof.
  intros (Hi & Hn & Hu & Hd & Hw) Hstep.
  destruct s as [urls data fl p ws idx ys lg]. simpl in *.
  destruct a as [o now| |now|wid|wid o|wid|]; simpl in Hstep.
  - destruct p; try done.
    destruct (_get_fragment_urls o); injection Hstep as <-;
      (split; [|done]); repeat split; simpl; try done.
    apply Forall_fmap, Forall_true. done.
  - destruct p as [|[|frag rest]|]; try done.
    destruct (full urls); [done|]. injection Hstep as <-.
    split; [|done]. repeat split; simpl; try done; [lia|].
    rewrite pq_put_perm. constructor; [simpl; lia | done].
  - destruct p as [|[|frag rest]|]; try done.
    destruct (Qlt_le_dec _ _); injection Hstep as <-;
      (split; [|done]); repeat split; simpl; try done.
    apply Forall_fmap, Forall_true. done.
  - destruct (ws !! wid) as [[| | | |]|]; try done.
    destruct urls as [|[i [url tries]] q]; [done|]. simpl in Hstep.
    injection Hstep as <-. apply Forall_cons in Hu as [Hi' Hq].
    split; [|done]. repeat split; simpl; try done.
    by apply Forall_insert.
  - destruct (ws !! wid) as [[|i url tries| | |]|] eqn:Hwid; try done.
    destruct (on_fetched wid i url tries o) as [w lines] eqn:Hf.
    injection Hstep as <-. split; [|done]. repeat split; simpl; try done.
    apply Forall_insert; [done|].
    pose proof (Forall_lookup_1 _ _ _ _ Hw Hwid) as Hitem. simpl in Hitem.
    unfold on_fetched in Hf. destruct o as [status body|e].
    + destruct (299 <? status); [destruct (tries <? 5)|];
        injection Hf as <- <-; done.
    + by injection Hf as <- <-.
  - destruct (ws !! wid) as [[| |item|item|]|] eqn:Hwid; try done.
    + destruct (full urls); [done|]. injection Hstep as <-.
      pose proof (Forall_lookup_1 _ _ _ _ Hw Hwid) as Hitem. simpl in Hitem.
      split; [|done]. repeat split; simpl; try done.
      * rewrite pq_put_perm. by constructor.
      * by apply Forall_insert.
    + destruct (full data); [done|]. injection Hstep as <-.
      pose proof (Forall_lookup_1 _ _ _ _ Hw Hwid) as Hitem. simpl in Hitem.
      split; [|done]. repeat split; simpl; try done.
      * rewrite pq_put_perm. by constructor.
      * by apply Forall_insert.
  - destruct data as [|[p' frag] q]; [done|]. simpl in Hstep.
    apply Forall_cons in Hd as [Hp Hq]. simpl in Hp.
    case_decide; [lia|]. injection Hstep as <-.
    split; [|done]. repeat split; simpl; try done.
    rewrite pq_put_perm. by constructor.
Qed.

(** Once a sequence number is lost, nothing is ever yielded again,
    whatever the poller, the workers and the consumer go on to do. *)
Lemma lost_forever k acts s :
  lost k s → lost k (run acts s) ∧ yielded (run acts s) = yielded s.
Proof.
  revert s. induction acts as [|a acts IH]; intros s Hlost; [done|].
  rewrite run_cons. unfold exec.
  destruct (step a s) as [s1|] eqn:Hstep; simpl; [|by apply IH].
  destruct (lost_step k a s s1 Hlost Hstep) as [Hlost1 <-]. by apply IH.
Qed.

(** Two workers that finish out of order: the consumer first finds the
    payload of sequence 1, puts it back, and yields both payloads in the
    order of their sequence numbers once sequence 0 has arrived. *)
Lemma out_of_order_session :
  let acts :=
    [PollPlaylist (HttpResponse 200 ("a.ts" ++ String newline "b.ts")%string) 1%Q;
     PollerPut; PollerPut; WorkerGet 0; WorkerGet 1;
     WorkerFetched 1 (HttpResponse 200 [Byte.x42]); WorkerPut 1; Read;
     WorkerFetched 0 (HttpResponse 200 [Byte.x41]); WorkerPut 0; Read; Read] in
  yielded (run (take 8 acts) (start 2 0%Q)) = []
  ∧ yielded (run acts (start 2 0%Q)) = [[Byte.x41]; [Byte.x42]].
Proof. split; reflexivity. Qed.

(** C1 at that session: sequences 0 and 1 have been enqueued by the
    poller, the data queue holds the payload of sequence 1 only, and
    however the session goes on the consumer never yields a payload:
    neither the one for sequence 0 nor the one for sequence 1. *)
Theorem read_stalls_after_transport_error (acts : list action) :
  let s := run transport_error_session (start 1 0%Q) in
  frag_idx (fill s) = 2
  ∧ _frag_urls s = []
  ∧ _frag_data s = [(1, [Byte.x42])]
  ∧ log s = [LogException (ClientError "reset")]
  ∧ index (run acts s) = 0
  ∧ yielded (run acts s) = [].
Proof.
  intros s.
  assert (lost 0 s) as Hlost.
  { repeat split; try (vm_compute; done).
    - assert (_frag_data s = [(1, [Byte.x42])]) as -> by reflexivity.
      by repeat constructor.
    - assert (workers s = [Idle]) as -> by reflexivity.
      by repeat constructor. }
  destruct (lost_forever 0 acts s Hlost) as [(Hi & _) Hy].
  repeat split; done.
Qed.

End DownloaderFacts.

(** ** From the HLS information to the playlist url *)

Module SessionFacts.

Import FC2LiveDL FC2WebSocket WebSocketSpec WebSocketFacts SessionSpec.

Local Open Scope string_scope.
Local Open Scope list_scope.
Local Open Scope Z_scope.





End SessionFacts.

(** ** Invariants of the downloader *)

Module PipelineFacts.

Import HLSDownloader DownloaderSpec DownloaderFacts PipelineSpec.

Local Open Scope string_scope.
Local Open Scope list_scope.
Local Open Scope Z_scope.

(** *** Counting sequence numbers *)

Lemma count_key_cons {A} k (x : Z * A) q :
  count_key k (x :: q)
  = ((if decide (x.1 = k) then 1 else 0) + count_key k q)%nat.
Proof. unfold count_key. rewrite filter_cons. by case_decide. Qed.

Lemma count_key_pq_put {A} leb k (x : Z * A) q :
  count_key k (pq_put leb x q)
  = ((if decide (x.1 = k) then 1 else 0) + count_key k q)%nat.
Proof.
  rewrite <- count_key_cons. unfold count_key.
  by rewrite (pq_put_perm leb x q).
Qed.

Lemma count_key_zero {A} k (q : list (Z * A)) :
  count_key k q = 0%nat → Forall (λ item, item.1 ≠ k) q.
Proof.
  induction q as [|x q IH]; [constructor|].
  rewrite count_key_cons. case_decide; [lia|].
  intros Hq. constructor; [done | by apply IH].
Qed.

Lemma count_worker_cons k w ws :
  count_worker k (w :: ws)
  = ((if decide (worker_key w = Some k) then 1 else 0) + count_worker k ws)%nat.
Proof. unfold count_worker. rewrite filter_cons. by case_decide. Qed.

Lemma count_worker_insert k ws wid w w' :
  ws !! wid = Some w →
  (count_worker k (<[wid := w']> ws)
   + (if decide (worker_key w = Some k) then 1 else 0)
   = count_worker k ws
     + (if decide (worker_key w' = Some k) then 1 else 0))%nat.
Proof.
  revert wid. induction ws as [|v ws IH]; intros [|wid]; simpl; try done.
  - intros [= ->]. rewrite !count_worker_cons. lia.
  - intros Hw. rewrite !count_worker_cons. specialize (IH wid Hw). lia.
Qed.

Lemma count_worker_cancelled k (ws : list worker) :
  count_worker k (const Cancelled <$> ws) = 0%nat.
Proof.
  induction ws as [|w ws IH]; [done|].
  rewrite fmap_cons, count_worker_cons, IH. by case_decide.
Qed.

(** *** Order of the queues *)

Lemma url_item_leb_key a b :
  (url_item_leb a b = true → a.1 ≤ b.1)
  ∧ (url_item_leb a b = false → b.1 ≤ a.1).
Proof.
  unfold url_item_leb.
  destruct (Z.ltb_spec a.1 b.1), (Z.eqb_spec a.1 b.1); simpl; split;
    intros; try lia; done.
Qed.

Lemma data_item_leb_key a b :
  (data_item_leb a b = true → a.1 ≤ b.1)
  ∧ (data_item_leb a b = false → b.1 ≤ a.1).
Proof.
  unfold data_item_leb.
  destruct (Z.ltb_spec a.1 b.1), (Z.eqb_spec a.1 b.1); simpl; split;
    intros; try lia; done.
Qed.

Lemma pq_put_sorted {A} (leb : Z * A → Z * A → bool) x q :
  (∀ a b, (leb a b = true → a.1 ≤ b.1) ∧ (leb a b = false → b.1 ≤ a.1)) →
  key_sorted q → Forall (λ item, item.1 ≠ x.1) q →
  key_sorted (pq_put leb x q).
Proof.
  intros Hleb Hs Hx. induction Hs as [|y q Hq IH Hy]; simpl.
  - repeat constructor.
  - apply Forall_cons in Hx as [Hxy Hx].
    destruct (leb x y) eqn:Hl.
    + apply Hleb in Hl. constructor; [by constructor|].
      constructor; [lia|].
      eapply Forall_impl; [exact Hy|]. simpl. intros; lia.
    + apply Hleb in Hl. constructor; [by apply IH|].
      rewrite pq_put_perm. constructor; [lia | done].
Qed.

Lemma key_sorted_tail {A} (x : Z * A) q : key_sorted (x :: q) → key_sorted q.
Proof. by inversion 1. Qed.

(** Putting back the head of a sorted queue gives the queue back. *)
Lemma pq_put_head {A} (leb : Z * A → Z * A → bool) x q :
  (∀ a b, a.1 < b.1 → leb a b = true) →
  key_sorted (x :: q) → pq_put leb x q = x :: q.
Proof.
  intros Hleb Hs. destruct q as [|y q]; [done|]. simpl.
  rewrite Hleb; [done|]. inversion Hs as [|? ? _ Hx]; subst.
  by apply Forall_cons in Hx as [? _].
Qed.

Lemma count_worker_lookup k ws wid w :
  ws !! wid = Some w → worker_key w = Some k → (0 < count_worker k ws)%nat.
Proof.
  revert wid. induction ws as [|v ws IH]; intros [|wid]; simpl; try done.
  - intros [= ->] Hk. rewrite count_worker_cons. case_decide; [lia | done].
  - intros Hw Hk. rewrite count_worker_cons. specialize (IH wid Hw Hk). lia.
Qed.

Lemma full_false {A} (q : list A) : full q = false → (length q < maxsize)%nat.
Proof. unfold full. rewrite bool_decide_eq_false. lia. Qed.

Lemma pq_put_length {A} (leb : A → A → bool) x q :
  length (pq_put leb x q) = S (length q).
Proof. by rewrite (pq_put_perm leb x q). Qed.

Lemma data_item_leb_lt a b : a.1 < b.1 → data_item_leb a b = true.
Proof.
  intros Hlt. unfold data_item_leb.
  by rewrite (proj2 (Z.ltb_lt _ _) Hlt).
Qed.

Lemma on_fetched_key wid i url tries o :
  worker_key (on_fetched wid i url tries o).1 = Some i
  ∨ worker_key (on_fetched wid i url tries o).1 = None.
Proof.
  unfold on_fetched. destruct o as [status body|reason]; [|by right].
  destruct (299 <? status); [destruct (tries <? 5)|]; by left.
Qed.

Lemma count_worker_idle k n : count_worker k (replicate n Idle) = 0%nat.
Proof.
  induction n as [|n IH]; [done|].
  simpl. rewrite count_worker_cons, IH. by case_decide.
Qed.

Lemma inv_start threads t0 : pipeline_inv (start threads t0).
Proof.
  unfold pipeline_inv, held. simpl. split_and!; try done.
  - intros k. rewrite count_worker_idle. unfold count_key. simpl. lia.
  - intros k. rewrite count_worker_idle. unfold count_key. simpl. lia.
  - constructor.
  - constructor.
  - unfold maxsize. lia.
  - unfold maxsize. lia.
Qed.

Lemma inv_finish s lines : pipeline_inv s → pipeline_inv (finish s lines).
Proof.
  intros (H1 & H2 & H3 & H4 & H5 & H6 & H7 & H8).
  unfold pipeline_inv, held in *. simpl. split_and!; try done.
  - intros k. rewrite count_worker_cancelled. specialize (H2 k). lia.
  - intros k Hk. rewrite count_worker_cancelled in Hk. apply H3. lia.
  - intros _. apply Forall_fmap, Forall_true. done.
Qed.

(** A step that leaves the queues, the workers, the counters and whether
    the poller has returned as they are keeps the invariant. *)
Lemma inv_same s s' :
  pipeline_inv s →
  _frag_urls s' = _frag_urls s → _frag_data s' = _frag_data s →
  workers s' = workers s → index s' = index s →
  frag_idx (fill s') = frag_idx (fill s) →
  (pc s' = Returned → pc s = Returned) →
  pipeline_inv s'.
Proof.
  intros (H1 & H2 & H3 & H4 & H5 & H6 & H7 & H8) Hu Hd Hw Hi Hf Hp.
  unfold pipeline_inv, held in *. rewrite Hu, Hd, Hw, Hi, Hf.
  split_and!; try done. intros Hret. by apply H8, Hp.
Qed.

Lemma inv_step a s s' : pipeline_inv s → step a s = Some s' → pipeline_inv s'.
Proof.
  intros Hinv Hstep.
  destruct a as [o now| |now|wid|wid o|wid|]; simpl in Hstep.
  - (* PollPlaylist *)
    destruct (pc s) eqn:Hpc; try done.
    destruct (_get_fragment_urls o); injection Hstep as <-;
      [|by apply inv_finish].
    by apply (inv_same s).
  - (* PollerPut *)
    destruct (pc s) as [|[|frag rest]|] eqn:Hpc; try done.
    destruct (full (_frag_urls s)) eqn:Hfull; [done|]. injection Hstep as <-.
    destruct Hinv as (H1 & H2 & H3 & H4 & H5 & H6 & H7 & H8).
    apply full_false in Hfull.
    assert (held (frag_idx (fill s)) s = 0%nat) as Hfresh.
    { destruct (held (frag_idx (fill s)) s) eqn:Hh; [done|].
      specialize (H3 (frag_idx (fill s))). lia. }
    unfold pipeline_inv, held in *.
    cbn [_frag_urls _frag_data workers index fill pc frag_idx].
    unfold url_item, data_item in *.
    split_and!.
    + lia.
    + intros k. rewrite count_key_pq_put. simpl. specialize (H2 k).
      case_decide; [subst k|]; lia.
    + intros k Hk. rewrite count_key_pq_put in Hk. simpl in Hk.
      case_decide; [subst k; lia|]. specialize (H3 k). lia.
    + apply pq_put_sorted; [apply url_item_leb_key | done |].
      apply count_key_zero. simpl. lia.
    + done.
    + rewrite pq_put_length. lia.
    + done.
    + done.
  - (* PollerCheck *)
    destruct (pc s) as [|[|frag rest]|] eqn:Hpc; try done.
    destruct (Qlt_le_dec _ _); injection Hstep as <-; [by apply inv_finish|].
    by apply (inv_same s).
  - (* WorkerGet *)
    destruct (workers s !! wid) as [[| | | |]|] eqn:Hw; try done.
    destruct (_frag_urls s) as [|[i [url tries]] q] eqn:Hq; [done|].
    simpl in Hstep. injection Hstep as <-.
    destruct Hinv as (H1 & H2 & H3 & H4 & H5 & H6 & H7 & H8).
    unfold pipeline_inv, held in *.
    cbn [_frag_urls _frag_data workers index fill pc frag_idx].
    unfold url_item, data_item in *.
    rewrite Hq in *.
    assert (∀ k, (count_key k q + count_key k (_frag_data s)
                  + count_worker k (<[wid := Fetching i url tries]> (workers s))
                  = count_key k ((i, (url, tries)) :: q)
                    + count_key k (_frag_data s) + count_worker k (workers s))%nat)
      as Hsame.
    { intros k. rewrite count_key_cons. simpl.
      pose proof (count_worker_insert k _ wid _ (Fetching i url tries) Hw) as Hi.
      simpl in Hi. repeat case_decide; try done; try lia; congruence. }
    split_and!.
    + done.
    + intros k. rewrite Hsame. apply H2.
    + intros k Hk. rewrite Hsame in Hk. by apply H3.
    + by eapply key_sorted_tail.
    + done.
    + simpl in H6. lia.
    + done.
    + intros Hret. specialize (H8 Hret).
      eapply Forall_lookup_1 in H8; [|exact Hw]. done.
  - (* WorkerFetched *)
    destruct (workers s !! wid) as [[|i url tries| | |]|] eqn:Hw; try done.
    destruct (on_fetched wid i url tries o) as [w lines] eqn:Hf.
    injection Hstep as <-.
    destruct Hinv as (H1 & H2 & H3 & H4 & H5 & H6 & H7 & H8).
    unfold set_worker.
    unfold pipeline_inv, held in *.
    cbn [_frag_urls _frag_data workers index fill pc frag_idx].
    unfold url_item, data_item in *.
    assert (∀ k, (count_worker k (<[wid := w]> (workers s))
                  ≤ count_worker k (workers s))%nat) as Hle.
    { intros k.
      pose proof (count_worker_insert k _ wid _ w Hw) as Hi. simpl in Hi.
      pose proof (on_fetched_key wid i url tries o) as Hk. rewrite Hf in Hk.
      simpl in Hk. repeat case_decide; try lia; destruct Hk; congruence. }
    split_and!.
    + done.
    + intros k. specialize (H2 k). specialize (Hle k). lia.
    + intros k Hk. apply H3. specialize (Hle k). lia.
    + done.
    + done.
    + done.
    + done.
    + intros Hret. specialize (H8 Hret).
      eapply Forall_lookup_1 in H8; [|exact Hw]. done.
  - (* WorkerPut *)
    destruct (workers s !! wid) as [[| |item|item|]|] eqn:Hw; try done.
    + destruct (full (_frag_urls s)) eqn:Hfull; [done|]. injection Hstep as <-.
      apply full_false in Hfull.
      destruct Hinv as (H1 & H2 & H3 & H4 & H5 & H6 & H7 & H8).
      unfold pipeline_inv, held in *.
    cbn [_frag_urls _frag_data workers index fill pc frag_idx].
    unfold url_item, data_item in *.
      assert (∀ k, (count_key k (pq_put url_item_leb item (_frag_urls s))
                    + count_key k (_frag_data s)
                    + count_worker k (<[wid := Idle]> (workers s))
                    = count_key k (_frag_urls s)
                      + count_key k (_frag_data s) + count_worker k (workers s))%nat)
        as Hsame.
      { intros k. unfold url_item, data_item. rewrite count_key_pq_put.
        pose proof (count_worker_insert k _ wid _ Idle Hw) as Hi.
        simpl in Hi. repeat case_decide; try done; try lia; congruence. }
      split_and!.
      * done.
      * intros k. rewrite Hsame. apply H2.
      * intros k Hk. rewrite Hsame in Hk. by apply H3.
      * apply pq_put_sorted; [apply url_item_leb_key | done |].
        apply count_key_zero.
        pose proof (count_worker_lookup item.1 _ wid _ Hw eq_refl).
        specialize (H2 item.1). lia.
      * done.
      * rewrite pq_put_length. lia.
      * done.
      * intros Hret. specialize (H8 Hret).
        eapply Forall_lookup_1 in H8; [|exact Hw]. done.
    + destruct (full (_frag_data s)) eqn:Hfull; [done|]. injection Hstep as <-.
      apply full_false in Hfull.
      destruct Hinv as (H1 & H2 & H3 & H4 & H5 & H6 & H7 & H8).
      unfold pipeline_inv, held in *.
    cbn [_frag_urls _frag_data workers index fill pc frag_idx].
    unfold url_item, data_item in *.
      assert (∀ k, (count_key k (_frag_urls s)
                    + count_key k (pq_put data_item_leb item (_frag_data s))
                    + count_worker k (<[wid := Idle]> (workers s))
                    = count_key k (_frag_urls s)
                      + count_key k (_frag_data s) + count_worker k (workers s))%nat)
        as Hsame.
      { intros k. unfold url_item, data_item. rewrite count_key_pq_put.
        pose proof (count_worker_insert k _ wid _ Idle Hw) as Hi.
        simpl in Hi. repeat case_decide; try done; try lia; congruence. }
      split_and!.
      * done.
      * intros k. rewrite Hsame. apply H2.
      * intros k Hk. rewrite Hsame in Hk. by apply H3.
      * done.
      * apply pq_put_sorted; [apply data_item_leb_key | done |].
        apply count_key_zero.
        pose proof (count_worker_lookup item.1 _ wid _ Hw eq_refl).
        specialize (H2 item.1). lia.
      * done.
      * rewrite pq_put_length. lia.
      * intros Hret. specialize (H8 Hret).
        eapply Forall_lookup_1 in H8; [|exact Hw]. done.
  - (* Read *)
    destruct (_frag_data s) as [|[p frag] q] eqn:Hq; [done|]. simpl in Hstep.
    destruct Hinv as (H1 & H2 & H3 & H4 & H5 & H6 & H7 & H8).
    case_decide as Hp; injection Hstep as <-.
    + unfold pipeline_inv, held in *.
    cbn [_frag_urls _frag_data workers index fill pc frag_idx].
    unfold url_item, data_item in *.
      rewrite Hq in *.
      assert (∀ k, (count_key k ((p, frag) :: q)
                    = (if decide (p = k) then 1 else 0) + count_key k q)%nat)
        as Hc by (intros k; by rewrite count_key_cons).
      pose proof (H3 p) as Hp3. pose proof (H2 p) as Hp2.
      rewrite Hc in Hp3, Hp2. rewrite decide_True in Hp3, Hp2 by done.
      split_and!.
      * lia.
      * intros k. specialize (H2 k). rewrite Hc in H2. lia.
      * intros k Hk. destruct (decide (k = p)) as [->|Hkp]; [lia|].
        specialize (H3 k). rewrite Hc in H3.
        rewrite decide_False in H3 by done. lia.
      * done.
      * by eapply key_sorted_tail.
      * done.
      * simpl in H7. lia.
      * done.
    + assert (key_sorted ((p, frag) :: q)) as Hs
        by (rewrite Hq in H5; exact H5).
      replace (pq_put data_item_leb (p, frag) q) with ((p, frag) :: q)
        by (symmetry; exact (pq_put_head data_item_leb (p, frag) q
                               data_item_leb_lt Hs)).
      unfold pipeline_inv, held in *.
    cbn [_frag_urls _frag_data workers index fill pc frag_idx].
    unfold url_item, data_item in *.
      rewrite Hq in *. by split_and!.
Qed.

Lemma inv_run acts s : pipeline_inv s → pipeline_inv (run acts s).
Proof.
  revert s. induction acts as [|a acts IH]; intros s Hinv; [done|].
  rewrite run_cons. apply IH. unfold exec.
  destruct (step a s) eqn:Hstep; [by eapply inv_step | done].
Qed.

Lemma inv_reachable threads t0 acts :
  pipeline_inv (run acts (start threads t0)).
Proof. apply inv_run, inv_start. Qed.

(** X1: whatever the tasks do, neither queue ever holds more than 100
    items. *)
Theorem queues_bounded (threads : nat) (t0 : time) (acts : list action) :
  (length (_frag_urls (run acts (start threads t0))) ≤ 100)%nat
  ∧ (length (_frag_data (run acts (start threads t0))) ≤ 100)%nat.
Proof.
  destruct (inv_reachable threads t0 acts)
    as (_ & _ & _ & _ & _ & H6 & H7 & _).
  by split.
Qed.

(** X2: in every state of a download a sequence number is in at most one
    place (an item of a queue or a worker), and a sequence number that is
    somewhere is one the poller has given out and the consumer has not
    yielded yet. *)
Theorem sequence_numbers_unique (threads : nat) (t0 : time)
    (acts : list action) (k : Z) :
  let s := run acts (start threads t0) in
  held k s = 0%nat
  ∨ (held k s = 1%nat ∧ index s ≤ k < frag_idx (fill s)).
Proof.
  intros s.
  destruct (inv_reachable threads t0 acts) as (_ & H2 & H3 & _).
  fold s in H2, H3. specialize (H2 k). specialize (H3 k).
  destruct (held k s) as [|[|n]]; [by left | right | lia].
  split; [done | apply H3; lia].
Qed.

Lemma held_data_head s p frag q :
  _frag_data s = (p, frag) :: q → (0 < held p s)%nat.
Proof.
  intros Hq. unfold held. rewrite Hq. unfold data_item.
  rewrite count_key_cons. simpl. rewrite decide_True by done. lia.
Qed.

Lemma key_sorted_head {A} (x : Z * A) q :
  key_sorted (x :: q) → Forall (λ item, x.1 < item.1) q.
Proof. by inversion 1. Qed.

(** X3: a worker that takes an item from the URL queue takes the one with
    the lowest sequence number. *)
Theorem worker_takes_lowest (threads : nat) (t0 : time) (acts : list action)
    (wid : nat) (s' : hls) :
  step (WorkerGet wid) (run acts (start threads t0)) = Some s' →
  ∃ i url tries,
    workers s' !! wid = Some (Fetching i url tries)
    ∧ _frag_urls (run acts (start threads t0)) = (i, (url, tries)) :: _frag_urls s'
    ∧ Forall (λ item, i < item.1) (_frag_urls s').
Proof.
  destruct (inv_reachable threads t0 acts) as (_ & _ & _ & H4 & _).
  set (s := run acts (start threads t0)) in *. simpl.
  destruct (workers s !! wid) as [[| | | |]|] eqn:Hw; try done.
  destruct (_frag_urls s) as [|[i [url tries]] q] eqn:Hq; [done|].
  simpl. intros [= <-]. exists i, url, tries. simpl. split_and!; [|done|].
  - apply list_lookup_insert_eq. by eapply lookup_lt_Some.
  - by apply key_sorted_head in H4.
Qed.

Lemma worker_takes_lowest_witness :
  let acts :=
    [PollPlaylist (HttpResponse 200 ("a.ts" ++ String newline "b.ts")%string) 1%Q;
     PollerPut; PollerPut] in
  let s' := Hls [(1, ("b.ts", 0))] [] (Poller 1 (Some "b.ts") 2) (Putting [])
                [Fetching 0 "a.ts" 0] 0 [] [] in
  step (WorkerGet 0) (run acts (start 1 0%Q)) = Some s'
  ∧ ∃ i url tries,
      workers s' !! 0%nat = Some (Fetching i url tries)
      ∧ _frag_urls (run acts (start 1 0%Q)) = (i, (url, tries)) :: _frag_urls s'
      ∧ Forall (λ item, i < item.1) (_frag_urls s').
Proof.
  intros acts s'.
  assert (step (WorkerGet 0) (run acts (start 1 0%Q)) = Some s') as H
    by reflexivity.
  split; [exact H|]. exact (worker_takes_lowest 1 0%Q acts 0 s' H).
Defined.

(** X4: when the data queue holds a payload for the sequence number the
    consumer expects, a turn of [_read] yields exactly that payload and
    moves on to the next sequence number; otherwise the turn leaves the
    whole state as it was. *)
Theorem read_yields_expected (threads : nat) (t0 : time) (acts : list action)
    (s' : hls) :
  let s := run acts (start threads t0) in
  step Read s = Some s' →
  (∃ frag, _frag_data s = (index s, frag) :: _frag_data s'
           ∧ yielded s' = yielded s ++ [frag] ∧ index s' = index s + 1)
  ∨ (s' = s ∧ Forall (λ item, index s < item.1) (_frag_data s)).
Proof.
  intros s.
  destruct (inv_reachable threads t0 acts) as (_ & H2 & H3 & _ & H5 & _).
  fold s in H2, H3, H5. simpl.
  destruct (_frag_data s) as [|[p frag] q] eqn:Hq; [done|]. simpl.
  case_decide as Hp; intros [= <-]; simpl.
  - left. exists frag. by subst p.
  - right.
    assert (pq_put data_item_leb (p, frag) q = (p, frag) :: q) as ->
      by exact (pq_put_head data_item_leb (p, frag) q data_item_leb_lt H5).
    split; [destruct s; simpl in *; by subst|].
    assert (index s ≤ p) as Hle.
    { apply (H3 p). by eapply held_data_head. }
    constructor; [simpl; lia|].
    apply key_sorted_head in H5.
    eapply Forall_impl; [exact H5|]. simpl. intros; lia.
Qed.

Lemma read_yields_expected_witness :
  let acts :=
    [PollPlaylist (HttpResponse 200 ("a.ts" ++ String newline "b.ts")%string) 1%Q;
     PollerPut; PollerPut; WorkerGet 0; WorkerGet 1;
     WorkerFetched 1 (HttpResponse 200 [Byte.x42]); WorkerPut 1] in
  let s := run acts (start 2 0%Q) in
  step Read s = Some s
  ∧ ((∃ frag, _frag_data s = (index s, frag) :: _frag_data s
              ∧ yielded s = yielded s ++ [frag] ∧ index s = index s + 1)
     ∨ (s = s ∧ Forall (λ item, index s < item.1) (_frag_data s))).
Proof.
  intros acts s.
  assert (step Read s = Some s) as H by reflexivity.
  split; [exact H|]. exact (read_yields_expected 2 0%Q acts s H).
Defined.

(** The payload of the expected sequence number is the head of the data
    queue whenever the queue holds it. *)
Lemma expected_is_head threads t0 acts frag :
  let s := run acts (start threads t0) in
  (index s, frag) ∈ _frag_data s →
  ∃ q, _frag_data s = (index s, frag) :: q.
Proof.
  intros s Hin.
  destruct (inv_reachable threads t0 acts) as (_ & H2 & H3 & _ & H5 & _).
  fold s in H2, H3, H5.
  destruct (_frag_data s) as [|[p f] q] eqn:Hq; [by apply elem_of_nil in Hin|].
  assert (index s ≤ p) as Hle.
  { apply (H3 p). by eapply held_data_head. }
  apply key_sorted_head in H5. rewrite Forall_forall in H5.
  apply elem_of_cons in Hin as [[= <- <-]|Hin]; [by eexists|].
  apply H5 in Hin. simpl in Hin. lia.
Qed.

(** *** After the poller has returned *)

Lemma returned_step a s s' :
  pc s = Returned → Forall (λ w, w = Cancelled) (workers s) →
  step a s = Some s' →
  pc s' = Returned ∧ workers s' = workers s ∧ _frag_urls s' = _frag_urls s
  ∧ a = Read.
Proof.
  intros Hpc Hws Hstep.
  destruct a as [o now| |now|wid|wid o|wid|]; simpl in Hstep;
    try (rewrite Hpc in Hstep; done);
    try (destruct (workers s !! wid) as [w|] eqn:Hw; [|done];
         eapply Forall_lookup_1 in Hws; [|exact Hw]; by subst w).
  destruct (pq_get (_frag_data s)) as [[[p frag] q]|]; [|done].
  case_decide; by injection Hstep as <-.
Qed.

(** X5: once [_fill_queue] has returned, the workers are cancelled for
    good: the URL queue stays as it is, so what is still in it is never
    fetched, and the data queue receives nothing new. *)
Theorem nothing_fetched_after_return (threads : nat) (t0 : time)
    (acts acts' : list action) :
  let s := run acts (start threads t0) in
  pc s = Returned →
  pc (run acts' s) = Returned
  ∧ Forall (λ w, w = Cancelled) (workers (run acts' s))
  ∧ _frag_urls (run acts' s) = _frag_urls s
  ∧ ∃ n, _frag_data (run acts' s) = drop n (_frag_data s).
Proof.
  intros s Hpc.
  assert (pipeline_inv s) as Hinv by apply inv_reachable.
  clearbody s. revert s Hpc Hinv.
  induction acts' as [|a acts' IH]; intros s Hpc Hinv.
  - simpl. destruct Hinv as (_ & _ & _ & _ & _ & _ & _ & H8).
    split_and!; [done | by apply H8 | done | by exists 0%nat].
  - rewrite run_cons. unfold exec.
    destruct (step a s) as [s1|] eqn:Hstep; simpl; [|by apply IH].
    pose proof Hinv as (_ & _ & H3 & _ & H5 & _ & _ & H8).
    destruct (returned_step a s s1 Hpc (H8 Hpc) Hstep) as (Hpc1 & Hw1 & Hu1 & ->).
    destruct (IH s1 Hpc1 (inv_step _ _ _ Hinv Hstep)) as (Hp & Hw & Hu & n & Hd).
    split_and!; [done | done | congruence |].
    simpl in Hstep.
    destruct (_frag_data s) as [|[p frag] q] eqn:Hq; [done|]. simpl in Hstep.
    case_decide; injection Hstep as <-; simpl in *.
    + exists (S n). by rewrite Hd.
    + exists n. rewrite Hd. f_equal.
      exact (pq_put_head data_item_leb (p, frag) q data_item_leb_lt H5).
Qed.

Lemma nothing_fetched_after_return_witness :
  let acts :=
    [PollPlaylist (HttpResponse 200 ("a.ts" ++ String newline "b.ts")%string) 1%Q;
     PollerPut; PollerPut; WorkerGet 0; PollerCheck 2%Q;
     PollPlaylist (HttpResponse 403 EmptyString) 3%Q] in
  let acts' := [WorkerFetched 0 (HttpResponse 200 [Byte.x41]); WorkerPut 0;
                WorkerGet 0; Read] in
  let s := run acts (start 1 0%Q) in
  pc s = Returned
  ∧ _frag_urls s = [(1, ("b.ts", 0))]
  ∧ pc (run acts' s) = Returned
  ∧ Forall (λ w, w = Cancelled) (workers (run acts' s))
  ∧ _frag_urls (run acts' s) = _frag_urls s
  ∧ ∃ n, _frag_data (run acts' s) = drop n (_frag_data s).
Proof.
  intros acts acts' s.
  assert (pc s = Returned) as H by reflexivity.
  split; [exact H|]. split; [reflexivity|].
  exact (nothing_fetched_after_return 1 0%Q acts acts' H).
Defined.

(** *** What the poller enqueues *)

Lemma index_app_fresh {A} `{EqDecision A} (x : A) l1 l2 :
  x ∉ l1 → Py.index x (l1 ++ x :: l2) = Some (length l1).
Proof.
  induction l1 as [|y l1 IH]; simpl.
  - intros _. by rewrite decide_True.
  - intros Hx. apply not_elem_of_cons in Hx as [Hxy Hx].
    rewrite decide_False by done. by rewrite IH.
Qed.

Lemma index_absent {A} `{EqDecision A} (x : A) l : x ∉ l → Py.index x l = None.
Proof.
  induction l as [|y l IH]; [done|]. simpl.
  intros Hx. apply not_elem_of_cons in Hx as [Hxy Hx].
  rewrite decide_False by done. by rewrite IH.
Qed.

(** X6: a poll whose playlist still shows the last enqueued fragment
    leaves for the queue exactly the entries after that fragment's first
    occurrence (nothing for an unchanged playlist), and takes a new
    timestamp only if there are such entries. *)
Theorem poll_enqueues_only_new (s : hls) (o : http_outcome string)
    (now : time) (f : string) (window fresh : list string) :
  pc s = Polling → last_fragment (fill s) = Some f → f ∉ window →
  _get_fragment_urls o = Ok (window ++ f :: fresh) →
  ∃ s', step (PollPlaylist o now) s = Some s'
        ∧ pc s' = Putting fresh
        ∧ _frag_urls s' = _frag_urls s
        ∧ frag_idx (fill s') = frag_idx (fill s)
        ∧ last_fragment_timestamp (fill s')
          = match fresh with
            | [] => last_fragment_timestamp (fill s)
            | _ :: _ => now
            end.
Proof.
  intros Hpc Hlast Hf Hfrags. simpl. rewrite Hpc, Hfrags. eexists.
  split; [done|]. simpl. unfold new_index. rewrite Hlast.
  rewrite index_app_fresh by done.
  split_and!; try done.
  - f_equal. rewrite cons_middle, app_assoc. apply drop_app_length'.
    rewrite length_app. simpl. lia.
  - rewrite length_app. simpl.
    destruct fresh as [|x fresh]; simpl.
    + rewrite (proj2 (Z.ltb_ge 0 _)); [done | lia].
    + rewrite (proj2 (Z.ltb_lt 0 _)); [done | lia].
Qed.

Lemma poll_enqueues_only_new_witness :
  let s := Hls [] [] (Poller 1 (Some "b.ts") 2) Polling [Idle] 2 [] [] in
  let o := HttpResponse 200 ("a.ts" ++ String newline ("b.ts"
             ++ String newline "c.ts"))%string in
  pc s = Polling ∧ last_fragment (fill s) = Some "b.ts" ∧ ("b.ts" ∉ ["a.ts"])
  ∧ _get_fragment_urls o = Ok (["a.ts"] ++ "b.ts" :: ["c.ts"])
  ∧ ∃ s', step (PollPlaylist o 5%Q) s = Some s'
          ∧ pc s' = Putting ["c.ts"]
          ∧ _frag_urls s' = _frag_urls s
          ∧ frag_idx (fill s') = frag_idx (fill s)
          ∧ last_fragment_timestamp (fill s') = 5%Q.
Proof.
  intros s o.
  assert ("b.ts" ∉ ["a.ts"]) as H3.
  { intros H. apply elem_of_cons in H as [H|H]; [discriminate|].
    by apply elem_of_nil in H. }
  assert (_get_fragment_urls o = Ok (["a.ts"] ++ "b.ts" :: ["c.ts"])) as H4
    by reflexivity.
  split; [reflexivity|]. split; [reflexivity|]. split; [exact H3|].
  split; [exact H4|].
  exact (poll_enqueues_only_new s o 5%Q "b.ts" ["a.ts"] ["c.ts"]
           eq_refl eq_refl H3 H4).
Defined.

(** X7: when the last enqueued fragment is no longer in the playlist (or
    nothing has been enqueued yet), the poll leaves the whole playlist for
    the queue, entries that were enqueued before included. *)
Theorem poll_restarts_without_last (s : hls) (o : http_outcome string)
    (now : time) (frags : list string) :
  pc s = Polling →
  (∀ f, last_fragment (fill s) = Some f → f ∉ frags) →
  _get_fragment_urls o = Ok frags →
  ∃ s', step (PollPlaylist o now) s = Some s' ∧ pc s' = Putting frags
        ∧ frag_idx (fill s') = frag_idx (fill s).
Proof.
  intros Hpc Hlast Hfrags. simpl. rewrite Hpc, Hfrags. eexists.
  split; [done|]. simpl. split; [|done]. unfold new_index.
  destruct (last_fragment (fill s)) as [f|]; [|done].
  by rewrite index_absent by by apply Hlast.
Qed.

Lemma poll_restarts_without_last_witness :
  let s := Hls [] [] (Poller 1 (Some "a.ts") 1) Polling [Idle] 1 [] [] in
  let o := HttpResponse 200 ("b.ts" ++ String newline "c.ts")%string in
  pc s = Polling
  ∧ (∀ f, last_fragment (fill s) = Some f → f ∉ ["b.ts"; "c.ts"])
  ∧ _get_fragment_urls o = Ok ["b.ts"; "c.ts"]
  ∧ ∃ s', step (PollPlaylist o 5%Q) s = Some s'
          ∧ pc s' = Putting ["b.ts"; "c.ts"]
          ∧ frag_idx (fill s') = frag_idx (fill s).
Proof.
  intros s o.
  assert (∀ f, last_fragment (fill s) = Some f → f ∉ ["b.ts"; "c.ts"]) as H2.
  { intros f [= <-] H. repeat (apply elem_of_cons in H as [H|H]; [discriminate|]).
    by apply elem_of_nil in H. }
  assert (_get_fragment_urls o = Ok ["b.ts"; "c.ts"]) as H3 by reflexivity.
  split; [reflexivity|]. split; [exact H2|]. split; [exact H3|].
  exact (poll_restarts_without_last s o 5%Q ["b.ts"; "c.ts"] eq_refl H2 H3).
Defined.

Lemma numbered_cons n frag frags :
  numbered n (frag :: frags) = (n, (frag, 0)) :: numbered (n + 1) frags.
Proof.
  unfold numbered. rewrite imap_cons. f_equal; [by rewrite Z.add_0_r|].
  apply imap_ext. intros j x _. cbv beta. unfold compose. f_equal. lia.
Qed.

Lemma exec_poller_put s frag rest :
  pc s = Putting (frag :: rest) → full (_frag_urls s) = false →
  exec s PollerPut
  = Hls (pq_put url_item_leb (frag_idx (fill s), (frag, 0)) (_frag_urls s))
        (_frag_data s)
        (Poller (last_fragment_timestamp (fill s)) (Some frag)
                (frag_idx (fill s) + 1))
        (Putting rest) (workers s) (index s) (yielded s) (log s).
Proof. intros Hpc Hfull. unfold exec. simpl. by rewrite Hpc, Hfull. Qed.

(** X8: the fragments a poll has found are enqueued in playlist order with
    consecutive sequence numbers, counted on from [frag_idx], each with
    zero tries; the last of them becomes [last_fragment]. *)
Theorem poller_numbers_consecutively (s : hls) (fresh : list string) :
  pc s = Putting fresh →
  (length (_frag_urls s) + length fresh ≤ maxsize)%nat →
  let s' := run (replicate (length fresh) PollerPut) s in
  _frag_urls s' ≡ₚ _frag_urls s ++ numbered (frag_idx (fill s)) fresh
  ∧ frag_idx (fill s') = frag_idx (fill s) + Z.of_nat (length fresh)
  ∧ last_fragment (fill s')
    = from_option Some (last_fragment (fill s)) (last fresh)
  ∧ pc s' = Putting []
  ∧ _frag_data s' = _frag_data s ∧ workers s' = workers s.
Proof.
  revert s. induction fresh as [|frag rest IH]; intros s Hpc Hlen.
  - simpl. rewrite app_nil_r, Z.add_0_r. by split_and!.
  - cbv zeta. simpl replicate. rewrite run_cons.
    simpl in Hlen.
    rewrite (exec_poller_put s frag rest) by
      (done || (unfold full; apply bool_decide_eq_false; lia)).
    destruct (IH (Hls (pq_put url_item_leb (frag_idx (fill s), (frag, 0))
                              (_frag_urls s))
                      (_frag_data s)
                      (Poller (last_fragment_timestamp (fill s)) (Some frag)
                              (frag_idx (fill s) + 1))
                      (Putting rest) (workers s) (index s) (yielded s) (log s)))
      as (H1 & H2 & H3 & H4 & H5 & H6); [done | |].
    { simpl. rewrite pq_put_length. lia. }
    cbv zeta in H1, H2, H3, H4, H5, H6. simpl in H1, H2, H3, H5, H6.
    split_and!; try done.
    + rewrite H1, numbered_cons, pq_put_perm.
      by rewrite <- Permutation_middle.
    + rewrite H2. simpl length. lia.
    + rewrite H3, last_cons. by destruct (last rest).
Qed.

Lemma poller_numbers_consecutively_witness :
  let s := Hls [(3, ("a.ts", 2))] [] (Poller 1 (Some "b.ts") 5)
               (Putting ["c.ts"; "d.ts"]) [Idle] 2 [] [] in
  let s' := run (replicate 2 PollerPut) s in
  pc s = Putting ["c.ts"; "d.ts"]
  ∧ (length (_frag_urls s) + length ["c.ts"; "d.ts"] ≤ maxsize)%nat
  ∧ _frag_urls s' ≡ₚ _frag_urls s ++ numbered 5 ["c.ts"; "d.ts"]
  ∧ frag_idx (fill s') = 5 + Z.of_nat 2
  ∧ last_fragment (fill s') = Some "d.ts"
  ∧ pc s' = Putting []
  ∧ _frag_data s' = _frag_data s ∧ workers s' = workers s.
Proof.
  intros s s'.
  assert (length (_frag_urls s) + length ["c.ts"; "d.ts"] ≤ maxsize)%nat as H2
    by (vm_compute; lia).
  split; [reflexivity|]. split; [exact H2|].
  exact (poller_numbers_consecutively s ["c.ts"; "d.ts"] eq_refl H2).
Defined.

(** *** Fetching *)

Lemma on_fetched_success wid i url tries status body :
  status ≤ 299 →
  on_fetched wid i url tries (HttpResponse status body) = (PutData (i, body), []).
Proof.
  intros Hs. unfold on_fetched. by rewrite (proj2 (Z.ltb_ge 299 status) Hs).
Qed.

(** A round that ends with a good status, for a fragment that is alone in
    the URL queue: its body goes to the data queue under its sequence
    number. *)
Lemma success_round s wid i url tries r :
  workers s !! wid = Some Idle →
  _frag_urls s = [(i, (url, tries))] →
  full (_frag_data s) = false →
  r.1 ≤ 299 →
  let s' := run (worker_rounds wid [r]) s in
  workers s' !! wid = Some Idle
  ∧ _frag_urls s' = []
  ∧ _frag_data s' = pq_put data_item_leb (i, r.2) (_frag_data s)
  ∧ pc s' = pc s ∧ fill s' = fill s.
Proof.
  intros Hw Hq Hfull Hs.
  assert (wid < length (workers s))%nat as Hlt by by eapply lookup_lt_Some.
  cbv zeta.
  change (run (worker_rounds wid [r]) s)
    with (exec (exec (exec s (WorkerGet wid))
                     (WorkerFetched wid (HttpResponse r.1 r.2)))
               (WorkerPut wid)).
  rewrite (exec_get s wid i url tries []) by done.
  erewrite exec_fetched by (simpl; by apply list_lookup_insert_eq).
  rewrite on_fetched_success by done. simpl.
  erewrite exec_put_data;
    [| simpl; apply list_lookup_insert_eq; by rewrite length_insert | done].
  simpl. split; [|done].
  apply list_lookup_insert_eq. by rewrite !length_insert.
Qed.

(** X9: a fragment whose GET returns an error status up to five times and
    then a good status is delivered with the body of the good response:
    retries within the budget do not show in the data queue. *)
Theorem retries_deliver_body (s : hls) (wid : nat) (i : Z) (url : string)
    (rs : list (Z * bytes)) (status : Z) (body : bytes) :
  workers s !! wid = Some Idle → _frag_urls s = [(i, (url, 0))] →
  _frag_data s = [] →
  Forall (λ r, 299 < r.1) rs → (length rs ≤ 5)%nat → status ≤ 299 →
  let s' := run (worker_rounds wid (rs ++ [(status, body)])) s in
  _frag_urls s' = [] ∧ _frag_data s' = [(i, body)]
  ∧ workers s' !! wid = Some Idle.
Proof.
  intros Hw Hq Hd Hrs Hlen Hs. cbv zeta.
  rewrite worker_rounds_app, run_app.
  destruct (error_rounds_retry rs s wid i url 0) as (Hw' & Hq' & Hd');
    [done | done | done | lia |].
  cbv zeta in Hw', Hq', Hd'. rewrite Hd in Hd'.
  destruct (success_round (run (worker_rounds wid rs) s) wid i url
              (0 + Z.of_nat (length rs)) (status, body))
    as (Hw'' & Hq'' & Hd'' & _); [done | done | by rewrite Hd' | done |].
  cbv zeta in Hw'', Hq'', Hd''. by rewrite Hq'', Hd'', Hd'.
Qed.

Lemma retries_deliver_body_witness :
  let s := Hls [(7, ("a.ts", 0))] [] (Poller 0 (Some "a.ts") 8) (Putting [])
               [Idle] 7 [] [] in
  let rs : list (Z * bytes) := [(500, []); (404, []); (503, [Byte.x00])] in
  let s' := run (worker_rounds 0 (rs ++ [(200, [Byte.x41; Byte.x42])])) s in
  workers s !! 0%nat = Some Idle ∧ _frag_urls s = [(7, ("a.ts", 0))]
  ∧ _frag_data s = [] ∧ Forall (λ r, 299 < r.1) rs ∧ (length rs ≤ 5)%nat
  ∧ 200 ≤ 299
  ∧ _frag_urls s' = [] ∧ _frag_data s' = [(7, [Byte.x41; Byte.x42])]
  ∧ workers s' !! 0%nat = Some Idle.
Proof.
  intros s rs s'.
  assert (Forall (λ r : Z * bytes, 299 < r.1) rs) as H4
    by (repeat constructor; simpl; lia).
  assert (length rs ≤ 5)%nat as H5 by (simpl; lia).
  assert (200 ≤ 299) as H6 by lia.
  split; [reflexivity|]. split; [reflexivity|]. split; [reflexivity|].
  split; [exact H4|]. split; [exact H5|]. split; [exact H6|].
  exact (retries_deliver_body s 0 7 "a.ts" rs 200 [Byte.x41; Byte.x42]
           eq_refl eq_refl eq_refl H4 H5 H6).
Defined.

(** *** A whole download *)

Lemma sequential_cons wid r rs :
  sequential wid (r :: rs)
  = [PollerPut; WorkerGet wid; WorkerFetched wid (HttpResponse r.1 r.2);
     WorkerPut wid; Read] ++ sequential wid rs.
Proof. done. Qed.

(** X10: with one worker taking the fragments of a poll one at a time and
    every GET answering with a good status, the consumer yields the bodies
    in playlist order, one per fragment, and nothing stays in the
    queues. *)
Theorem sequential_download_in_order (s : hls) (wid : nat)
    (frags : list string) (rs : list (Z * bytes)) :
  pc s = Putting frags → length rs = length frags →
  _frag_urls s = [] → _frag_data s = [] →
  workers s !! wid = Some Idle → index s = frag_idx (fill s) →
  Forall (λ r, r.1 ≤ 299) rs →
  let s' := run (sequential wid rs) s in
  yielded s' = yielded s ++ rs.*2
  ∧ index s' = index s + Z.of_nat (length rs)
  ∧ frag_idx (fill s') = index s'
  ∧ _frag_urls s' = [] ∧ _frag_data s' = [] ∧ pc s' = Putting [].
Proof.
  revert s frags. induction rs as [|r rs IH];
    intros s frags Hpc Hlen Hu Hd Hw Hi Hrs.
  - destruct frags; [|done]. simpl. rewrite app_nil_r, Z.add_0_r.
    by split_and!.
  - destruct frags as [|frag frags]; [done|].
    apply Forall_cons in Hrs as [Hr Hrs]. cbv zeta.
    rewrite sequential_cons, run_app.
    assert (wid < length (workers s))%nat as Hlt by by eapply lookup_lt_Some.
    set (s1 := exec s PollerPut).
    assert (s1 = Hls [(frag_idx (fill s), (frag, 0))] []
                     (Poller (last_fragment_timestamp (fill s)) (Some frag)
                             (frag_idx (fill s) + 1))
                     (Putting frags) (workers s) (index s) (yielded s) (log s))
      as Hs1.
    { unfold s1. rewrite (exec_poller_put s frag frags) by (by rewrite ?Hu).
      by rewrite Hu, Hd. }
    set (s2 := run (worker_rounds wid [r]) s1).
    destruct (success_round s1 wid (frag_idx (fill s)) frag 0 r)
      as (Hw2 & Hu2 & Hd2 & Hpc2 & Hf2); [by rewrite Hs1.. | done |].
    fold s2 in Hw2, Hu2, Hd2, Hpc2, Hf2.
    destruct (worker_rounds_consumer wid [r] s1) as [Hi2 Hy2].
    fold s2 in Hi2, Hy2.
    rewrite Hs1 in Hd2, Hpc2, Hf2, Hi2, Hy2. simpl in Hd2, Hpc2, Hf2, Hi2, Hy2.
    set (s3 := exec s2 Read).
    assert (s3 = Hls [] [] (fill s2) (Putting frags) (workers s2)
                     (index s + 1) (yielded s ++ [r.2]) (log s2)) as Hs3.
    { unfold s3, exec. simpl. rewrite Hd2. simpl.
      rewrite Hi2, decide_True by done. simpl.
      by rewrite Hu2, Hpc2, Hy2. }
    change (run [PollerPut; WorkerGet wid;
                 WorkerFetched wid (HttpResponse r.1 r.2); WorkerPut wid; Read] s)
      with s3.
    destruct (IH s3 frags) as (H1 & H2 & H3 & H4 & H5 & H6);
      [ by rewrite Hs3
      | simpl in Hlen; lia
      | by rewrite Hs3
      | by rewrite Hs3
      | by rewrite Hs3
      | rewrite Hs3; simpl; rewrite Hf2; simpl; lia
      | done
      | ].
    cbv zeta in H1, H2, H3, H4, H5, H6.
    assert (yielded s3 = yielded s ++ [r.2]) as Hy3 by by rewrite Hs3.
    assert (index s3 = index s + 1) as Hi3 by by rewrite Hs3.
    rewrite Hy3 in H1. rewrite Hi3 in H2.
    split_and!; try done.
    + rewrite H1, <- app_assoc. done.
    + rewrite H2. simpl length. lia.
Qed.

Lemma sequential_download_in_order_witness :
  let s := run [PollPlaylist
                  (HttpResponse 200 ("a.ts" ++ String newline "b.ts")%string) 1%Q]
               (start 1 0%Q) in
  let rs : list (Z * bytes) := [(200, [Byte.x41]); (206, [Byte.x42])] in
  let s' := run (sequential 0 rs) s in
  pc s = Putting ["a.ts"; "b.ts"] ∧ length rs = length ["a.ts"; "b.ts"]
  ∧ _frag_urls s = [] ∧ _frag_data s = []
  ∧ workers s !! 0%nat = Some Idle ∧ index s = frag_idx (fill s)
  ∧ Forall (λ r, r.1 ≤ 299) rs
  ∧ yielded s' = yielded s ++ rs.*2
  ∧ index s' = index s + Z.of_nat (length rs)
  ∧ frag_idx (fill s') = index s'
  ∧ _frag_urls s' = [] ∧ _frag_data s' = [] ∧ pc s' = Putting [].
Proof.
  intros s rs s'.
  assert (Forall (λ r : Z * bytes, r.1 ≤ 299) rs) as H7
    by (repeat constructor; simpl; lia).
  do 6 (split; [reflexivity|]). split; [exact H7|].
  exact (sequential_download_in_order s 0 ["a.ts"; "b.ts"] rs
           eq_refl eq_refl eq_refl eq_refl eq_refl eq_refl H7).
Defined.

End PipelineFacts.

(** ** The control channel, continued *)

Module ChannelFacts.

Import FC2LiveDL FC2WebSocket WebSocketSpec WebSocketFacts ChannelSpec.

Local Open Scope string_scope.
Local Open Scope list_scope.
Local Open Scope Z_scope.

(** *** Frames *)

Lemma step_stops ev st : stops ev = true → ∃ e, step ev st = Raise e.
Proof.
  destruct ev as [[| |c| |]| |]; try done; intros _; simpl.
  - unfold _main_loop_iteration. simpl.
    repeat case_decide; by eexists.
  - by eexists.
Qed.

Lemma step_goes_on ev st :
  stops ev = false →
  ∃ st' sent, step ev st = Ok (st', sent)
              ∧ comments st' = comments st ++ ChannelSpec.frame_comments ev.
Proof.
  destruct ev as [f tc td| |nm args]; try done; intros Hev; simpl.
  - unfold _main_loop_iteration.
    destruct f as [|r|c|cs|nm]; try done; simpl;
      destruct (_try_heartbeat tc td _) as [st' sent] eqn:Hh;
      exists st', sent; (split; [done|]);
      unfold _try_heartbeat in Hh; simpl in Hh;
      destruct (Qlt_le_dec _ _); injection Hh as <- <-; simpl;
      by rewrite ?app_nil_r.
  - do 2 eexists. split; [done|]. simpl. by rewrite app_nil_r.
Qed.

(** X11: the comment queue receives the comments of the [comment] frames
    in the order of arrival, frame by frame, up to the frame that ends
    the receive loop; no other frame adds or removes a comment. *)
Theorem comments_in_arrival_order (evs : list event) :
  comments (run evs __init__).1 = until_stop evs ≫= frame_comments.
Proof.
  change (until_stop evs ≫= frame_comments)
    with (comments __init__ ++ (until_stop evs ≫= frame_comments)).
  rewrite run_session. cbn [fst].
  generalize __init__. induction evs as [|ev evs IH]; intros st.
  - simpl. by rewrite app_nil_r.
  - rewrite session_cons, session_step_alive. cbn [fst until_stop].
    destruct (stops ev) eqn:Hev.
    + destruct (step_stops ev st Hev) as [e ->]. cbn [fst].
      destruct (session_ended evs st e) as [n ->]. simpl.
      by rewrite app_nil_r.
    + destruct (step_goes_on ev st Hev) as (st' & sent & -> & Hc).
      cbn [fst]. rewrite IH, Hc. simpl. by rewrite <- app_assoc.
Qed.

(** After the end of the receive loop a session goes on as if only the
    calls of [_send_message] were there. *)
Lemma session_ended_requests evs st e t :
  (session evs (st, Some e)).1.1 = (session (requests evs) (st, t)).1.1
  ∧ (session evs (st, Some e)).2 = (session (requests evs) (st, t)).2.
Proof.
  revert st. induction evs as [|ev evs IH]; intros st; [done|].
  destruct ev as [f tc td| |nm args]; cbn [requests].
  - rewrite session_cons. apply IH.
  - rewrite session_cons. apply IH.
  - rewrite !session_cons. cbn [session_step fst snd _send_message].
    destruct (IH (WS (_msg_id st + 1) (_msg_responses st) (_last_heartbeat st)
                     (_is_ready st) (comments st))) as [-> ->].
    done.
Qed.

(** X12: a [control_disconnection] frame ends the receive loop with an
    exception that carries the code of the frame and whose text shows it;
    the iteration sends nothing (no heartbeat either), and from then on
    the session goes on as if no further frame arrived: only the messages
    that other tasks send still go out. *)
Theorem disconnection_carries_code (c : Z) (tc td : time) (st : ws)
    (evs : list event) :
  ∃ e, _main_loop_iteration (control_disconnection c) tc td st = Raise e
       ∧ Disconnection.code e = Some c
       ∧ Disconnection.is_server_disconnection e = true
       ∧ Disconnection.__str__ e
         = Some ("Server disconnected with code " +:+ pretty c)
       ∧ run (Received (control_disconnection c) tc td :: evs) st
         = run (requests evs) st.
Proof.
  assert (run (Received (control_disconnection c) tc td :: evs) st
          = run (requests evs) st) as Hrun.
  { destruct (step_stops (Received (control_disconnection c) tc td) st eq_refl)
      as [e He].
    rewrite !run_session, session_cons, session_step_alive, He. cbn [fst snd].
    by destruct (session_ended_requests evs st e None) as [-> ->]. }
  unfold _main_loop_iteration. simpl.
  repeat case_decide; subst; eexists; split_and!;
    try reflexivity; exact Hrun.
Qed.

(** *** [get_hls_information], the whole loop *)

Lemma hls_requests_app (w1 w2 : list out_msg) :
  length (filter is_hls_request (w1 ++ w2))
  = (length (filter is_hls_request w1) + length (filter is_hls_request w2))%nat.
Proof. by rewrite filter_app, length_app. Qed.

(** Every attempt puts its request on the wire. *)
Lemma hls_body_requests a s s' :
  hls_body a s = Ok s' →
  (length (filter is_hls_request (wire s)) + 1
   ≤ length (filter is_hls_request (wire s')))%nat.
Proof.
  rewrite hls_body_unfold. cbv zeta.
  assert (∃ sent, (_send_message_and_wait "get_hls_information" ∅
                     (during_wait a) (outcome a) (conn s, task s)).1.2
                  = OutMsg "get_hls_information" ∅ (_msg_id (conn s) + 1)
                    :: sent) as [sent Hsent].
  { rewrite send_and_wait_unfold. cbv zeta. cbn [fst snd].
    destruct (task s); [by eexists|].
    destruct ((session _ _).1.2); [by eexists|].
    destruct (outcome a); by eexists. }
  destruct (_send_message_and_wait _ _ _ _ _) as [[[c t] sent0] r].
  cbn [fst snd] in *. subst sent0.
  destruct r as [[r|]|e]; cbn [mbind result_bind]; [case_decide| |done];
    rewrite ?hls_sleep_unfold; intros [= <-]; cbn [wire];
    rewrite !hls_requests_app, filter_cons; cbn [length];
    (rewrite decide_True by done); cbn [length]; lia.
Qed.

Lemma hls_while_requests fuel env : ∀ s s',
  hls_while fuel env s = Some (Ok s') →
  Z.of_nat (length (filter is_hls_request (wire s))) + (tries s' - tries s)
  ≤ Z.of_nat (length (filter is_hls_request (wire s'))).
Proof.
  induction fuel as [|fuel IH]; intros s s'; rewrite hls_while_unfold;
    case_bool_decide; try done; try (intros [= <-]; lia).
  destruct (hls_body _ s) as [s1|] eqn:Hb; [|done].
  intros Hs'. apply IH in Hs'.
  pose proof (hls_body_requests _ _ _ Hb).
  apply hls_body_tries in Hb. lia.
Qed.

(** X13: when a response with a [playlists] key arrives in attempt
    [k + 1], for [k] at most 3, after [k] failed attempts, then
    [get_hls_information] returns its arguments, having made [k + 1]
    attempts, each with a request of its own, and slept 1, 2, ...,
    [2 ^ (k - 1)] seconds; the messages sent on the connection meanwhile,
    these requests and whatever the receive loop sent between them,
    carry ids that follow one another. *)
Theorem hls_information_returned (env : nat → attempt) (st : ws)
    (k : nat) (r : response) :
  (k < 4)%nat →
  (∀ j, (j < k)%nat → attempt_retries (env j)) →
  attempt_brings (env k) r →
  is_Some (resp_arguments r !! "playlists") →
  get_hls_information 5 env st = Some (Ok (resp_arguments r))
  ∧ ∃ s, hls_while 5 env (hls_start st) = Some (Ok s)
         ∧ tries s = Z.of_nat k + 1
         ∧ slept s = (λ j, 2 ^ Z.of_nat j) <$> seq 0 k
         ∧ ids_follow (_msg_id st) s
         ∧ (k + 1 ≤ length (filter is_hls_request (wire s)))%nat.
Proof.
  intros Hk Hfail Hr Hkey. split.
  - rewrite (get_hls_information_first_success env st k r) by (done || lia).
    by rewrite decide_False by lia.
  - destruct (hls_while_first_success env st k r) as (s & Hs & _ & Ht & Hsl);
      [lia | done | done | done |].
    exists s. split_and!; try done.
    + apply (hls_while_ids _ 5 env (hls_start st)); [|done].
      split; simpl; [done | lia].
    + apply hls_while_requests in Hs. simpl in Hs. lia.
Qed.

Lemma hls_information_returned_witness :
  let r := Response 4 {[ "playlists" := [Playlist "A" 52] ]} in
  let env (k : nat) :=
    match k with
    | 0%nat => Attempt [] TimedOut []
    | 1%nat => Attempt [Received (_response_ (Response 2 ∅)) 1008 1009]
                       (Responded (Response 2 ∅)) []
    | _ => Attempt [Received (_response_ r) 1012 1013] (Responded r) []
    end in
  (2 < 4)%nat
  ∧ (∀ j, (j < 2)%nat → attempt_retries (env j))
  ∧ attempt_brings (env 2%nat) r
  ∧ is_Some (resp_arguments r !! "playlists")
  ∧ get_hls_information 5 env __init__ = Some (Ok (resp_arguments r))
  ∧ ∃ s, hls_while 5 env (hls_start __init__) = Some (Ok s)
         ∧ tries s = 2 + 1
         ∧ slept s = [1; 2]
         ∧ ids_follow 0 s
         ∧ (2 + 1 ≤ length (filter is_hls_request (wire s)))%nat.
Proof.
  intros r env.
  assert (2 < 4)%nat as H1 by lia.
  assert (∀ j, (j < 2)%nat → attempt_retries (env j)) as H2.
  { intros [|[|j]] Hj; [| |lia].
    - split_and!; [constructor | by left | constructor].
    - split_and!; [|right; by eexists|constructor].
      constructor; [|constructor]. intros st'. by eexists. }
  assert (attempt_brings (env 2%nat) r) as H3.
  { split; [|done]. constructor; [|constructor]. intros st'. by eexists. }
  assert (is_Some (resp_arguments r !! "playlists")) as H4 by by eexists.
  split; [exact H1|]. split; [exact H2|]. split; [exact H3|].
  split; [exact H4|].
  exact (hls_information_returned env __init__ 2 r H1 H2 H3 H4).
Defined.

(** X14: after five attempts that time out or bring no [playlists] key,
    [get_hls_information] raises [EmptyPlaylistException], having put
    five requests on the wire and slept 1, 2, 4, 8 and 16 seconds, the 16
    seconds after the last attempt included; the ids of the messages sent
    on the connection meanwhile follow one another. *)
Theorem hls_information_gives_up (env : nat → attempt) (st : ws) :
  (∀ j, (j < 5)%nat → attempt_retries (env j)) →
  get_hls_information 5 env st = Some (Raise EmptyPlaylistException)
  ∧ ∃ s, hls_while 5 env (hls_start st) = Some (Ok s)
         ∧ tries s = 5
         ∧ slept s = [1; 2; 4; 8; 16]
         ∧ ids_follow (_msg_id st) s
         ∧ (5 ≤ length (filter is_hls_request (wire s)))%nat.
Proof.
  intros Hfail. split; [by apply get_hls_information_gives_up|].
  destruct (hls_while_gives_up env st Hfail) as (s & Hs & _ & Ht & Hsl).
  exists s. split_and!; try done.
  - apply (hls_while_ids _ 5 env (hls_start st)); [|done].
    split; simpl; [done | lia].
  - apply hls_while_requests in Hs. simpl in Hs. lia.
Qed.

Lemma hls_information_gives_up_witness :
  let env (k : nat) :=
    if Nat.even k then Attempt [] TimedOut [Received (comment ["hi"]) 1006 1007]
    else Attempt [] TimedOut [] in
  (∀ j, (j < 5)%nat → attempt_retries (env j))
  ∧ get_hls_information 5 env __init__ = Some (Raise EmptyPlaylistException)
  ∧ ∃ s, hls_while 5 env (hls_start __init__) = Some (Ok s)
         ∧ tries s = 5
         ∧ slept s = [1; 2; 4; 8; 16]
         ∧ ids_follow 0 s
         ∧ (5 ≤ length (filter is_hls_request (wire s)))%nat.
Proof.
  intros env.
  assert (∀ j, (j < 5)%nat → attempt_retries (env j)) as H.
  { intros j Hj. unfold env. destruct (Nat.even j).
    - split_and!; [constructor | by left |].
      constructor; [|constructor]. intros st'. by eexists.
    - split_and!; [constructor | by left | constructor]. }
  split; [exact H|]. exact (hls_information_gives_up env __init__ H).
Defined.

(** X15: when the receive loop ends with an exception while
    [get_hls_information] waits for a response (in any of its five
    attempts, after failed ones), that exception is what
    [get_hls_information] raises. *)
Theorem hls_information_reraises (env : nat → attempt) (st : ws)
    (k : nat) (e : exn) :
  (k < 5)%nat →
  (∀ j, (j < k)%nat → attempt_retries (env j)) →
  loop_ends_in (env k) e →
  get_hls_information 5 env st = Some (Raise e).
Proof.
  intros Hk Hfail He.
  destruct (hls_while_failures k (5 - k) env (hls_start st))
    as (s & Hs & Hmsg & Htask & Htries & _);
    [done | done | simpl; lia | simpl; unfold max_tries; lia
    | simpl; intros; apply Hfail; lia |].
  replace (k + (5 - k))%nat with 5%nat in Hs by lia.
  simpl in Htries. rewrite Z.add_0_l in Htries.
  unfold get_hls_information. rewrite Hs.
  destruct (5 - k)%nat as [|fuel] eqn:Hfuel; [lia|].
  rewrite hls_while_unfold.
  rewrite bool_decide_eq_true_2 by (split; [done | unfold max_tries; lia]).
  rewrite Htries, Nat2Z.id. by rewrite (hls_body_ends _ e s Htask He).
Qed.

Lemma hls_information_reraises_witness :
  let env (k : nat) :=
    match k with
    | 0%nat => Attempt [] TimedOut []
    | _ => Attempt [Received (comment ["hi"]) 1006 1007;
                    Received (control_disconnection 4101) 1008 1009]
                   TimedOut []
    end in
  (1 < 5)%nat
  ∧ (∀ j, (j < 1)%nat → attempt_retries (env j))
  ∧ loop_ends_in (env 1%nat) PaidProgramDisconnection
  ∧ get_hls_information 5 env __init__ = Some (Raise PaidProgramDisconnection).
Proof.
  intros env.
  assert (1 < 5)%nat as H1 by lia.
  assert (∀ j, (j < 1)%nat → attempt_retries (env j)) as H2.
  { intros [|j] Hj; [|lia]. split_and!; [constructor | by left | constructor]. }
  assert (loop_ends_in (env 1%nat) PaidProgramDisconnection) as H3.
  { left. exists [Received (comment ["hi"]) 1006 1007],
      (Received (control_disconnection 4101) 1008 1009), [].
    split_and!; [done | | done].
    constructor; [|constructor]. intros st'. by eexists. }
  split; [exact H1|]. split; [exact H2|]. split; [exact H3|].
  exact (hls_information_reraises env __init__ 1 PaidProgramDisconnection
           H1 H2 H3).
Defined.

End ChannelFacts.

(** ** AsyncMap *)

Module AsyncMapFacts.

Import AsyncMap AsyncMapSpec.

Local Open Scope list_scope.
Local Open Scope Z_scope.

Section Facts.
Context {V : Type}.
Implicit Types (m : gmap Z V) (ws : list (nat * Z)).

Lemma wake_nil m : wake m [] = (m, [], []).
Proof. reflexivity. Qed.

Lemma wake_cons_some m task key value ws :
  m !! key = Some value →
  wake m ((task, key) :: ws) =
    ((wake (delete key m) ws).1.1, (wake (delete key m) ws).1.2,
     (task, value) :: (wake (delete key m) ws).2).
Proof.
  intros H. simpl. rewrite H. by destruct (wake (delete key m) ws) as [[??]?].
Qed.

Lemma wake_cons_none m task key ws :
  m !! key = None →
  wake m ((task, key) :: ws) =
    ((wake m ws).1.1, (task, key) :: (wake m ws).1.2, (wake m ws).2).
Proof.
  intros H. simpl. rewrite H. by destruct (wake m ws) as [[??]?].
Qed.

(** A notification round only takes values out of the map. *)
Lemma wake_absent m ws key :
  m !! key = None → (wake m ws).1.1 !! key = None.
Proof.
  revert m. induction ws as [|[t k] ws IH]; intros m H; [done|].
  destruct (m !! k) as [v|] eqn:Hk.
  - rewrite (wake_cons_some _ _ _ v) by done. cbn [fst snd].
    apply IH. destruct (decide (k = key)) as [->|Hne].
    + apply lookup_delete_eq.
    + by rewrite lookup_delete_ne.
  - rewrite wake_cons_none by done. cbn [fst snd]. by apply IH.
Qed.

Lemma wake_still_absent m ws :
  Forall (λ w, (wake m ws).1.1 !! w.2 = None) (wake m ws).1.2.
Proof.
  revert m. induction ws as [|[t k] ws IH]; intros m; [by constructor|].
  destruct (m !! k) as [v|] eqn:Hk.
  - rewrite (wake_cons_some _ _ _ v) by done. cbn [fst snd]. apply IH.
  - rewrite wake_cons_none by done. cbn [fst snd]. constructor; [|apply IH].
    by apply wake_absent.
Qed.

Lemma wake_first m ws task key value :
  m !! key = Some value → first_waiter task key ws →
  (task, value) ∈ (wake m ws).2 ∧ (wake m ws).1.1 !! key = None.
Proof.
  intros Hm (pre & post & -> & Hpre). revert m Hm.
  induction pre as [|[t k] pre IH]; intros m Hm.
  - simpl app. rewrite (wake_cons_some _ _ _ value) by done. cbn [fst snd].
    split; [apply elem_of_cons; by left|].
    apply wake_absent, lookup_delete_eq.
  - apply Forall_cons in Hpre as [Hk Hpre]. simpl in Hk.
    change (((t, k) :: pre) ++ (task, key) :: post)
      with ((t, k) :: (pre ++ (task, key) :: post)).
    destruct (m !! k) as [v|] eqn:Hmk.
    + rewrite (wake_cons_some _ _ _ v) by done. cbn [fst snd].
      destruct (IH Hpre (delete k m)) as [H1 H2].
      { by rewrite lookup_delete_ne. }
      split; [apply elem_of_cons; by right | done].
    + rewrite wake_cons_none by done. cbn [fst snd]. by apply IH.
Qed.

Lemma waiters_cons key t k ws :
  waiters key ((t, k) :: ws) =
    ((if decide (k = key) then 1 else 0) + waiters key ws)%nat.
Proof.
  unfold waiters. rewrite filter_cons. simpl. by case_decide.
Qed.

Lemma wake_waiters m ws key :
  (waiters key ws ≤ waiters key (wake m ws).1.2 + 1)%nat ∧
  (m !! key = None → waiters key (wake m ws).1.2 = waiters key ws).
Proof.
  revert m. induction ws as [|[t k] ws IH]; intros m.
  { split; [unfold waiters; simpl; lia | done]. }
  destruct (m !! k) as [v|] eqn:Hk.
  - rewrite (wake_cons_some _ _ _ v) by done. cbn [fst snd].
    rewrite waiters_cons. case_decide as Hd.
    + subst k. destruct (IH (delete key m)) as [_ H2].
      rewrite H2 by apply lookup_delete_eq. split; [lia|].
      intros Hn. congruence.
    + destruct (IH (delete k m)) as [H1 H2]. split; [lia|].
      intros Hn. rewrite H2; [done|]. by rewrite lookup_delete_ne.
  - rewrite wake_cons_none by done. cbn [fst snd].
    rewrite !waiters_cons. destruct (IH m) as [H1 H2].
    split; [case_decide; lia|]. intros Hn. by rewrite H2.
Qed.

Lemma wake_length m ws :
  length ws = (length (wake m ws).1.2 + length (wake m ws).2)%nat.
Proof.
  revert m. induction ws as [|[t k] ws IH]; intros m; [done|].
  destruct (m !! k) as [v|] eqn:Hk.
  - rewrite (wake_cons_some _ _ _ v) by done. cbn [fst snd length].
    rewrite (IH (delete k m)). lia.
  - rewrite wake_cons_none by done. cbn [fst snd length].
    by rewrite (IH m).
Qed.

Lemma put_unfold key value (st : amap V) :
  put key value st =
    (AMap (wake (<[key := value]> (_map st)) (waiting st)).1.1
          (wake (<[key := value]> (_map st)) (waiting st)).1.2,
     (wake (<[key := value]> (_map st)) (waiting st)).2).
Proof.
  unfold put. by destruct (wake _ _) as [[??]?].
Qed.

(** X16: a [put] hands the value stored under a key to the task that has
    waited longest for that key, whether the value is the one just stored
    or one stored before the task began to wait, and takes the key out of
    the map. *)
Theorem put_wakes_first_waiter key value (st : amap V) task k v :
  first_waiter task k (waiting st) →
  <[key := value]> (_map st) !! k = Some v →
  (task, v) ∈ (put key value st).2 ∧ _map (put key value st).1 !! k = None.
Proof.
  intros Hw Hm. rewrite put_unfold. cbn [fst snd _map].
  by apply wake_first.
Qed.

(** X17: when a [put] is over, no task is left waiting for a key that is
    in the map. *)
Theorem put_leaves_no_ready_waiter key value (st : amap V) :
  Forall (λ w, _map (put key value st).1 !! w.2 = None)
         (waiting (put key value st).1).
Proof.
  rewrite put_unfold. cbn [fst snd _map waiting]. apply wake_still_absent.
Qed.

(** X18: a [put] releases at most one of the tasks that wait for the same
    key, and the released tasks are as many as the values handed out. *)
Theorem put_releases_one_per_key key value (st : amap V) k :
  (waiters k (waiting st) ≤ waiters k (waiting (put key value st).1) + 1)%nat ∧
  length (waiting st) =
    (length (waiting (put key value st).1) + length (put key value st).2)%nat.
Proof.
  rewrite put_unfold. cbn [fst snd waiting].
  split; [apply wake_waiters | apply wake_length].
Qed.

End Facts.

Lemma put_wakes_first_waiter_witness :
  let st := pop 7 3 (put 3 "x"%string __init__).1 in
  first_waiter 7 3 (waiting st) ∧
  <[4 := "y"%string]> (_map st) !! 3 = Some "x"%string ∧
  (7%nat, "x"%string) ∈ (put 4 "y"%string st).2 ∧
  _map (put 4 "y"%string st).1 !! 3 = None.
Proof.
  intros st.
  assert (first_waiter 7 3 (waiting st)) as H1.
  { exists [], []. split; [reflexivity | constructor]. }
  assert (<[4 := "y"%string]> (_map st) !! 3 = Some "x"%string) as H2
    by reflexivity.
  split; [exact H1|]. split; [exact H2|].
  exact (put_wakes_first_waiter 4 "y"%string st 7%nat 3 "x"%string H1 H2).
Defined.

End AsyncMapFacts.

(** ** Playlist selection, continued *)

Module SelectionFacts.

Import FC2LiveDL PlaylistSpec SortFacts PlaylistFacts.

Local Open Scope string_scope.
Local Open Scope list_scope.
Local Open Scope Z_scope.

(** *** Mode numbers and their names *)

Lemma format_mode_gets m q l :
  _format_mode m = Ok (q, l) → _get_mode (Params q l) = Ok m.
Proof.
  intros H. pose proof (Z.div_mod m 10 ltac:(lia)) as Hdm.
  unfold _format_mode, dict_search in H.
  remember (m `mod` 10) as r eqn:Hr. remember (m `div` 10 * 10) as d eqn:Hd.
  simpl in H.
  repeat (case_decide; simplify_eq/=); try discriminate;
    vm_compute; f_equal; lia.
Qed.

(** X19: [_get_mode] and [_format_mode] are inverse to each other: a
    quality and a latency give mode [m] exactly when [_format_mode] names
    [m] by this quality and this latency. *)
Theorem mode_names_round_trip q l m :
  _get_mode (Params q l) = Ok m ↔ _format_mode m = Ok (q, l).
Proof.
  split; [apply (get_mode_formats (Params q l)) | apply format_mode_gets].
Qed.

Lemma getitem_unknown d k : k ∉ d.*1 → getitem d k = Raise (KeyError k).
Proof.
  induction d as [|[k' v] d IH]; simpl; [done|].
  intros Hk. apply not_elem_of_cons in Hk as [Hne Hk].
  case_decide; [congruence | by apply IH].
Qed.

Lemma getitem_known d k : k ∈ d.*1 → ∃ v, getitem d k = Ok v.
Proof.
  induction d as [|[k' v] d IH]; simpl; [by intros ?%elem_of_nil|].
  intros [->|Hk]%elem_of_cons; case_decide; eauto; congruence.
Qed.

(** X20: a quality that is not a key of [STREAM_QUALITY] makes the
    selection raise [KeyError] with that name before anything is logged,
    whatever the server offers; with a known quality, so does a latency
    that is not a key of [STREAM_LATENCY]. *)
Theorem unknown_name_raises cfg info k :
  (quality cfg ∉ STREAM_QUALITY.*1) ∧ k = quality cfg
  ∨ (quality cfg ∈ STREAM_QUALITY.*1) ∧ (latency cfg ∉ STREAM_LATENCY.*1)
    ∧ k = latency cfg →
  _get_hls_url cfg info = (Raise (KeyError k), []).
Proof.
  unfold _get_hls_url, _get_mode.
  intros [[Hq ->]|(Hq & Hl & ->)].
  - by rewrite (getitem_unknown _ _ Hq).
  - destruct (getitem_known _ _ Hq) as [v ->].
    by rewrite (getitem_unknown _ _ Hl).
Qed.

Lemma unknown_name_raises_witness :
  let cfg := Params "3Mbps" "medium" in
  let info : hls_info := {[ "playlists" := [Playlist "A" 52] ]} in
  ((quality cfg ∉ STREAM_QUALITY.*1) ∧ "medium" = quality cfg
   ∨ (quality cfg ∈ STREAM_QUALITY.*1) ∧ (latency cfg ∉ STREAM_LATENCY.*1)
     ∧ "medium" = latency cfg)
  ∧ _get_hls_url cfg info = (Raise (KeyError "medium"), []).
Proof.
  intros cfg info.
  assert ((quality cfg ∉ STREAM_QUALITY.*1) ∧ "medium" = quality cfg
          ∨ (quality cfg ∈ STREAM_QUALITY.*1)
            ∧ (latency cfg ∉ STREAM_LATENCY.*1)
            ∧ "medium" = latency cfg) as H.
  { right. split_and!; [| |reflexivity].
    - unfold cfg. simpl.
      rewrite !elem_of_cons. tauto.
    - unfold cfg. simpl. intros Hin.
      repeat (apply elem_of_cons in Hin as [Hin|Hin]; [discriminate|]).
      by apply elem_of_nil in Hin. }
  split; [exact H|].
  exact (unknown_name_raises cfg info "medium" H).
Defined.

(** *** Which entry is chosen *)

Lemma find_mode_last l m : find_mode l m = last (filter (λ p, mode p = m) l).
Proof.
  induction l as [|q l IH] using rev_ind; [done|].
  rewrite find_mode_snoc, filter_app, filter_cons, filter_nil.
  case_decide.
  - by rewrite last_snoc.
  - by rewrite app_nil_r.
Qed.

Lemma filter_mode_key m (l : list playlist) :
  filter (λ p, mode p = m) l
  = filter (λ p, mode p = m)
      (filter (λ p, key_map p = key_map (Playlist "" m)) l).
Proof.
  induction l as [|q l IH]; [done|].
  rewrite !filter_cons. case_decide as Hm.
  - rewrite decide_True.
    + rewrite filter_cons, decide_True by done. by rewrite IH.
    + unfold key_map. simpl. by rewrite Hm.
  - case_decide; [|done]. by rewrite filter_cons, decide_False.
Qed.

Lemma filter_mode_sorted m l :
  filter (λ p, mode p = m) (_sort_playlists l) = filter (λ p, mode p = m) l.
Proof.
  rewrite (filter_mode_key m (_sort_playlists l)), (filter_mode_key m l).
  unfold _sort_playlists. by rewrite sorted_reverse_stable.
Qed.

(** X21: when several entries have the requested mode, the url returned
    is that of the last of them in the merged order (playlists, then
    playlists_high_latency, then playlists_middle_latency), and nothing
    is logged. *)
Theorem exact_match_is_last_listed cfg info m p :
  _get_mode cfg = Ok m →
  last (filter (λ p, mode p = m) (_merge_playlists info)) = Some p →
  _get_hls_url cfg info = (Ok (url p), []).
Proof.
  intros Hm Hp. unfold _get_hls_url, _get_playlist_or_best. rewrite Hm.
  by rewrite find_mode_last, filter_mode_sorted, Hp.
Qed.

Lemma exact_match_is_last_listed_witness :
  let cfg := Params "3Mbps" "mid" in
  let info : hls_info :=
    {[ "playlists" := [Playlist "A" 52];
       "playlists_high_latency" := [Playlist "B" 52; Playlist "C" 51] ]} in
  _get_mode cfg = Ok 52
  ∧ last (filter (λ p, mode p = 52) (_merge_playlists info))
    = Some (Playlist "B" 52)
  ∧ _get_hls_url cfg info = (Ok "B", []).
Proof.
  intros cfg info.
  assert (_get_mode cfg = Ok 52) as H1 by reflexivity.
  assert (last (filter (λ p, mode p = 52) (_merge_playlists info))
          = Some (Playlist "B" 52)) as H2 by (vm_compute; reflexivity).
  split; [exact H1|]. split; [exact H2|].
  exact (exact_match_is_last_listed cfg info 52 (Playlist "B" 52) H1 H2).
Defined.

(** X22: the entry ranked first, the one the fallback takes, has the
    greatest key of all entries and is the earliest entry of the merged
    list with that key. *)
Theorem fallback_is_first_of_greatest_key l best :
  _sort_playlists l !! 0%nat = Some best →
  Forall (λ p, key_map p ≤ key_map best) l
  ∧ head (filter (λ p, key_map p = key_map best) l) = Some best.
Proof.
  intros Hb. pose proof (sort_playlists_sorted l) as Hs.
  pose proof (sorted_reverse_stable key_map (key_map best) l) as Hst.
  fold (_sort_playlists l) in Hst.
  destruct (_sort_playlists l) as [|b rest] eqn:Hl; [done|].
  injection Hb as ->. split.
  - rewrite <- (sort_playlists_perm l), Hl.
    apply StronglySorted_inv in Hs as [_ Hall].
    constructor; [lia | exact Hall].
  - rewrite <- Hst, filter_cons, decide_True by done. done.
Qed.

Lemma fallback_is_first_of_greatest_key_witness :
  let l := [Playlist "A" 31; Playlist "B" 90; Playlist "C" 52;
            Playlist "D" 142] in
  _sort_playlists l !! 0%nat = Some (Playlist "C" 52)
  ∧ Forall (λ p, key_map p ≤ 52) l
  ∧ head (filter (λ p, key_map p = 52) l) = Some (Playlist "C" 52).
Proof.
  intros l.
  assert (_sort_playlists l !! 0%nat = Some (Playlist "C" 52)) as H1
    by reflexivity.
  split; [exact H1|].
  exact (fallback_is_first_of_greatest_key l (Playlist "C" 52) H1).
Defined.

(** X23: a url that [_get_hls_url] returns is the url of an entry the
    server listed: either an entry of the requested mode, with nothing
    logged, or, when no entry has that mode, the first-ranked entry, with
    the two warnings naming the requested and the chosen mode. *)
Theorem chosen_url_is_listed cfg info u log :
  _get_hls_url cfg info = (Ok u, log) →
  ∃ p m, p ∈ _merge_playlists info ∧ url p = u ∧ _get_mode cfg = Ok m
    ∧ (mode p = m ∧ log = []
       ∨ Forall (λ p, mode p ≠ m) (_merge_playlists info)
         ∧ _sort_playlists (_merge_playlists info) !! 0%nat = Some p
         ∧ ∃ names, _format_mode (mode p) = Ok names
             ∧ log = [WarnNotAvailable (quality cfg, latency cfg);
                      WarnFallingBack names]).
Proof.
  unfold _get_hls_url, _get_playlist_or_best.
  destruct (_get_mode cfg) as [m|e] eqn:Hm; [|done].
  rewrite (get_mode_formats _ _ Hm).
  destruct (find_mode _ m) as [p|] eqn:Hf.
  - intros [= <- <-]. apply find_mode_Some in Hf as [Hin Hmode].
    rewrite sort_playlists_perm in Hin.
    exists p, m. split_and!; [done | done | done | by left].
  - apply find_mode_None in Hf. rewrite sort_playlists_perm in Hf.
    destruct (_sort_playlists (_merge_playlists info) !! 0%nat)
      as [best|] eqn:Hb; [|done].
    destruct (_format_mode (mode best)) as [names|e] eqn:Hn; [|done].
    intros [= <- <-]. exists best, m.
    split_and!; [ | done | done | right; split_and!; [done | done | by eexists] ].
    rewrite <- (sort_playlists_perm (_merge_playlists info)).
    by eapply list_elem_of_lookup_2.
Qed.

Lemma chosen_url_is_listed_witness :
  let cfg := Params "3Mbps" "mid" in
  let info : hls_info := {[ "playlists" := [Playlist "A" 50] ]} in
  let log := [WarnNotAvailable ("3Mbps", "mid");
              WarnFallingBack ("3Mbps", "low")] in
  _get_hls_url cfg info = (Ok "A", log)
  ∧ ∃ p m, p ∈ _merge_playlists info ∧ url p = "A" ∧ _get_mode cfg = Ok m
    ∧ (mode p = m ∧ log = []
       ∨ Forall (λ p, mode p ≠ m) (_merge_playlists info)
         ∧ _sort_playlists (_merge_playlists info) !! 0%nat = Some p
         ∧ ∃ names, _format_mode (mode p) = Ok names
             ∧ log = [WarnNotAvailable (quality cfg, latency cfg);
                      WarnFallingBack names]).
Proof.
  intros cfg info log.
  assert (_get_hls_url cfg info = (Ok "A", log)) as H1 by reflexivity.
  split; [exact H1|].
  exact (chosen_url_is_listed cfg info "A" log H1).
Defined.

End SelectionFacts.

(** ** File names *)

Module OuttmplFacts.

Import Outtmpl OuttmplSpec.

Local Open Scope string_scope.
Local Open Scope list_scope.

(** *** [sanitize_filename] *)

Lemma safe_char_fold c :
  foldl (λ c old, if decide (c = old) then "_"%char else c) c unsafe_chars
  = safe_char c.
Proof.
  destruct c as [[] [] [] [] [] [] [] []]; vm_compute; reflexivity.
Qed.

Lemma safe_char_safe c : safe_char c ∉ unsafe_chars.
Proof.
  unfold safe_char. case_decide as H; [|done].
  clear H. intros H. unfold unsafe_chars in H.
  repeat (apply elem_of_cons in H as [H|H]; [discriminate|]).
  by apply elem_of_nil in H.
Qed.

Lemma replace_fold (l : list ascii) c s :
  foldl (λ fname old, replace old "_"%char fname) (String c s) l
  = String (foldl (λ c old, if decide (c = old) then "_"%char else c) c l)
           (foldl (λ fname old, replace old "_"%char fname) s l).
Proof.
  revert c s. induction l as [|old l IH]; intros c s; [done|].
  simpl. by rewrite IH.
Qed.

Lemma replace_fold_empty (l : list ascii) :
  foldl (λ fname old, replace old "_"%char fname) EmptyString l = EmptyString.
Proof. by induction l. Qed.

Lemma sanitize_cons c s :
  sanitize_filename (String c s) = String (safe_char c) (sanitize_filename s).
Proof.
  unfold sanitize_filename. by rewrite replace_fold, safe_char_fold.
Qed.

(** X24: [sanitize_filename] changes a name character by character: each
    of the nine characters of its list becomes an underscore and every
    other character stays, so the length is kept and none of the nine
    characters is left in the result. *)
Theorem sanitize_filename_pointwise (fname : string) :
  sanitize_filename fname
  = map_chars (λ c, if decide (c ∈ unsafe_chars) then "_"%char else c) fname
  ∧ String.length (sanitize_filename fname) = String.length fname
  ∧ Forall (λ c, c ∉ unsafe_chars)
           (list_ascii_of_string (sanitize_filename fname)).
Proof.
  induction fname as [|c s (IH1 & IH2 & IH3)].
  - unfold sanitize_filename. rewrite replace_fold_empty.
    split_and!; [done | done | constructor].
  - rewrite sanitize_cons. split_and!.
    + simpl. by rewrite <- IH1.
    + simpl. by rewrite IH2.
    + simpl. constructor; [apply safe_char_safe | exact IH3].
Qed.

Section Formatting.
Context (percent : string → gmap string string → result string).
Context (outtmpl : string).

(** *** [_format_outtmpl] *)

(** X25: a file name made by [_format_outtmpl] never begins with a
    hyphen: an expansion that does gets an underscore in front, and the
    others are returned as they are. *)
Theorem outtmpl_never_starts_with_dash date time m overrides fname :
  _format_outtmpl percent outtmpl date time m overrides = Ok fname →
  starts_with_dash fname = false
  ∧ (percent outtmpl (finfo date time m overrides) = Ok fname
     ∨ ∃ formatted, percent outtmpl (finfo date time m overrides) = Ok formatted
         ∧ starts_with_dash formatted = true
         ∧ fname = String "_"%char formatted).
Proof.
  unfold _format_outtmpl.
  destruct (percent outtmpl (finfo date time m overrides)) as [formatted|e];
    [|done].
  simpl. destruct (starts_with_dash formatted) eqn:Hd; intros [= <-].
  - split; [done|]. right. by exists formatted.
  - split; [done|]. by left.
Qed.

(** *** [get_unique_name] *)

Context (path_exists : string → bool).
Context (clock : nat → string * string).

Lemma get_unique_name_skip m ext k : ∀ fuel n fname,
  (∀ j, (j < k)%nat →
     ∃ g, candidate percent outtmpl clock m ext (n + j) = Ok g
          ∧ path_exists g = true) →
  candidate percent outtmpl clock m ext (n + k) = Ok fname →
  path_exists fname = false →
  (k < fuel)%nat →
  get_unique_name percent outtmpl path_exists clock fuel n m ext
  = Some (Ok fname).
Proof.
  unfold candidate.
  induction k as [|k IH]; intros fuel n fname Hbusy Hk Hfree Hfuel;
    (destruct fuel as [|fuel]; [lia|]); simpl.
  - rewrite Nat.add_0_r in Hk. by rewrite Hk, Hfree.
  - destruct (Hbusy 0%nat) as (g & Hg & Hex); [lia|].
    rewrite Nat.add_0_r in Hg. rewrite Hg, Hex.
    apply IH; [|by rewrite Nat.add_succ_comm|done|lia].
    intros j Hj. destruct (Hbusy (S j)) as (g' & Hg' & Hex'); [lia|].
    exists g'. by rewrite Nat.add_succ_comm.
Qed.

(** X26: [get_unique_name] returns the first name of the sequence ext,
    1.ext, 2.ext, ... that does not exist: when the names of the
    iterations before number [k] exist and that of iteration [k] does
    not, the loop ends in iteration [k] with that name. *)
Theorem unique_name_first_free m ext k fuel fname :
  (∀ j, (j < k)%nat →
     ∃ g, candidate percent outtmpl clock m ext j = Ok g
          ∧ path_exists g = true) →
  candidate percent outtmpl clock m ext k = Ok fname →
  path_exists fname = false →
  (k < fuel)%nat →
  get_unique_name percent outtmpl path_exists clock fuel 0 m ext
  = Some (Ok fname).
Proof.
  intros Hbusy Hk Hfree Hfuel.
  by apply (get_unique_name_skip m ext k fuel 0%nat fname).
Qed.

Lemma finfo_ext date time m e :
  finfo date time m {[ "ext" := e ]} = <["ext" := e]> (finfo date time m ∅).
Proof.
  unfold finfo. by rewrite <- insert_union_singleton_l, (left_id_L ∅ (∪)).
Qed.

Lemma candidate_ignores_ext m ext n :
  ignores_ext percent outtmpl → clock n = clock 0%nat →
  candidate percent outtmpl clock m ext n
  = candidate percent outtmpl clock m ext 0.
Proof.
  intros Hig Hc. unfold candidate, _format_outtmpl.
  by rewrite Hc, !finfo_ext, !Hig.
Qed.

(** X27: with a template whose expansion does not depend on ext, and a
    clock that shows the same date and time, [get_unique_name] never
    returns once the expanded name exists: every iteration tries the
    same name. *)
Theorem unique_name_loops_without_ext m ext g fuel :
  ignores_ext percent outtmpl →
  (∀ n, clock n = clock 0%nat) →
  candidate percent outtmpl clock m ext 0 = Ok g →
  path_exists g = true →
  get_unique_name percent outtmpl path_exists clock fuel 0 m ext = None.
Proof.
  intros Hig Hclock Hg Hex.
  assert (∀ n, candidate percent outtmpl clock m ext n = Ok g) as Hall.
  { intros n. by rewrite candidate_ignores_ext. }
  generalize 0%nat. induction fuel as [|fuel IH]; intros n; [done|].
  simpl. specialize (Hall n). unfold candidate in Hall.
  by rewrite Hall, Hex.
Qed.

End Formatting.

Lemma outtmpl_never_starts_with_dash_witness :
  _format_outtmpl append_ext "-a." "2020-01-01" "120000" None {[ "ext" := "ts" ]}
  = Ok "_-a.ts"
  ∧ starts_with_dash "_-a.ts" = false
  ∧ (append_ext "-a." (finfo "2020-01-01" "120000" None {[ "ext" := "ts" ]})
     = Ok "_-a.ts"
     ∨ ∃ formatted,
         append_ext "-a." (finfo "2020-01-01" "120000" None {[ "ext" := "ts" ]})
         = Ok formatted
         ∧ starts_with_dash formatted = true
         ∧ "_-a.ts" = String "_"%char formatted).
Proof.
  assert (_format_outtmpl append_ext "-a." "2020-01-01" "120000" None
            {[ "ext" := "ts" ]} = Ok "_-a.ts") as H1 by reflexivity.
  split; [exact H1|].
  exact (outtmpl_never_starts_with_dash append_ext "-a." "2020-01-01" "120000"
           None {[ "ext" := "ts" ]} "_-a.ts" H1).
Defined.

Lemma unique_name_first_free_witness :
  let path_exists f := bool_decide (f ∈ ["a.ts"; "a.1.ts"]) in
  let clock (_ : nat) := ("2020-01-01", "120000") in
  (∀ j, (j < 2)%nat →
     ∃ g, candidate append_ext "a." clock None "ts" j = Ok g
          ∧ path_exists g = true)
  ∧ candidate append_ext "a." clock None "ts" 2 = Ok "a.2.ts"
  ∧ path_exists "a.2.ts" = false
  ∧ (2 < 5)%nat
  ∧ get_unique_name append_ext "a." path_exists clock 5 0 None "ts"
    = Some (Ok "a.2.ts").
Proof.
  intros path_exists clock.
  assert (∀ j, (j < 2)%nat →
     ∃ g, candidate append_ext "a." clock None "ts" j = Ok g
          ∧ path_exists g = true) as H1.
  { intros [|[|j]] Hj; [by exists "a.ts" | by exists "a.1.ts" | lia]. }
  assert (candidate append_ext "a." clock None "ts" 2 = Ok "a.2.ts") as H2
    by reflexivity.
  assert (path_exists "a.2.ts" = false) as H3 by reflexivity.
  assert (2 < 5)%nat as H4 by lia.
  split; [exact H1|]. split; [exact H2|]. split; [exact H3|].
  split; [exact H4|].
  exact (unique_name_first_free append_ext "a." path_exists clock None "ts"
           2 5 "a.2.ts" H1 H2 H3 H4).
Defined.

Lemma unique_name_loops_without_ext_witness :
  let path_exists f := bool_decide (f = "a") in
  let clock (_ : nat) := ("2020-01-01", "120000") in
  ignores_ext literal "a"
  ∧ (∀ n, clock n = clock 0%nat)
  ∧ candidate literal "a" clock None "ts" 0 = Ok "a"
  ∧ path_exists "a" = true
  ∧ get_unique_name literal "a" path_exists clock 1000 0 None "ts" = None.
Proof.
  intros path_exists clock.
  assert (ignores_ext literal "a") as H1 by done.
  assert (∀ n, clock n = clock 0%nat) as H2 by done.
  assert (candidate literal "a" clock None "ts" 0 = Ok "a") as H3
    by reflexivity.
  assert (path_exists "a" = true) as H4 by reflexivity.
  split; [exact H1|]. split; [exact H2|]. split; [exact H3|].
  split; [exact H4|].
  exact (unique_name_loops_without_ext literal "a" path_exists clock None
           "ts" "a" 1000 H1 H2 H3 H4).
Defined.

End OuttmplFacts.

(** ** The status line of ffmpeg *)

Module FFMpegFacts.

Import FFMpeg.

Local Open Scope string_scope.
Local Open Scope list_scope.

Lemma append_String c a b : (String c a +:+ b) = String c (a +:+ b).
Proof. reflexivity. Qed.

Lemma last_char_None s : last_char s = None → s = "".
Proof.
  induction s as [|c s IH]; [done|]. simpl.
  destruct s; [done|]. intros H. by specialize (IH H).
Qed.

Lemma last_char_is_Some s : s ≠ "" → is_Some (last_char s).
Proof.
  intros Hs. destruct (last_char s) eqn:H; [by eexists|].
  by apply last_char_None in H.
Qed.

Lemma last_char_cons c s : s ≠ "" → last_char (String c s) = last_char s.
Proof. by destruct s. Qed.

Lemma last_char_append k s : s ≠ "" → last_char (k +:+ s) = last_char s.
Proof.
  intros Hs. induction k as [|c k IH]; [done|].
  rewrite append_String, last_char_cons; [done|].
  by destruct k, s.
Qed.

Lemma but_last_append_one k c : but_last (k +:+ String c "") = k.
Proof.
  induction k as [|c' k IH]; [done|].
  rewrite append_String. simpl. rewrite IH. by destruct k.
Qed.

Lemma contains_last c s : contains c s = false → last_char s ≠ Some c.
Proof.
  induction s as [|c' s IH]; [done|]. simpl.
  case_decide as Hc; [done|]. intros Hn. destruct s; [congruence | by apply IH].
Qed.

Lemma contains_append c k s :
  contains c (k +:+ s) = contains c k || contains c s.
Proof.
  induction k as [|c' k IH]; [done|].
  rewrite append_String. simpl. by case_decide.
Qed.

Lemma split_first_absent c s : contains c s = false → split_first c s = (s, []).
Proof.
  induction s as [|c' s IH]; [done|]. simpl.
  case_decide as Hc; [done|]. intros Hn. by rewrite IH.
Qed.

Lemma split_append c k v :
  contains c k = false → contains c v = false →
  split c (k +:+ String c v) = [k; v].
Proof.
  intros Hk Hv. unfold split.
  assert (split_first c (k +:+ String c v) = (k, [v])) as ->; [|done].
  induction k as [|c' k IH].
  - simpl. rewrite (split_first_absent _ _ Hv). by rewrite decide_True.
  - rewrite append_String. simpl in Hk |- *.
    case_decide; [done|]. by rewrite (IH Hk).
Qed.

(** What the loop goes on with after an item that does not end in [=]
    does not depend on the item. *)
Lemma scan_last_item stats l1 l2 c1 c2 items :
  last_char l1 = Some c1 → c1 ≠ "="%char →
  last_char l2 = Some c2 → c2 ≠ "="%char →
  scan (stats, l1) items = scan (stats, l2) items.
Proof.
  intros H1 Hc1 H2 Hc2. destruct items as [|item items]; [done|].
  simpl. rewrite H1, H2. by rewrite !decide_False.
Qed.

Lemma step_outcome stats last_item item :
  last_item ≠ "" → item ≠ "" →
  step (stats, last_item) item = Raise ValueError
  ∨ ∃ stats', step (stats, last_item) item = Ok (stats', item)
               ∧ dom stats ⊆ dom stats'.
Proof.
  intros Hl Hi. unfold step.
  destruct (last_char_is_Some _ Hl) as [c ->].
  case_decide.
  - right. eexists. split; [done|]. set_solver.
  - destruct (contains "=" item).
    + destruct (split "=" item) as [|k [|v [|??]]]; try by left.
      right. eexists. split; [done|]. set_solver.
    + right. by eexists.
Qed.

Lemma scan_outcome items : ∀ stats last_item,
  last_item ≠ "" → Forall (λ x, x ≠ "") items →
  scan (stats, last_item) items = Raise ValueError
  ∨ ∃ stats', scan (stats, last_item) items = Ok stats'
               ∧ dom stats ⊆ dom stats'.
Proof.
  induction items as [|item items IH]; intros stats last_item Hl Hall.
  { right. by exists stats. }
  apply Forall_cons in Hall as [Hi Hall]. cbn [scan].
  destruct (step_outcome stats last_item item Hl Hi)
    as [->|(stats' & -> & Hdom)]; [by left|].
  cbn. destruct (IH stats' item Hi Hall) as [->|(stats'' & -> & Hdom')];
    [by left|].
  right. exists stats''. split; [done|]. set_solver.
Qed.

(** X28: whatever ffmpeg writes, [get_status] ends in one of three ways:
    with the exception of the read or of the decoding, with [ValueError],
    or with a dict that still has the seven keys of the defaults; so
    [print_status] returns [True] exactly when [get_status] returns, the
    [status['time']] and [status['size']] it logs being always there. *)
Theorem get_status_keeps_default_keys (r : read_outcome) :
  ((∃ e, r = ReadFails e ∧ get_status r = ReadRaises e)
   ∨ (∃ line, r = ReadLine line ∧ get_status r = Raises ValueError)
   ∨ (∃ line stats, r = ReadLine line ∧ get_status r = Status stats
                    ∧ dom stats0 ⊆ dom stats))
  ∧ ((print_status r).1 = true ↔ ∃ stats, get_status r = Status stats).
Proof.
  assert ((∃ e, r = ReadFails e ∧ get_status r = ReadRaises e)
          ∨ (∃ line, r = ReadLine line ∧ get_status r = Raises ValueError)
          ∨ (∃ line stats, r = ReadLine line ∧ get_status r = Status stats
                           ∧ dom stats0 ⊆ dom stats)) as Hcases.
  { destruct r as [line|e]; [|left; by exists e]. right. unfold get_status.
    destruct (scan_outcome (parts (line +:+ String carriage_return ""))
                stats0 "-") as [->|(stats & -> & Hdom)]; [done | | |].
    - unfold parts. apply Forall_forall. intros x Hx.
      by apply list_elem_of_filter in Hx as [Hx _].
    - left. by exists line.
    - right. by exists line, stats. }
  split; [exact Hcases|]. unfold print_status.
  destruct Hcases as [(e & -> & ->)|[(line & -> & ->)
                                    |(line & stats & -> & -> & Hdom)]].
  - split; [done | by intros [? ?]].
  - split; [done | by intros [? ?]].
  - assert (is_Some (stats !! "time")) as [t ->].
    { apply elem_of_dom, Hdom, elem_of_dom. by eexists. }
    assert (is_Some (stats !! "size")) as [z ->].
    { apply elem_of_dom, Hdom, elem_of_dom. by eexists. }
    split; [by eexists | done].
Qed.

(** X29: a field written as [k=] followed by the item [v] is read like
    the single item [k=v]: both leave [v] under the key [k] and the rest
    of the line is read in the same way. *)
Theorem get_status_two_forms stats last_item c k v rest :
  last_char last_item = Some c → c ≠ "="%char →
  contains "=" k = false → contains "=" v = false → v ≠ "" →
  scan (stats, last_item) ((k +:+ "=") :: v :: rest)
  = scan (stats, last_item) ((k +:+ "=" +:+ v) :: rest)
  ∧ ∃ stats', step (stats, last_item) (k +:+ "=" +:+ v)
              = Ok (stats', k +:+ "=" +:+ v)
      ∧ stats' !! k = Some (VStr v).
Proof.
  intros Hl Hc Hk Hv Hne.
  assert (step (stats, last_item) (k +:+ "=" +:+ v)
          = Ok (<[k := VStr v]> stats, k +:+ "=" +:+ v)) as Hone.
  { unfold step. rewrite Hl, decide_False by done.
    rewrite contains_append. simpl contains at 2. rewrite orb_true_r.
    change ("=" +:+ v) with (String "=" v). by rewrite split_append. }
  assert (step (stats, last_item) (k +:+ "=")
          = Ok (<[k := VStr ""]> stats, k +:+ "=")) as Hfirst.
  { unfold step. rewrite Hl, decide_False by done.
    rewrite contains_append. simpl contains at 2. rewrite orb_true_r. by rewrite split_append. }
  assert (step (<[k := VStr ""]> stats, k +:+ "=") v
          = Ok (<[k := VStr v]> stats, v)) as Hsecond.
  { unfold step. rewrite last_char_append by done. simpl last_char.
    cbv iota beta. rewrite decide_True by done.
    by rewrite but_last_append_one, insert_insert_eq. }
  split.
  - cbn [scan]. rewrite Hfirst, Hone. cbn [mbind result_bind scan].
    rewrite Hsecond. cbn [mbind result_bind].
    destruct (last_char_is_Some v Hne) as [cv Hcv].
    apply (scan_last_item _ _ _ cv cv); [done | | | ].
    + intros ->. by apply (contains_last _ _ Hv).
    + change ("=" +:+ v) with (String "=" v).
      rewrite last_char_append by done. by rewrite last_char_cons.
    + intros ->. by apply (contains_last _ _ Hv).
  - eexists. split; [exact Hone|]. apply lookup_insert_eq.
Qed.

Lemma get_status_two_forms_witness :
  let rest := ["time=00:00:04.00"; "bitrate=2097.2kbits/s"] in
  last_char "-" = Some "-"%char ∧ "-"%char ≠ "="%char
  ∧ contains "=" "size" = false ∧ contains "=" "1024kB" = false
  ∧ "1024kB" ≠ ""
  ∧ scan (stats0, "-") ("size=" :: "1024kB" :: rest)
    = scan (stats0, "-") ("size=1024kB" :: rest)
  ∧ ∃ stats', step (stats0, "-") "size=1024kB" = Ok (stats', "size=1024kB")
      ∧ stats' !! "size" = Some (VStr "1024kB").
Proof.
  intros rest.
  assert (last_char "-" = Some "-"%char) as H1 by reflexivity.
  assert ("-"%char ≠ "="%char) as H2 by discriminate.
  assert (contains "=" "size" = false) as H3 by reflexivity.
  assert (contains "=" "1024kB" = false) as H4 by reflexivity.
  assert ("1024kB" ≠ "") as H5 by discriminate.
  split; [exact H1|]. split; [exact H2|]. split; [exact H3|].
  split; [exact H4|]. split; [exact H5|].
  exact (get_status_two_forms stats0 "-" "-"%char "size" "1024kB" rest
           H1 H2 H3 H4 H5).
Defined.

End FFMpegFacts.

(** ** The cached metadata *)

Module LiveStreamFacts.

Import FC2LiveStream.

Local Open Scope Z_scope.

Section Server.
Context (server : nat → meta).

Lemma is_online_refetch s :
  is_online server true s
  = (0 <? is_publish (server (requests s)),
     Live (Some (server (requests s))) (S (requests s)) (slept s)).
Proof. unfold is_online, get_meta. by destruct (_meta s). Qed.

Lemma wait_for_online_first n k : ∀ fuel s,
  (∀ j, (j < k)%nat → is_publish (server (requests s + j)) ≤ 0) →
  0 < is_publish (server (requests s + k)) →
  (k < fuel)%nat →
  wait_for_online server (PyInt n) fuel s
  = Some (Returned (),
          Live (Some (server (requests s + k))) (S (requests s + k))
               (slept s + k * Z.to_nat n)).
Proof.
  induction k as [|k IH]; intros fuel s Hoff Hon Hfuel;
    (destruct fuel as [|fuel]; [lia|]); cbn [wait_for_online];
    rewrite is_online_refetch.
  - rewrite Nat.add_0_r in Hon |- *.
    rewrite (proj2 (Z.ltb_lt _ _) Hon). do 3 f_equal. lia.
  - pose proof (Hoff 0%nat ltac:(lia)) as H0. rewrite Nat.add_0_r in H0.
    rewrite (proj2 (Z.ltb_ge _ _) H0). cbn [sleep_rounds _meta requests slept].
    rewrite IH; cbn [requests slept].
    + rewrite Nat.add_succ_comm. do 3 f_equal. lia.
    + intros j Hj. rewrite Nat.add_succ_comm. apply Hoff. lia.
    + by rewrite Nat.add_succ_comm.
    + lia.
Qed.

Lemma wait_for_online_at_once interval fuel s :
  0 < is_publish (server (requests s)) →
  wait_for_online server interval (S fuel) s
  = Some (Returned (),
          Live (Some (server (requests s))) (S (requests s)) (slept s)).
Proof.
  intros Hon. cbn [wait_for_online]. rewrite is_online_refetch.
  by rewrite (proj2 (Z.ltb_lt _ _) Hon).
Qed.

Lemma wait_for_online_float q fuel s :
  is_publish (server (requests s)) ≤ 0 →
  wait_for_online server (PyFloat q) (S fuel) s
  = Some (RangeTypeError,
          Live (Some (server (requests s))) (S (requests s)) (slept s)).
Proof.
  intros Hoff. cbn [wait_for_online]. rewrite is_online_refetch.
  by rewrite (proj2 (Z.ltb_ge _ _) Hoff).
Qed.

Lemma cached_check m n sl :
  0 < is_publish m →
  get_websocket_url server (Live (Some m) n sl)
  = (Returned m, Live (Some m) n sl).
Proof.
  intros Hon. unfold get_websocket_url, is_online, get_meta. simpl.
  by rewrite (proj2 (Z.ltb_lt _ _) Hon).
Qed.

(** X30: in [download], let reply number [k] be the first that shows the
    channel online ([k] is 0 unless [wait_for_live] is set).  With an
    [int] poll interval, or when [k] is at most 1, the online test of
    [get_websocket_url] passes on the cached reply: the names and the
    control-server request both use reply [k], [k + 1] requests have been
    made in all, and the interval has been slept after each offline reply
    of [wait_for_online].  With a [float] poll interval and [k] at least
    2, [wait_for_online] raises [TypeError] after the second request. *)
Theorem download_uses_cached_meta wait_for_live interval fuel k :
  (∀ j, (j < k)%nat → is_publish (server j) ≤ 0) →
  0 < is_publish (server k) →
  k = 0%nat ∨ wait_for_live = true →
  (k ≤ fuel)%nat →
  download server wait_for_live interval fuel __init__
  = Some match interval with
         | PyInt n =>
             (Returned (server k, server k),
              Live (Some (server k)) (S k) ((k - 1) * Z.to_nat n))
         | PyFloat _ =>
             if decide (k ≤ 1)%nat
             then (Returned (server k, server k), Live (Some (server k)) (S k) 0)
             else (RangeTypeError, Live (Some (server 1%nat)) 2 0)
         end.
Proof.
  intros Hoff Hon Hk Hfuel. unfold download.
  rewrite is_online_refetch. cbn [__init__ requests slept].
  destruct k as [|k].
  - rewrite (proj2 (Z.ltb_lt _ _) Hon). cbn [mbind option_bind].
    unfold get_meta at 1. cbn [_meta negb].
    rewrite cached_check by done. by destruct interval.
  - destruct Hk as [Hk0 | ->]; [done|].
    rewrite (proj2 (Z.ltb_ge _ _) (Hoff 0%nat ltac:(lia))). cbn [negb].
    destruct interval as [n|q].
    + rewrite (wait_for_online_first n k); cbn [requests slept].
      * cbn [mbind option_bind]. unfold get_meta at 1. cbn [_meta negb].
        rewrite cached_check by done. do 3 f_equal. lia.
      * intros j Hj. apply Hoff. lia.
      * done.
      * lia.
    + destruct k as [|k].
      * destruct fuel as [|fuel]; [lia|].
        rewrite wait_for_online_at_once by done.
        cbn [mbind option_bind requests slept].
        unfold get_meta at 1. cbn [_meta negb].
        rewrite cached_check by done. by rewrite decide_True by lia.
      * destruct fuel as [|fuel]; [lia|].
        rewrite wait_for_online_float by (cbn [requests]; apply Hoff; lia).
        cbn [mbind option_bind requests slept].
        by rewrite decide_False by lia.
Qed.

End Server.

Lemma download_uses_cached_meta_witness :
  let server (n : nat) := Meta (if decide (n < 2)%nat then 0 else 2) "" in
  (∀ j, (j < 2)%nat → is_publish (server j) ≤ 0)
  ∧ 0 < is_publish (server 2%nat)
  ∧ (2%nat = 0%nat ∨ true = true)
  ∧ (2 ≤ 5)%nat
  ∧ download server true (PyFloat 5) 5 __init__
    = Some (if decide (2 ≤ 1)%nat
            then (Returned (server 2%nat, server 2%nat),
                  Live (Some (server 2%nat)) 3 0)
            else (RangeTypeError, Live (Some (server 1%nat)) 2 0)).
Proof.
  intros server.
  assert (∀ j, (j < 2)%nat → is_publish (server j) ≤ 0) as H1.
  { intros j Hj. unfold server. simpl. by rewrite decide_True. }
  assert (0 < is_publish (server 2%nat)) as H2 by done.
  assert (2%nat = 0%nat ∨ true = true) as H3 by by right.
  assert (2 ≤ 5)%nat as H4 by lia.
  split; [exact H1|]. split; [exact H2|]. split; [exact H3|].
  split; [exact H4|].
  exact (download_uses_cached_meta server true (PyFloat 5) 5 2 H1 H2 H3 H4).
Defined.

End LiveStreamFacts.
